(** * tools/tag_release.py: version rewrite and release tagging

    A shallow embedding of [tools/tag_release.py].  The script reads
    [plugin/util.py] as text, looks for a version declaration with two
    regular expressions, rewrites the declared value, and then drives git
    (status, add, commit, tag, push) through [subprocess.run].

    Texts are Python [str] values: sequences of Unicode code points.  The
    target file is modelled by its decoded content, line ends as they are
    on disk; [Path.read_text] and [Path.write_text] translate line ends as
    Python's text mode does.  The regular expressions are modelled by the
    operation sequences the [re] module compiles them to, run by a
    backtracking matcher; git is an oracle answering each command with a
    return code and a standard output, and the outcome of [parse_args] on
    the command line is given. *)

From Stdlib Require Import String Ascii List NArith ZArith Bool Lia.
Import ListNotations.

Local Open Scope N_scope.
Local Open Scope list_scope.

(** ** Texts *)

Definition char := N.
Definition text := list char.

(** The code points of an ASCII literal of the script. *)
Definition str (s : string) : text :=
  map (fun a => N_of_ascii a) (list_ascii_of_string s).

Definition sq : char := 39.       (* the single quote *)
Definition dq : char := 34.       (* the double quote *)
Definition newline : char := 10.  (* \n *)

Fixpoint text_eqb (a b : text) : bool :=
  match a, b with
  | [], [] => true
  | x :: a', y :: b' => (x =? y) && text_eqb a' b'
  | _, _ => false
  end.

(** [str.isspace] on one code point, which is also the [\s] of a [str]
    pattern: the ASCII white space 0x09-0x0D, 0x1C-0x1F and 0x20, and the
    other Unicode white space characters. *)
Definition isspace (c : char) : bool :=
  ((9 <=? c) && (c <=? 13)) || ((28 <=? c) && (c <=? 32))
  || (c =? 133) || (c =? 160) || (c =? 5760)
  || ((8192 <=? c) && (c <=? 8202))
  || (c =? 8232) || (c =? 8233) || (c =? 8239) || (c =? 8287)
  || (c =? 12288).

Fixpoint lstrip (s : text) : text :=
  match s with
  | c :: s' => if isspace c then lstrip s' else s
  | [] => []
  end.

(** [s.strip()] *)
Definition strip (s : text) : text := rev (lstrip (rev (lstrip s))).

(** Python's [needle in hay]. *)
Fixpoint starts_with (p s : text) : bool :=
  match p, s with
  | [], _ => true
  | x :: p', y :: s' => (x =? y) && starts_with p' s'
  | _ :: _, [] => false
  end.

Fixpoint contains (hay needle : text) : bool :=
  starts_with needle hay ||
  match hay with
  | [] => false
  | _ :: hay' => contains hay' needle
  end.

(** [s[i:j]] for [0 <= i], [0 <= j]. *)
Definition slice (s : text) (i j : nat) : text := skipn i (firstn j s).

(** ** The regular expression engine

    Character sets and the operations the two patterns of the script compile
    to.  [MAX_REPEAT lo set] is a greedy, unbounded repetition of a single
    character of [set], at least [lo] times (the [\s*] and the [+] of the patterns);
    [MARK (2*(g-1))] and [MARK (2*(g-1)+1)] open and close group [g];
    [AT_BEGINNING_LINE] is [^] under [re.M]. *)

Inductive cset :=
| CATEGORY_SPACE
| CHARS (l : list char)
| NEGATE (s : cset).

Fixpoint cset_mem (c : char) (s : cset) : bool :=
  match s with
  | CATEGORY_SPACE => isspace c
  | CHARS l => existsb (N.eqb c) l
  | NEGATE s' => negb (cset_mem c s')
  end.

Inductive op :=
| AT_BEGINNING_LINE
| LITERAL (c : char)
| IN (s : cset)
| MAX_REPEAT (lo : nat) (s : cset)
| MARK (n : nat).

Definition pattern := list op.

(** The matcher's state: the text before the cursor (nearest character
    first), the text from the cursor on, and the marks set so far, latest
    first. *)
Record mstate := MState {
  before : text;
  after : text;
  marks : list (nat * nat)
}.

Definition cursor (st : mstate) : nat := length (before st).

Definition advance (n : nat) (st : mstate) : mstate :=
  {| before := rev (firstn n (after st)) ++ before st;
     after := skipn n (after st);
     marks := marks st |}.

Definition set_mark (i : nat) (st : mstate) : mstate :=
  {| before := before st;
     after := after st;
     marks := (i, cursor st) :: marks st |}.

(** [^] with [re.M]: at the start of the text or just after a newline. *)
Definition at_bol (b : text) : bool :=
  match b with
  | [] => true
  | c :: _ => c =? newline
  end.

(** Length of the longest run of characters of [s] at the head of [l]. *)
Fixpoint sre_count (s : cset) (l : text) : nat :=
  match l with
  | c :: l' => if cset_mem c s then S (sre_count s l') else 0%nat
  | [] => 0%nat
  end.

(** Greedy repetition: try the continuation after [lo + extra] characters,
    then after one character less, down to [lo]. *)
Fixpoint retry {A : Type} (k : nat -> option A) (lo extra : nat) : option A :=
  match k (lo + extra)%nat with
  | Some r => Some r
  | None =>
      match extra with
      | O => None
      | S e => retry k lo e
      end
  end.

Fixpoint sre_match (pat : pattern) (st : mstate) : option mstate :=
  match pat with
  | [] => Some st
  | AT_BEGINNING_LINE :: pat' =>
      if at_bol (before st) then sre_match pat' st else None
  | LITERAL c :: pat' =>
      match after st with
      | c' :: _ => if c' =? c then sre_match pat' (advance 1 st) else None
      | [] => None
      end
  | IN s :: pat' =>
      match after st with
      | c' :: _ => if cset_mem c' s then sre_match pat' (advance 1 st) else None
      | [] => None
      end
  | MAX_REPEAT lo s :: pat' =>
      let n := sre_count s (after st) in
      if (n <? lo)%nat then None
      else retry (fun i => sre_match pat' (advance i st)) lo (n - lo)
  | MARK i :: pat' => sre_match pat' (set_mark i st)
  end.

(** A match object: the searched text, the span of the whole match and the
    marks of its groups. *)
Record Match := MkMatch {
  m_string : text;
  m_start : nat;
  m_end : nat;
  m_marks : list (nat * nat)
}.

Fixpoint get_mark (i : nat) (ms : list (nat * nat)) : option nat :=
  match ms with
  | [] => None
  | (j, p) :: ms' => if (i =? j)%nat then Some p else get_mark i ms'
  end.

(** [m.start(g)], [m.end(g)] and [m.group(g)] for [g >= 1]; every group of
    the two patterns takes part in every match. *)
Definition group_start (m : Match) (g : nat) : nat :=
  match get_mark (2 * (g - 1)) (m_marks m) with Some p => p | None => 0%nat end.

Definition group_end (m : Match) (g : nat) : nat :=
  match get_mark (2 * (g - 1) + 1) (m_marks m) with Some p => p | None => 0%nat end.

Definition group (m : Match) (g : nat) : text :=
  slice (m_string m) (group_start m g) (group_end m g).

Definition match_at (pat : pattern) (b a : text) : option mstate :=
  sre_match pat {| before := b; after := a; marks := [] |}.

(** [pattern.search]: the match at the leftmost position that has one. *)
Fixpoint search_from (pat : pattern) (txt b a : text) : option Match :=
  match match_at pat b a with
  | Some st =>
      Some {| m_string := txt; m_start := length b;
              m_end := cursor st; m_marks := marks st |}
  | None =>
      match a with
      | [] => None
      | c :: a' => search_from pat txt (c :: b) a'
      end
  end.

Definition search (pat : pattern) (txt : text) : option Match :=
  search_from pat txt [] txt.

(** [pattern.sub(repl, txt, count=1)] with a callable [repl]: the leftmost
    match is replaced by what [repl] returns, taken literally. *)
Definition sub1 (pat : pattern) (repl : Match -> text) (txt : text) : text :=
  match search pat txt with
  | Some m => firstn (m_start m) txt ++ repl m ++ skipn (m_end m) txt
  | None => txt
  end.

(** ** The two patterns of [update_util_version] *)

Definition quotes : cset := CHARS [sq; dq].

Definition literal (s : string) : pattern := map LITERAL (str s).

(** Pattern 1, compiled with [re.M].  Group 1 is [^], white space, the word
    [version], white space, [=], white space; group 2 is one quote (single
    or double); group 3 is one or more characters that are not quotes;
    group 4 is one quote. *)
Definition assign_re : pattern :=
  [MARK 0; AT_BEGINNING_LINE; MAX_REPEAT 0 CATEGORY_SPACE]
  ++ literal "version"
  ++ [MAX_REPEAT 0 CATEGORY_SPACE; LITERAL 61; MAX_REPEAT 0 CATEGORY_SPACE;
      MARK 1;
      MARK 2; IN quotes; MARK 3;
      MARK 4; MAX_REPEAT 1 (NEGATE quotes); MARK 5;
      MARK 6; IN quotes; MARK 7].

(** Pattern 2.  Group 1 is a quote, the word [version], a quote, white
    space, [:], white space; groups 2, 3 and 4 are as in pattern 1. *)
Definition dict_re : pattern :=
  [MARK 0; IN quotes]
  ++ literal "version"
  ++ [IN quotes; MAX_REPEAT 0 CATEGORY_SPACE; LITERAL 58;
      MAX_REPEAT 0 CATEGORY_SPACE;
      MARK 1;
      MARK 2; IN quotes; MARK 3;
      MARK 4; MAX_REPEAT 1 (NEGATE quotes); MARK 5;
      MARK 6; IN quotes; MARK 7].

(** ** The world of the script

    Exceptions, observable events, the state a run threads through, and the
    environment the run cannot control. *)

Inductive exn :=
| SystemExit (code : Z)
| CalledProcessError (cmd : list text) (returncode : Z)
| OSError
| UnicodeEncodeError.

Inductive event :=
| EvRead                          (* UTIL_PATH.read_text(...) *)
| EvWrite (new_txt : text)        (* UTIL_PATH.write_text(new_txt, ...) *)
| EvRun (cmd : list text)         (* subprocess.run(cmd, ...) *)
| EvPrint (s : text)              (* print(s) *)
| EvErr (s : text)                (* print(s, file=sys.stderr) *)
| EvErrExn (s : text) (e : exn).  (* print(s, e, file=sys.stderr) *)

(** [util_py] is the content of plugin/util.py as it is on disk, decoded
    but with its line ends untranslated, [None] when the file cannot be
    opened for reading (missing, no permission); a file that is there is
    taken to hold valid UTF-8.  [trace] lists what the run did so far,
    oldest first. *)
Record world := World {
  util_py : option text;
  trace : list event
}.

(** The platform, as [os.name]. *)
Inductive os_name := posix | nt.

(** What becomes of a write to plugin/util.py: the whole text reaches the
    file; or [open] is refused and the file is untouched; or the file is
    opened, hence truncated, and the write then fails, leaving [remains]. *)
Inductive write_outcome :=
| Written
| OpenRefused
| WriteFailed (remains : option text).

(** [git] answers a command, given what happened before it, with a return
    code and a standard output (the git executable is taken to be
    installed); [disk] tells what becomes of writing a text to
    plugin/util.py, given what happened before. *)
Record env := Env {
  os : os_name;
  ROOT : text;
  git : list event -> list text -> Z * text;
  disk : list event -> text -> write_outcome
}.

(** [os.linesep] and [os.sep] *)
Definition os_linesep (E : env) : text :=
  match os E with posix => [10] | nt => [13; 10] end.

Definition os_sep (E : env) : text :=
  match os E with posix => [47] | nt => [92] end.

(** Reading in text mode with [newline=None]: every [\r\n] and every
    other [\r] becomes [\n]. *)
Fixpoint universal_newlines (t : text) : text :=
  match t with
  | [] => []
  | c :: t' =>
      if c =? 13 then
        10 :: match t' with
              | [] => []
              | d :: t'' =>
                  if d =? 10 then universal_newlines t''
                  else universal_newlines t'
              end
      else c :: universal_newlines t'
  end.

(** Writing in text mode with [newline=None]: every [\n] becomes
    [os.linesep]. *)
Definition translate_newlines (E : env) (t : text) : text :=
  flat_map (fun c => if c =? 10 then os_linesep E else [c]) t.

(** UTF-8 encodes every code point but the surrogates. *)
Definition encodable (t : text) : bool :=
  forallb (fun c => negb ((55296 <=? c) && (c <=? 57343))) t.

Definition initial (f : option text) : world := {| util_py := f; trace := [] |}.

(** A computation either returns a value or raises, and leaves a world. *)
Definition M (A : Type) : Type := world -> (A + exn) * world.

Definition ret {A : Type} (a : A) : M A := fun w => (inl a, w).

Definition raise {A : Type} (e : exn) : M A := fun w => (inr e, w).

Definition bind {A B : Type} (m : M A) (f : A -> M B) : M B :=
  fun w =>
    match m w with
    | (inl a, w') => f a w'
    | (inr e, w') => (inr e, w')
    end.

Definition try_except {A : Type} (m : M A) (h : exn -> M A) : M A :=
  fun w =>
    match m w with
    | (inl a, w') => (inl a, w')
    | (inr e, w') => h e w'
    end.

Notation "x <- m ;; k" := (bind m (fun x => k))
  (at level 61, m at next level, right associativity).
Notation "m ;; k" := (bind m (fun _ => k))
  (at level 61, right associativity).

Definition log (e : event) : M unit :=
  fun w => (inl tt, {| util_py := util_py w; trace := trace w ++ [e] |}).

Definition print (s : text) : M unit := log (EvPrint s).
Definition eprint (s : text) : M unit := log (EvErr s).
Definition eprint_exn (s : text) (e : exn) : M unit := log (EvErrExn s e).

(** [sys.exit(code)] *)
Definition sys_exit {A : Type} (code : Z) : M A := raise (SystemExit code).

(** The exit status of the process after [main]. *)
Definition exit_code {A : Type} (r : A + exn) : Z :=
  match r with
  | inl _ => 0%Z
  | inr (SystemExit code) => code
  | inr _ => 1%Z
  end.

(** [UTIL_PATH.read_text(encoding="utf-8")] *)
Definition read_text : M text :=
  fun w =>
    let w' := {| util_py := util_py w; trace := trace w ++ [EvRead] |} in
    match util_py w with
    | Some content => (inl (universal_newlines content), w')
    | None => (inr OSError, w')
    end.

(** [UTIL_PATH.write_text(data, encoding="utf-8")]: the file is opened with
    mode [w], which truncates it, and then the text is encoded and
    written. *)
Definition write_text (E : env) (data : text) : M unit :=
  fun w =>
    let after f := {| util_py := f; trace := trace w ++ [EvWrite data] |} in
    match disk E (trace w) data with
    | OpenRefused => (inr OSError, after (util_py w))
    | outcome =>
        if negb (encodable data) then (inr UnicodeEncodeError, after (Some []))
        else
          match outcome with
          | WriteFailed remains => (inr OSError, after remains)
          | _ => (inl tt, after (Some (translate_newlines E data)))
          end
    end.

(** [subprocess.run(cmd, cwd=ROOT, text=True, check=check, ...)] *)
Definition subprocess_run (E : env) (cmd : list text) (check : bool)
  : M (Z * text) :=
  fun w =>
    let res := git E (trace w) cmd in
    let w' := {| util_py := util_py w; trace := trace w ++ [EvRun cmd] |} in
    if check && negb (fst res =? 0)%Z
    then (inr (CalledProcessError cmd (fst res)), w')
    else (inl res, w').

(** [ROOT / "plugin" / "util.py"], as [str] gives it. *)
Definition UTIL_PATH (E : env) : text :=
  ROOT E ++ os_sep E ++ str "plugin" ++ os_sep E ++ str "util.py".

(** ** The script *)

Definition run (E : env) (cmd : list text) : M (Z * text) :=
  subprocess_run E cmd true.

Definition git_status : list text := [str "git"; str "status"; str "--porcelain"].

Definition git_is_clean (E : env) : M bool :=
  res <- subprocess_run E git_status false ;;
  ret (text_eqb (strip (snd res)) []).

(** [_assign_repl] and [_dict_repl] are the same function of the match. *)
Definition _repl (new_version : text) (m : Match) : text :=
  group m 1 ++ group m 2 ++ new_version ++ group m 4.

Definition already_msg (new_version : text) : text :=
  str "util.version already " ++ new_version.

Definition updated_msg (E : env) (current new_version : text) : text :=
  str "updated " ++ UTIL_PATH E ++ str " version " ++ current
  ++ str " -> " ++ new_version.

Definition not_found_msg (E : env) : text :=
  str "failed to locate a 'version' entry in " ++ UTIL_PATH E
  ++ str "; please update manually".

(** Lines 42-52 and 57-67: what is done with the match of pattern [re]. *)
Definition update_with (E : env) (re : pattern) (m : Match)
  (txt new_version : text) : M bool :=
  let current := group m 3 in
  if text_eqb current new_version then
    print (already_msg new_version) ;;
    ret false
  else
    let new_txt := sub1 re (_repl new_version) txt in
    write_text E new_txt ;;
    print (updated_msg E current new_version) ;;
    ret true.

Definition update_util_version (E : env) (new_version : text) : M bool :=
  txt <- read_text ;;
  match search assign_re txt with
  | Some m => update_with E assign_re m txt new_version
  | None =>
      match search dict_re txt with
      | Some m2 => update_with E dict_re m2 txt new_version
      | None =>
          eprint (not_found_msg E) ;;
          raise (SystemExit 2)
      end
  end.

Record Args := MkArgs {
  version : text;
  annotated : bool;
  push : bool;
  allow_dirty : bool;
  arg_tag_name : option text
}.

(** [args.tag_name or args.version] *)
Definition tag_name (args : Args) : text :=
  match arg_tag_name args with
  | Some (c :: t) => c :: t
  | _ => version args
  end.

(** Lines 85-87. *)
Definition precondition_gate (E : env) (args : Args) : M unit :=
  dirty <- (if negb (allow_dirty args)
            then clean <- git_is_clean E ;; ret (negb clean)
            else ret false) ;;
  if dirty : bool then
    eprint (str "working tree is not clean; commit or use --allow-dirty") ;;
    sys_exit 1
  else ret tt.

(** Lines 89-96. *)
Definition rewrite_stage (E : env) (args : Args) : M bool :=
  try_except (update_util_version E (version args))
    (fun e =>
       match e with
       | SystemExit _ => raise e
       | _ => eprint_exn (str "failed to update util.py:") e ;; sys_exit 1
       end).

Definition git_add (E : env) : list text := [str "git"; str "add"; UTIL_PATH E].

Definition git_commit (args : Args) : list text :=
  [str "git"; str "commit"; str "-m"; str "Bump version to " ++ version args].

Definition git_tag (args : Args) : list text :=
  if annotated args
  then [str "git"; str "tag"; str "-a"; tag_name args; str "-m";
        str "Release " ++ tag_name args]
  else [str "git"; str "tag"; tag_name args].

Definition git_push_head : list text :=
  [str "git"; str "push"; str "origin"; str "HEAD"].

Definition git_push_tag (args : Args) : list text :=
  [str "git"; str "push"; str "origin"; tag_name args].

(** Lines 99-104. *)
Definition commit_stage (E : env) (args : Args) (changed : bool) : M unit :=
  if changed then
    run E (git_add E) ;;
    run E (git_commit args) ;;
    print (str "committed util.py change")
  else
    print (str "no util.py change to commit").

(** Lines 106-111. *)
Definition tag_stage (E : env) (args : Args) : M unit :=
  run E (git_tag args) ;;
  print (str "created tag " ++ tag_name args).

(** Lines 113-116. *)
Definition push_stage (E : env) (args : Args) : M unit :=
  if push args then
    run E git_push_head ;;
    run E (git_push_tag args) ;;
    print (str "pushed HEAD and tag to origin")
  else ret tt.

(** Lines 118-120. *)
Definition git_failed (e : exn) : M unit :=
  match e with
  | CalledProcessError _ _ =>
      eprint_exn (str "git command failed:") e ;; sys_exit 1
  | _ => raise e
  end.

(** What [p.parse_args()] makes of the command line (lines 75-81): the
    parsed arguments; or, on -h, the help on standard output and exit code
    0; or, on a command line the parser rejects, usage and error on standard
    error and exit code 2. *)
Inductive cmdline :=
| Parsed (args : Args)
| Help (help : text)
| UsageError (message : text).

Definition parse_args (c : cmdline) : M Args :=
  match c with
  | Parsed args => ret args
  | Help help => print help ;; sys_exit 0
  | UsageError message => eprint message ;; sys_exit 2
  end.

Definition main (E : env) (c : cmdline) : M unit :=
  args <- parse_args c ;;
  precondition_gate E args ;;
  changed <- rewrite_stage E args ;;
  try_except
    (commit_stage E args changed ;;
     tag_stage E args ;;
     push_stage E args)
    git_failed.

(** * Vocabulary of the statements

    Predicates and helper functions used to state and prove the
    properties; none of them is part of the script. *)

(** Every character of [w] is in the set [s]. *)
Definition all_in (s : cset) (w : text) : bool :=
  forallb (fun c => cset_mem c s) w.

(** A single or a double quote. *)
Definition is_quote (c : char) : bool := cset_mem c quotes.

(** White space only. *)
Definition blank (w : text) : bool := all_in CATEGORY_SPACE w.

(** No single and no double quote. *)
Definition quote_free (v : text) : bool := all_in (NEGATE quotes) v.

(** Whether a match of [K] can start with the character [c]. *)
Fixpoint first_ok (K : pattern) (c : char) : bool :=
  match K with
  | [] => true
  | MARK _ :: K' => first_ok K' c
  | AT_BEGINNING_LINE :: K' => first_ok K' c
  | LITERAL c' :: _ => c =? c'
  | IN s :: _ => cset_mem c s
  | MAX_REPEAT _ _ :: _ => true
  end.

(** Groups 2, 3 and 4, which the two patterns share. *)
Definition value_tail : pattern :=
  [MARK 1;
   MARK 2; IN quotes; MARK 3;
   MARK 4; MAX_REPEAT 1 (NEGATE quotes); MARK 5;
   MARK 6; IN quotes; MARK 7].

(** White space, a separator, white space, and then the value. *)
Definition sep_tail (sep : char) : pattern :=
  [MAX_REPEAT 0 CATEGORY_SPACE; LITERAL sep; MAX_REPEAT 0 CATEGORY_SPACE]
  ++ value_tail.

(** The marks of groups 1 (its end) to 4 when group 2 starts at [p] and the
    value has [n] characters. *)
Definition value_marks (p n : nat) (ms : list (nat * nat)) : list (nat * nat) :=
  ((7, p + n + 2) :: (6, p + n + 1) :: (5, p + n + 1) :: (4, p + 1)
   :: (3, p + 1) :: (2, p) :: (1, p) :: ms)%nat.

(** The text of group 1 of pattern 1: white space, [version], white space,
    [=], white space. *)
Definition is_assign_hdr (h : text) : Prop :=
  exists w0 w1 w2,
    h = w0 ++ str "version" ++ w1 ++ 61 :: w2 /\
    blank w0 = true /\ blank w1 = true /\ blank w2 = true.

(** The text of group 1 of pattern 2: a quote, [version], a quote, white
    space, [:], white space. *)
Definition is_dict_hdr (h : text) : Prop :=
  exists k1 k2 w1 w2,
    h = k1 :: str "version" ++ k2 :: w1 ++ 58 :: w2 /\
    is_quote k1 = true /\ is_quote k2 = true /\
    blank w1 = true /\ blank w2 = true.

(** The state after a match that started at [b]: header [h], opening quote
    [q1], value [v], closing quote [q2], and [tl] left over. *)
Definition decl_state (b h : text) (q1 : char) (v : text) (q2 : char)
  (tl : text) : mstate :=
  MState (q2 :: rev v ++ q1 :: rev h ++ b) tl
         (value_marks (length b + length h) (length v) [(0%nat, length b)]).

(** [a] starts with a declaration whose header satisfies [Hd]. *)
Definition decl (Hd : text -> Prop) (b a : text) (st' : mstate) : Prop :=
  exists h q1 v q2 tl,
    a = h ++ q1 :: v ++ q2 :: tl /\ Hd h /\
    is_quote q1 = true /\ quote_free v = true /\ v <> [] /\
    is_quote q2 = true /\ st' = decl_state b h q1 v q2 tl.

(** The match object [search_from] builds from the final state [st] of a
    match that started with [b] before the cursor. *)
Definition found_at (txt b : text) (st : mstate) : Match :=
  {| m_string := txt; m_start := length b;
     m_end := cursor st; m_marks := marks st |}.

(** The match object of a declaration that starts after [s1]. *)
Definition decl_match (txt s1 h v : text) : Match :=
  {| m_string := txt;
     m_start := length s1;
     m_end := length s1 + length h + length v + 2;
     m_marks := value_marks (length s1 + length h) (length v)
                            [(0%nat, length s1)] |}.

(** The segments of a text between its quotes. *)
Fixpoint qsplit (a : text) : list text :=
  match a with
  | [] => [[]]
  | c :: r =>
      if is_quote c then [] :: qsplit r
      else match qsplit r with
           | u :: us => (c :: u) :: us
           | [] => [[c]]
           end
  end.

(** White space, the separator, white space. *)
Definition is_sep (sep : char) (m : text) : Prop :=
  exists w1 w2, m = w1 ++ sep :: w2 /\ blank w1 = true /\ blank w2 = true.

(** Pattern [P] matches at the position with [b] before it and [a] from
    it on. *)
Definition matches (P : pattern) (b a : text) : Prop :=
  exists st', match_at P b a = Some st'.

(** The text contains a newline. *)
Definition has_newline (v : text) : bool := existsb (N.eqb newline) v.

(** The world after more events. *)
Definition extend (w : world) (evs : list event) : world :=
  {| util_py := util_py w; trace := trace w ++ evs |}.

(** The same, with plugin/util.py overwritten. *)
Definition written (w : world) (new_txt : text) (evs : list event) : world :=
  {| util_py := Some new_txt; trace := trace w ++ evs |}.

(** The match [update_util_version] works with: the first match of pattern
    1 if it matches anywhere, else the first match of pattern 2. *)
Definition chosen_match (txt : text) : option Match :=
  match search assign_re txt with
  | Some m => Some m
  | None => search dict_re txt
  end.

(** The pattern that match comes from. *)
Definition chosen_re (txt : text) : pattern :=
  match search assign_re txt with
  | Some _ => assign_re
  | None => dict_re
  end.

(** The diagnostic of line 86. *)
Definition dirty_msg : text :=
  str "working tree is not clean; commit or use --allow-dirty".

(** What the precondition gate does when it lets the run through. *)
Definition gate_events (args : Args) : list event :=
  if allow_dirty args then [] else [EvRun git_status].

(** The gate lets the run through: the check is waived, or the status
    output is blank. *)
Definition gate_open (E : env) (args : Args) (tr : list event) : Prop :=
  allow_dirty args = true \/ strip (snd (git E tr git_status)) = [].

(** After the gate, what is left of [main]. *)
Definition after_gate (E : env) (args : Args) : M unit :=
  changed <- rewrite_stage E args ;;
  try_except
    (commit_stage E args changed ;;
     tag_stage E args ;;
     push_stage E args)
    git_failed.

(** Environments for the examples: every git command succeeds silently. *)
Definition env_ok : env :=
  {| os := posix; ROOT := str "/repo"; git := fun _ _ => (0%Z, []);
     disk := fun _ _ => Written |}.

(** Equality of two command lines. *)
Fixpoint cmd_eqb (a b : list text) : bool :=
  match a, b with
  | [], [] => true
  | x :: a', y :: b' => text_eqb x y && cmd_eqb a' b'
  | _, _ => false
  end.

(** Every git command succeeds silently, but [bad] returns 1. *)
Definition env_failing (bad : list text) : env :=
  {| os := posix; ROOT := str "/repo";
     git := fun _ cmd => if cmd_eqb cmd bad then (1%Z, []) else (0%Z, []);
     disk := fun _ _ => Written |}.

(** [m] only adds events at the end of the trace, and all of them satisfy
    [ok]. *)
Definition appends {A : Type} (ok : event -> Prop) (m : M A) : Prop :=
  forall w, exists evs,
    trace (snd (m w)) = trace w ++ evs /\ Forall ok evs.

(** The git commands of the script. *)
Definition script_command (E : env) (args : Args) (cmd : list text) : Prop :=
  cmd = git_status \/ cmd = git_add E \/ cmd = git_commit args \/
  cmd = git_tag args \/ cmd = git_push_head \/ cmd = git_push_tag args.

(** An event whose command, if it is one, is a command of the script. *)
Definition script_event (E : env) (args : Args) (e : event) : Prop :=
  match e with
  | EvRun cmd => script_command E args cmd
  | _ => True
  end.

(** The events of the stages that follow the rewrite: no read, no write,
    and of the git commands only those of that stage on. *)
Definition later_event (cmds : list (list text)) (e : event) : Prop :=
  match e with
  | EvRun cmd => In cmd cmds
  | EvRead | EvWrite _ => False
  | _ => True
  end.

(** A status query that reports one modified file. *)
Definition env_dirty : env :=
  {| os := posix; ROOT := str "/repo";
     git := fun _ cmd =>
              if cmd_eqb cmd git_status
              then (0%Z, str " M plugin/util.py" ++ [newline])
              else (0%Z, []);
     disk := fun _ _ => Written |}.

(** The status query fails (return code 128) and prints nothing. *)
Definition env_status_fails : env :=
  {| os := posix; ROOT := str "/repo";
     git := fun _ cmd =>
              if cmd_eqb cmd git_status then (128%Z, []) else (0%Z, []);
     disk := fun _ _ => Written |}.

(** The stages after the rewrite leave the target file alone. *)
Definition keeps {A : Type} (m : M A) : Prop :=
  forall w, util_py (snd (m w)) = util_py w.

(** An event whose command, if it is one, is among [cmds]. *)
Definition stage_event (cmds : list (list text)) (e : event) : Prop :=
  match e with
  | EvRun cmd => In cmd cmds
  | _ => True
  end.

(** The commands a run with these arguments can issue. *)
Definition main_cmds (E : env) (args : Args) : list (list text) :=
  (if allow_dirty args then [] else [git_status])
  ++ [git_add E; git_commit args; git_tag args]
  ++ (if push args then [git_push_head; git_push_tag args] else []).

(** The exceptions of [m] all satisfy [P]. *)
Definition raises_only {A : Type} (P : exn -> Prop) (m : M A) : Prop :=
  forall w e w', m w = (inr e, w') -> P e.

(** Every git command succeeds. *)
Definition git_always_ok (E : env) : Prop :=
  forall tr cmd, fst (git E tr cmd) = 0%Z.

(** A version that can be read back after it has been written into [txt]:
    not empty, without quotes, and, where pattern 2 is the one in use,
    without newlines. *)
Definition well_formed_for (txt new_version : text) : Prop :=
  new_version <> [] /\ quote_free new_version = true /\
  (search assign_re txt = None -> has_newline new_version = false).

(** The same environment as [env_ok], with a read-only target file. *)
Definition env_readonly : env :=
  {| os := posix; ROOT := str "/repo"; git := fun _ _ => (0%Z, []);
     disk := fun _ _ => OpenRefused |}.

(** The same, with a disk that fills up: the file is opened and the write
    fails before anything is written. *)
Definition env_disk_full : env :=
  {| os := posix; ROOT := str "/repo"; git := fun _ _ => (0%Z, []);
     disk := fun _ _ => WriteFailed (Some []) |}.

(** The same as [env_ok] on Windows. *)
Definition env_nt : env :=
  {| os := nt; ROOT := str "C:" ++ [92] ++ str "repo";
     git := fun _ _ => (0%Z, []); disk := fun _ _ => Written |}.

(** The write of [data], after [tr], goes through: the disk takes it and
    it can be encoded. *)
Definition write_ok (E : env) (tr : list event) (data : text) : bool :=
  match disk E tr data with
  | Written => encodable data
  | _ => false
  end.

(** No carriage return. *)
Definition cr_free (t : text) : bool := forallb (fun c => negb (c =? 13)) t.

(** The line ends of the content are the platform's own: read and written
    back, the content is the same. *)
Definition native (E : env) (content : text) : Prop :=
  translate_newlines E (universal_newlines content) = content.

(** * Properties *)

(** ** Texts *)

Lemma text_eqb_eq (a b : text) : text_eqb a b = true <-> a = b.
Proof.
  revert b; induction a as [|x a IH]; intros [|y b]; simpl; split;
    try congruence; try reflexivity.
  - intros H. apply andb_true_iff in H as [H1 H2].
    apply N.eqb_eq in H1. apply IH in H2. congruence.
  - intros H. inversion H; subst. rewrite N.eqb_refl. simpl. now apply IH.
Qed.

Lemma text_eqb_refl (a : text) : text_eqb a a = true.
Proof. now apply text_eqb_eq. Qed.

Lemma text_eqb_neq (a b : text) : text_eqb a b = false <-> a <> b.
Proof.
  split.
  - intros H Heq. apply text_eqb_eq in Heq. congruence.
  - intros H. destruct (text_eqb a b) eqn:Heq; [|reflexivity].
    apply text_eqb_eq in Heq. contradiction.
Qed.

Lemma starts_with_app (v b : text) : starts_with v (v ++ b) = true.
Proof. induction v as [|x v IH]; simpl; [reflexivity|]. now rewrite N.eqb_refl. Qed.

Lemma contains_app (a v b : text) : contains (a ++ v ++ b) v = true.
Proof.
  induction a as [|x a IH]; simpl.
  - destruct (v ++ b) eqn:Hvb; simpl.
    + destruct v; [reflexivity|discriminate].
    + rewrite <- Hvb, starts_with_app. reflexivity.
  - rewrite IH. apply orb_true_r.
Qed.

(** ** Line ends *)

Lemma universal_newlines_cr_free (t : text) :
  cr_free (universal_newlines t) = true.
Proof.
  assert (H : forall n t, (length t <= n)%nat ->
                          cr_free (universal_newlines t) = true).
  { clear t. induction n as [|n IH]; intros [|c t] Hl;
      try reflexivity; simpl in Hl; try lia.
    change (universal_newlines (c :: t))
      with (if c =? 13
            then 10 :: match t with
                       | [] => []
                       | d :: t'' => if d =? 10 then universal_newlines t''
                                     else universal_newlines t
                       end
            else c :: universal_newlines t).
    destruct (N.eqb_spec c 13) as [->|Hc].
    - change (cr_free (10 :: ?x)) with (cr_free x).
      destruct t as [|d t]; [reflexivity|]. simpl in Hl.
      destruct (d =? 10); apply IH; simpl; lia.
    - change (cr_free (c :: ?x)) with (negb (c =? 13) && cr_free x).
      apply N.eqb_neq in Hc. rewrite Hc. simpl. apply IH. lia. }
  apply (H (length t)). lia.
Qed.

Lemma universal_newlines_id (t : text) :
  cr_free t = true -> universal_newlines t = t.
Proof.
  induction t as [|c t IH]; simpl; [reflexivity|].
  intros H. apply andb_true_iff in H as [Hc Ht].
  apply negb_true_iff in Hc. rewrite Hc. now rewrite IH.
Qed.

Lemma translate_newlines_app (E : env) (a b : text) :
  translate_newlines E (a ++ b)
  = translate_newlines E a ++ translate_newlines E b.
Proof. apply flat_map_app. Qed.

Lemma translate_newlines_posix (E : env) (t : text) :
  os E = posix -> translate_newlines E t = t.
Proof.
  intros Hos. unfold translate_newlines, os_linesep. rewrite Hos.
  induction t as [|c t IH]; simpl; [reflexivity|].
  rewrite IH. destruct (N.eqb_spec c 10) as [->|]; reflexivity.
Qed.

(** What has been written without carriage returns reads back as it
    was. *)
Lemma read_back (E : env) (t : text) :
  cr_free t = true -> universal_newlines (translate_newlines E t) = t.
Proof.
  destruct (os E) eqn:Hos.
  - rewrite translate_newlines_posix by assumption.
    apply universal_newlines_id.
  - unfold translate_newlines, os_linesep. rewrite Hos.
    induction t as [|c t IH]; simpl; [reflexivity|].
    intros H. apply andb_true_iff in H as [Hc Ht].
    apply negb_true_iff in Hc.
    destruct (N.eqb_spec c 10) as [->|Hn]; simpl.
    + now rewrite IH.
    + rewrite Hc. now rewrite IH.
Qed.

Lemma cr_free_app (a b : text) : cr_free (a ++ b) = cr_free a && cr_free b.
Proof. apply forallb_app. Qed.

Lemma cr_free_firstn (n : nat) (t : text) :
  cr_free t = true -> cr_free (firstn n t) = true.
Proof.
  intros H. rewrite <- (firstn_skipn n t), cr_free_app in H.
  now apply andb_true_iff in H as [H _].
Qed.

Lemma cr_free_skipn (n : nat) (t : text) :
  cr_free t = true -> cr_free (skipn n t) = true.
Proof.
  intros H. rewrite <- (firstn_skipn n t), cr_free_app in H.
  now apply andb_true_iff in H as [_ H].
Qed.

(** ** The matcher *)

Lemma first_ok_sound (K : pattern) :
  forall st c r,
    after st = c :: r -> first_ok K c = false -> sre_match K st = None.
Proof.
  induction K as [|o K IH]; intros st c r Ha Hf; simpl in *.
  - discriminate.
  - destruct o; simpl in *.
    + destruct (at_bol (before st)); [eauto|reflexivity].
    + rewrite Ha, Hf. reflexivity.
    + rewrite Ha, Hf. reflexivity.
    + discriminate.
    + eapply IH; [|eassumption]. simpl. eassumption.
Qed.

Lemma retry_top {A : Type} (k : nat -> option A) (lo extra : nat) :
  (forall i, (lo <= i < lo + extra)%nat -> k i = None) ->
  retry k lo extra = k (lo + extra)%nat.
Proof.
  induction extra as [|e IH]; intros H; simpl.
  - destruct (k (lo + 0)%nat); reflexivity.
  - destruct (k (lo + S e)%nat) eqn:Hk; [reflexivity|].
    rewrite IH by (intros i Hi; apply H; lia).
    apply H. lia.
Qed.

Lemma sre_count_app (s : cset) (w r : text) :
  all_in s w = true ->
  match r with [] => True | c :: _ => cset_mem c s = false end ->
  sre_count s (w ++ r) = length w.
Proof.
  induction w as [|x w IH]; simpl; intros Hw Hr.
  - destruct r as [|c r]; simpl; [reflexivity|]. now rewrite Hr.
  - apply andb_true_iff in Hw as [Hx Hw]. rewrite Hx. f_equal. now apply IH.
Qed.

Lemma sre_count_firstn (s : cset) (a : text) :
  all_in s (firstn (sre_count s a) a) = true.
Proof.
  induction a as [|x a IH]; simpl; [reflexivity|].
  destruct (cset_mem x s) eqn:Hx; simpl; [|reflexivity].
  now rewrite Hx, IH.
Qed.

Lemma sre_count_inside (s : cset) (a : text) :
  forall i, (i < sre_count s a)%nat ->
    exists c r, skipn i a = c :: r /\ cset_mem c s = true.
Proof.
  induction a as [|x a IH]; simpl; intros i Hi; [lia|].
  destruct (cset_mem x s) eqn:Hx; [|lia].
  destruct i as [|i]; simpl.
  - eauto.
  - apply IH. lia.
Qed.

Section Repeat.
Variables (lo : nat) (s : cset) (K : pattern).
Hypothesis disjoint : forall c, cset_mem c s = true -> first_ok K c = false.

(** When no match of the continuation can start with a character of the
    repeated set, the repetition takes the whole run or fails. *)
Lemma max_repeat_det (b a : text) (ms : list (nat * nat)) :
  sre_match (MAX_REPEAT lo s :: K) (MState b a ms) =
  if (sre_count s a <? lo)%nat then None
  else sre_match K (MState (rev (firstn (sre_count s a) a) ++ b)
                           (skipn (sre_count s a) a) ms).
Proof.
  simpl. destruct (sre_count s a <? lo)%nat eqn:Hlo; [reflexivity|].
  apply Nat.ltb_ge in Hlo.
  rewrite retry_top.
  - replace (lo + (sre_count s a - lo))%nat with (sre_count s a) by lia.
    reflexivity.
  - intros i Hi.
    destruct (sre_count_inside s a i) as (c & r & Hs & Hc); [lia|].
    eapply first_ok_sound; [|apply disjoint; eassumption].
    unfold advance; simpl. eassumption.
Qed.

Lemma max_repeat_iff (b a : text) (ms : list (nat * nat)) (st' : mstate) :
  sre_match (MAX_REPEAT lo s :: K) (MState b a ms) = Some st' <->
  exists w r, a = w ++ r /\ all_in s w = true /\ (lo <= length w)%nat /\
              sre_match K (MState (rev w ++ b) r ms) = Some st'.
Proof.
  rewrite max_repeat_det. split.
  - destruct (sre_count s a <? lo)%nat eqn:Hlo; [discriminate|].
    apply Nat.ltb_ge in Hlo. intros H.
    exists (firstn (sre_count s a) a), (skipn (sre_count s a) a).
    repeat split; auto.
    + symmetry. apply firstn_skipn.
    + apply sre_count_firstn.
    + rewrite length_firstn.
      assert (sre_count s a <= length a)%nat.
      { clear. induction a as [|x a' IH]; simpl; [lia|].
        destruct (cset_mem x s); lia. }
      lia.
  - intros (w & r & -> & Hw & Hlen & Hk).
    assert (Hc : sre_count s (w ++ r) = length w).
    { apply sre_count_app; [assumption|].
      destruct r as [|c r]; [exact I|].
      destruct (cset_mem c s) eqn:Hc; [|reflexivity].
      rewrite (first_ok_sound K (MState (rev w ++ b) (c :: r) ms) c r
                 eq_refl (disjoint c Hc)) in Hk.
      discriminate. }
    rewrite Hc.
    destruct (length w <? lo)%nat eqn:Hlo; [apply Nat.ltb_lt in Hlo; lia|].
    rewrite firstn_app, Nat.sub_diag, firstn_all, firstn_O, app_nil_r.
    rewrite skipn_app, Nat.sub_diag, skipn_all. simpl. assumption.
Qed.
End Repeat.

Lemma literals_iff (l : text) (K : pattern) :
  forall b a ms st',
    sre_match (map LITERAL l ++ K) (MState b a ms) = Some st' <->
    exists r, a = l ++ r /\ sre_match K (MState (rev l ++ b) r ms) = Some st'.
Proof.
  induction l as [|c l IH]; intros b a ms st'; simpl.
  - split; [eauto|]. now intros (r & -> & H).
  - destruct a as [|c' a]; simpl.
    + split; [discriminate|]. intros (r & H & _). discriminate.
    + destruct (N.eqb_spec c' c) as [->|Hne].
      * unfold advance; simpl. rewrite IH. rewrite <- app_assoc. simpl.
        split; intros (r & Ha & H); exists r; split; congruence.
      * split; [discriminate|]. intros (r & Ha & _). congruence.
Qed.

Lemma literal_iff (c : char) (K : pattern) (b a : text) ms st' :
  sre_match (LITERAL c :: K) (MState b a ms) = Some st' <->
  exists r, a = c :: r /\ sre_match K (MState (c :: b) r ms) = Some st'.
Proof. apply (literals_iff [c] K). Qed.

Lemma in_iff (s : cset) (K : pattern) (b a : text) ms st' :
  sre_match (IN s :: K) (MState b a ms) = Some st' <->
  exists c r, a = c :: r /\ cset_mem c s = true /\
              sre_match K (MState (c :: b) r ms) = Some st'.
Proof.
  simpl. destruct a as [|c a]; simpl.
  - split; [discriminate|]. intros (c & r & H & _). discriminate.
  - destruct (cset_mem c s) eqn:Hc.
    + unfold advance; simpl. split; [eauto|].
      intros (c0 & r & Ha & _ & H). inversion Ha; subst. exact H.
    + split; [discriminate|]. intros (c0 & r & Ha & Hc0 & _). congruence.
Qed.

Lemma mark_eq (i : nat) (K : pattern) (b a : text) ms :
  sre_match (MARK i :: K) (MState b a ms) =
  sre_match K (MState b a ((i, length b) :: ms)).
Proof. reflexivity. Qed.

Lemma bol_eq (K : pattern) (b a : text) ms :
  sre_match (AT_BEGINNING_LINE :: K) (MState b a ms) =
  if at_bol b then sre_match K (MState b a ms) else None.
Proof. reflexivity. Qed.

Lemma space_not (c d : char) :
  isspace c = true -> isspace d = false -> (c =? d) = false.
Proof.
  intros Hc Hd. destruct (N.eqb_spec c d) as [->|]; [congruence|reflexivity].
Qed.

Lemma space_not_quote (c : char) : isspace c = true -> is_quote c = false.
Proof.
  intros Hc. unfold is_quote; simpl.
  rewrite (space_not c sq), (space_not c dq); auto.
Qed.

Lemma quote_free_not (v : text) (c : char) :
  quote_free v = true -> In c v -> is_quote c = false.
Proof.
  unfold quote_free, all_in. rewrite forallb_forall. intros H Hin.
  apply H in Hin. change (negb (is_quote c) = true) in Hin.
  now apply negb_true_iff in Hin.
Qed.

Lemma blank_quote_free (w : text) : blank w = true -> quote_free w = true.
Proof.
  unfold blank, quote_free, all_in. rewrite !forallb_forall.
  intros H c Hc. apply H in Hc. simpl in Hc. apply space_not_quote in Hc.
  change (negb (is_quote c) = true). now rewrite Hc.
Qed.

Lemma quote_free_app (u v : text) :
  quote_free (u ++ v) = quote_free u && quote_free v.
Proof. apply forallb_app. Qed.

(** ** The two patterns *)

Lemma assign_re_eq :
  assign_re = [MARK 0; AT_BEGINNING_LINE; MAX_REPEAT 0 CATEGORY_SPACE]
              ++ literal "version" ++ sep_tail 61.
Proof. reflexivity. Qed.

Lemma dict_re_eq :
  dict_re = [MARK 0; IN quotes] ++ literal "version"
            ++ [IN quotes] ++ sep_tail 58.
Proof. reflexivity. Qed.

Ltac marks_eq :=
  unfold value_marks; simpl; rewrite ?length_app, ?length_rev; simpl;
  match goal with
  | |- Some _ = Some _ => apply f_equal
  | _ => idtac
  end;
  apply (f_equal (MState _ _));
  repeat (apply f_equal2; [apply f_equal2; [reflexivity|lia]|]);
  reflexivity.

Lemma value_tail_iff (b a : text) ms st' :
  sre_match value_tail (MState b a ms) = Some st' <->
  exists q1 v q2 tl,
    a = q1 :: v ++ q2 :: tl /\
    is_quote q1 = true /\ quote_free v = true /\ v <> [] /\
    is_quote q2 = true /\
    st' = MState (q2 :: rev v ++ q1 :: b) tl
                 (value_marks (length b) (length v) ms).
Proof.
  assert (Hdisj : forall c, cset_mem c (NEGATE quotes) = true ->
            first_ok [MARK 5; MARK 6; IN quotes; MARK 7] c = false).
  { intros c Hc. simpl in *. now apply negb_true_iff in Hc. }
  unfold value_tail. rewrite !mark_eq. split.
  - intros H. apply in_iff in H as (q1 & r & -> & Hq1 & H).
    rewrite !mark_eq in H.
    apply (max_repeat_iff _ _ _ Hdisj) in H as (v & r' & -> & Hv & Hlen & H).
    rewrite !mark_eq in H.
    apply in_iff in H as (q2 & tl & -> & Hq2 & H).
    rewrite mark_eq in H. simpl in H. inversion H; subst; clear H.
    exists q1, v, q2, tl. repeat split; auto.
    + destruct v; [simpl in Hlen; lia|discriminate].
    + marks_eq.
  - intros (q1 & v & q2 & tl & -> & Hq1 & Hv & Hne & Hq2 & ->).
    apply in_iff. exists q1, (v ++ q2 :: tl). repeat split; auto.
    rewrite !mark_eq.
    apply (max_repeat_iff _ _ _ Hdisj). exists v, (q2 :: tl).
    repeat split; auto.
    { destruct v; [congruence|simpl; lia]. }
    rewrite !mark_eq. apply in_iff. exists q2, tl. repeat split; auto.
    rewrite mark_eq. simpl. marks_eq.
Qed.

Lemma value_tail_first (c : char) :
  isspace c = true -> first_ok value_tail c = false.
Proof. intros Hc. simpl. now apply space_not_quote in Hc. Qed.

Lemma sep_tail_iff (sep : char) (Hsep : isspace sep = false) (b a : text) ms st' :
  sre_match (sep_tail sep) (MState b a ms) = Some st' <->
  exists w1 w2 r,
    a = w1 ++ sep :: w2 ++ r /\ blank w1 = true /\ blank w2 = true /\
    sre_match value_tail (MState (rev (w1 ++ sep :: w2) ++ b) r ms) = Some st'.
Proof.
  assert (H1 : forall c, cset_mem c CATEGORY_SPACE = true ->
            first_ok (LITERAL sep :: MAX_REPEAT 0 CATEGORY_SPACE :: value_tail) c
            = false).
  { intros c Hc. simpl in *. now apply space_not. }
  assert (H2 : forall c, cset_mem c CATEGORY_SPACE = true ->
            first_ok value_tail c = false).
  { intros c Hc. now apply value_tail_first. }
  assert (Hrev : forall w1 w2 : text,
            rev (w1 ++ sep :: w2) ++ b = rev w2 ++ sep :: rev w1 ++ b).
  { intros w1 w2. rewrite rev_app_distr. simpl. now rewrite <- !app_assoc. }
  unfold sep_tail. simpl app. split.
  - intros H.
    apply (max_repeat_iff _ _ _ H1) in H as (w1 & r1 & -> & Hw1 & _ & H).
    apply literal_iff in H as (r2 & -> & H).
    apply (max_repeat_iff _ _ _ H2) in H as (w2 & r & -> & Hw2 & _ & H).
    exists w1, w2, r. rewrite Hrev. repeat split; auto.
  - intros (w1 & w2 & r & -> & Hw1 & Hw2 & H). rewrite Hrev in H.
    apply (max_repeat_iff _ _ _ H1). exists w1, (sep :: w2 ++ r).
    repeat split; auto; [lia|].
    apply literal_iff. exists (w2 ++ r). split; [reflexivity|].
    apply (max_repeat_iff _ _ _ H2). exists w2, r.
    repeat split; auto. lia.
Qed.

Lemma decl_of_value_tail (Hd : text -> Prop) (b h r : text) st' :
  Hd h ->
  sre_match value_tail (MState (rev h ++ b) r [(0%nat, length b)]) = Some st' ->
  decl Hd b (h ++ r) st'.
Proof.
  intros Hh H.
  apply value_tail_iff in H as (q1 & v & q2 & tl & -> & Hq1 & Hv & Hne & Hq2 & ->).
  exists h, q1, v, q2, tl. repeat split; auto.
  unfold decl_state. rewrite length_app, length_rev.
  now rewrite (Nat.add_comm (length h)).
Qed.

Lemma value_tail_of_decl (h : text) (q1 : char) (v : text) (q2 : char)
  (tl b : text) :
  is_quote q1 = true -> quote_free v = true -> v <> [] -> is_quote q2 = true ->
  sre_match value_tail
    (MState (rev h ++ b) (q1 :: v ++ q2 :: tl) [(0%nat, length b)])
  = Some (decl_state b h q1 v q2 tl).
Proof.
  intros Hq1 Hv Hne Hq2. apply value_tail_iff.
  exists q1, v, q2, tl. repeat split; auto.
  unfold decl_state. rewrite length_app, length_rev.
  now rewrite (Nat.add_comm (length h)).
Qed.

Lemma rev_hdr (w0 word x b : text) :
  rev x ++ rev word ++ rev w0 ++ b = rev (w0 ++ word ++ x) ++ b.
Proof. now rewrite !rev_app_distr, <- !app_assoc. Qed.

Lemma app_hdr (w0 word w1 : text) (sep : char) (w2 r : text) :
  w0 ++ word ++ w1 ++ sep :: w2 ++ r = (w0 ++ word ++ w1 ++ sep :: w2) ++ r.
Proof. now rewrite <- !app_assoc. Qed.

Lemma assign_match_iff (b a : text) (st' : mstate) :
  match_at assign_re b a = Some st' <->
  at_bol b = true /\ decl is_assign_hdr b a st'.
Proof.
  assert (H0 : forall c, cset_mem c CATEGORY_SPACE = true ->
            first_ok (literal "version" ++ sep_tail 61) c = false).
  { intros c Hc. simpl in *. now apply space_not. }
  unfold match_at. rewrite assign_re_eq. simpl app at 1.
  rewrite mark_eq, bol_eq. split.
  - destruct (at_bol b); [|discriminate]. intros H. split; [reflexivity|].
    apply (max_repeat_iff _ _ _ H0) in H as (w0 & r0 & -> & Hw0 & _ & H).
    apply literals_iff in H as (r1 & -> & H).
    apply sep_tail_iff in H as (w1 & w2 & r & -> & Hw1 & Hw2 & H);
      [|reflexivity].
    rewrite rev_hdr in H. rewrite app_hdr.
    apply decl_of_value_tail; [|exact H].
    exists w0, w1, w2. auto.
  - intros (Hb & h & q1 & v & q2 & tl & -> & (w0 & w1 & w2 & -> & Hw0 & Hw1 & Hw2)
            & Hq1 & Hv & Hne & Hq2 & ->).
    rewrite Hb.
    apply (max_repeat_iff _ _ _ H0).
    exists w0, (str "version" ++ w1 ++ 61 :: w2 ++ q1 :: v ++ q2 :: tl).
    repeat split; auto; [|lia|].
    { now rewrite <- app_hdr. }
    apply literals_iff. eexists. split; [reflexivity|].
    apply sep_tail_iff; [reflexivity|].
    exists w1, w2, (q1 :: v ++ q2 :: tl). repeat split; auto.
    rewrite rev_hdr. now apply value_tail_of_decl.
Qed.

Lemma rev_dict_hdr (k1 k2 : char) (word x b : text) :
  rev x ++ k2 :: rev word ++ k1 :: b = rev (k1 :: word ++ k2 :: x) ++ b.
Proof.
  simpl. rewrite rev_app_distr. simpl. now rewrite <- !app_assoc.
Qed.

Lemma app_dict_hdr (k1 k2 sep : char) (word w1 w2 r : text) :
  (k1 :: word ++ k2 :: w1 ++ sep :: w2) ++ r
  = k1 :: word ++ k2 :: w1 ++ sep :: w2 ++ r.
Proof.
  simpl. f_equal. rewrite <- app_assoc. simpl. do 2 f_equal.
  now rewrite <- app_assoc.
Qed.

Lemma dict_match_iff (b a : text) (st' : mstate) :
  match_at dict_re b a = Some st' <-> decl is_dict_hdr b a st'.
Proof.
  unfold match_at. rewrite dict_re_eq. simpl app at 1.
  rewrite mark_eq. split.
  - intros H.
    apply in_iff in H as (k1 & r0 & -> & Hk1 & H).
    apply (literals_iff (str "version") (IN quotes :: sep_tail 58)) in H
      as (r1 & -> & H).
    apply in_iff in H as (k2 & r2 & -> & Hk2 & H).
    apply sep_tail_iff in H as (w1 & w2 & r & -> & Hw1 & Hw2 & H);
      [|reflexivity].
    rewrite rev_dict_hdr in H.
    rewrite <- app_dict_hdr.
    apply decl_of_value_tail; [|exact H].
    exists k1, k2, w1, w2. auto.
  - intros (h & q1 & v & q2 & tl & -> & (k1 & k2 & w1 & w2 & -> & Hk1 & Hk2 & Hw1 & Hw2)
            & Hq1 & Hv & Hne & Hq2 & ->).
    apply in_iff.
    exists k1, (str "version" ++ k2 :: w1 ++ 58 :: w2 ++ q1 :: v ++ q2 :: tl).
    repeat split; auto.
    { now rewrite app_dict_hdr. }
    apply (literals_iff (str "version") (IN quotes :: sep_tail 58)).
    eexists. split; [reflexivity|].
    apply in_iff. eexists _, _. repeat split; auto.
    apply sep_tail_iff; [reflexivity|].
    exists w1, w2, (q1 :: v ++ q2 :: tl). repeat split; auto.
    rewrite rev_dict_hdr. now apply value_tail_of_decl.
Qed.

(** ** Searching *)

Lemma rev_cons_app (c : char) (s b : text) : rev (c :: s) ++ b = rev s ++ c :: b.
Proof. simpl. now rewrite <- app_assoc. Qed.

Section Search.
Variables (pat : pattern) (txt : text).

Lemma search_from_some :
  forall a b m,
    search_from pat txt b a = Some m ->
    exists s1 s2 st,
      a = s1 ++ s2 /\
      match_at pat (rev s1 ++ b) s2 = Some st /\
      (forall u1 u2, s1 = u1 ++ u2 -> u2 <> [] ->
                     match_at pat (rev u1 ++ b) (u2 ++ s2) = None) /\
      m = found_at txt (rev s1 ++ b) st.
Proof.
  induction a as [|c a IH]; intros b m; simpl.
  - destruct (match_at pat b []) as [st|] eqn:Hm; [|discriminate].
    intros H; inversion H; subst. exists [], [], st. repeat split; auto.
    intros u1 u2 Hu Hne. destruct u1, u2; try discriminate. congruence.
  - destruct (match_at pat b (c :: a)) as [st|] eqn:Hm.
    + intros H; inversion H; subst. exists [], (c :: a), st.
      repeat split; auto.
      intros u1 u2 Hu Hne. destruct u1, u2; try discriminate. congruence.
    + intros H. apply IH in H as (s1 & s2 & st & -> & Hs & Hearly & ->).
      exists (c :: s1), s2, st. rewrite rev_cons_app.
      repeat split; auto.
      intros u1 u2 Hu Hne. destruct u1 as [|c' u1]; simpl in Hu.
      * subst u2. simpl. exact Hm.
      * inversion Hu; subst. rewrite rev_cons_app. now apply Hearly.
Qed.

Lemma search_from_none :
  forall a b,
    search_from pat txt b a = None <->
    (forall s1 s2, a = s1 ++ s2 -> match_at pat (rev s1 ++ b) s2 = None).
Proof.
  induction a as [|c a IH]; intros b; simpl.
  - destruct (match_at pat b []) as [st|] eqn:Hm.
    + split; [discriminate|]. intros H. specialize (H [] [] eq_refl).
      simpl in H. congruence.
    + split; [|reflexivity]. intros _ s1 s2 Hs.
      destruct s1, s2; try discriminate. exact Hm.
  - destruct (match_at pat b (c :: a)) as [st|] eqn:Hm.
    + split; [discriminate|]. intros H. specialize (H [] (c :: a) eq_refl).
      simpl in H. congruence.
    + rewrite IH. split.
      * intros H s1 s2 Hs. destruct s1 as [|c' s1]; simpl in Hs.
        -- subst s2. exact Hm.
        -- inversion Hs; subst. rewrite rev_cons_app. now apply H.
      * intros H s1 s2 Hs. rewrite <- rev_cons_app. apply H. now subst.
Qed.

Lemma search_from_intro :
  forall s1 s2 b st,
    match_at pat (rev s1 ++ b) s2 = Some st ->
    (forall u1 u2, s1 = u1 ++ u2 -> u2 <> [] ->
                   match_at pat (rev u1 ++ b) (u2 ++ s2) = None) ->
    search_from pat txt b (s1 ++ s2) = Some (found_at txt (rev s1 ++ b) st).
Proof.
  induction s1 as [|c s1 IH]; intros s2 b st Hm Hearly.
  - simpl in *. destruct s2; simpl; rewrite Hm; reflexivity.
  - rewrite rev_cons_app in Hm |- *.
    assert (H0 := Hearly [] (c :: s1) eq_refl ltac:(discriminate)).
    simpl in H0. simpl app. simpl search_from. rewrite H0.
    apply IH; [assumption|].
    intros u1 u2 Hu Hne. rewrite <- rev_cons_app.
    apply Hearly; [now subst|assumption].
Qed.
End Search.

(** ** Declarations found by a search *)

Lemma slice_mid (x y z : text) (i j : nat) :
  i = length x -> j = (length x + length y)%nat ->
  slice (x ++ y ++ z) i j = y.
Proof.
  intros -> ->. unfold slice.
  rewrite app_assoc, firstn_app.
  replace (length x + length y - length (x ++ y))%nat with 0%nat
    by (rewrite length_app; lia).
  rewrite firstn_O, app_nil_r.
  rewrite firstn_all2 by (rewrite length_app; lia).
  rewrite skipn_app, Nat.sub_diag, skipn_all. reflexivity.
Qed.

Lemma found_at_decl (txt s1 h : text) (q1 : char) (v : text) (q2 : char)
  (tl : text) :
  found_at txt (rev s1 ++ []) (decl_state (rev s1 ++ []) h q1 v q2 tl)
  = decl_match txt s1 h v.
Proof.
  unfold found_at, decl_match, decl_state, cursor. simpl.
  rewrite ?app_nil_r, ?length_app, ?length_rev. simpl.
  rewrite ?length_app, ?length_rev. simpl.
  apply (f_equal (fun e => MkMatch txt (length s1) e _)). lia.
Qed.

Lemma firstn_length_app (x y : text) (n : nat) :
  n = length x -> firstn n (x ++ y) = x.
Proof.
  intros ->. rewrite firstn_app, Nat.sub_diag, firstn_all. simpl.
  apply app_nil_r.
Qed.

Lemma skipn_length_app (x y : text) (n : nat) :
  n = length x -> skipn n (x ++ y) = y.
Proof. intros ->. now rewrite skipn_app, Nat.sub_diag, skipn_all. Qed.

Section Groups.
Variables (s1 h : text) (q1 : char) (v : text) (q2 : char) (tl : text).

Let txt : text := s1 ++ h ++ q1 :: v ++ q2 :: tl.
Let m : Match := decl_match txt s1 h v.

Ltac lengths := rewrite ?length_app; simpl; lia.

Lemma group1_decl : group m 1 = h.
Proof.
  unfold group, group_start, group_end; simpl.
  apply slice_mid; reflexivity.
Qed.

Lemma group2_decl : group m 2 = [q1].
Proof.
  unfold group, group_start, group_end; simpl.
  replace txt with ((s1 ++ h) ++ [q1] ++ v ++ q2 :: tl)
    by (unfold txt; now rewrite <- !app_assoc).
  apply slice_mid; lengths.
Qed.

Lemma group3_decl : group m 3 = v.
Proof.
  unfold group, group_start, group_end; simpl.
  replace txt with ((s1 ++ h ++ [q1]) ++ v ++ q2 :: tl)
    by (unfold txt; now rewrite <- !app_assoc).
  apply slice_mid; lengths.
Qed.

Lemma group4_decl : group m 4 = [q2].
Proof.
  unfold group, group_start, group_end; simpl.
  replace txt with ((s1 ++ h ++ [q1] ++ v) ++ [q2] ++ tl)
    by (unfold txt; now rewrite <- !app_assoc).
  apply slice_mid; lengths.
Qed.

Lemma group3_span :
  group_start m 3 = (length s1 + length h + 1)%nat /\
  group_end m 3 = (length s1 + length h + length v + 1)%nat.
Proof. unfold group_start, group_end; simpl. lia. Qed.

Lemma start_decl : firstn (m_start m) txt = s1.
Proof. now apply firstn_length_app. Qed.

Lemma end_decl : skipn (m_end m) txt = tl.
Proof.
  replace txt with ((s1 ++ h ++ [q1] ++ v ++ [q2]) ++ tl)
    by (unfold txt; now rewrite <- !app_assoc).
  apply skipn_length_app. unfold m, decl_match, m_end. lengths.
Qed.

Lemma repl_decl (new_version : text) :
  firstn (m_start m) txt ++ _repl new_version m ++ skipn (m_end m) txt
  = s1 ++ h ++ q1 :: new_version ++ q2 :: tl.
Proof.
  rewrite start_decl, end_decl. unfold _repl.
  rewrite group1_decl, group2_decl, group4_decl.
  now rewrite <- !app_assoc.
Qed.

Lemma value_segment (new_version : text) :
  s1 ++ h ++ q1 :: new_version ++ q2 :: tl
  = firstn (group_start m 3) txt ++ new_version
    ++ skipn (group_end m 3) txt.
Proof.
  destruct group3_span as [-> ->].
  replace (firstn (length s1 + length h + 1) txt) with (s1 ++ h ++ [q1]).
  2:{ replace txt with ((s1 ++ h ++ [q1]) ++ v ++ q2 :: tl)
        by (unfold txt; now rewrite <- !app_assoc).
      symmetry. apply firstn_length_app. lengths. }
  replace (skipn (length s1 + length h + length v + 1) txt) with (q2 :: tl).
  2:{ replace txt with ((s1 ++ h ++ [q1] ++ v) ++ q2 :: tl)
        by (unfold txt; now rewrite <- !app_assoc).
      symmetry. apply skipn_length_app. lengths. }
  now rewrite <- !app_assoc.
Qed.
End Groups.

Section DeclPattern.
Variables (P : pattern) (Pre : text -> Prop) (Hd : text -> Prop).
Hypothesis P_iff : forall b a st',
    match_at P b a = Some st' <-> Pre b /\ decl Hd b a st'.

Lemma search_decl (txt : text) (m : Match) :
  search P txt = Some m ->
  exists s1 h q1 v q2 tl,
    txt = s1 ++ h ++ q1 :: v ++ q2 :: tl /\
    Pre (rev s1) /\ Hd h /\
    is_quote q1 = true /\ quote_free v = true /\ v <> [] /\
    is_quote q2 = true /\
    m = decl_match txt s1 h v /\
    (forall u1 u2, s1 = u1 ++ u2 -> u2 <> [] ->
       match_at P (rev u1) (u2 ++ h ++ q1 :: v ++ q2 :: tl) = None).
Proof.
  intros H. apply search_from_some in H as (s1 & s2 & st & Ht & Hm & He & ->).
  apply P_iff in Hm as (Hpre & h & q1 & v & q2 & tl & -> & Hh & Hq1 & Hv & Hne & Hq2 & ->).
  exists s1, h, q1, v, q2, tl. rewrite app_nil_r in Hpre.
  repeat split; auto.
  - apply found_at_decl.
  - intros u1 u2 Hu Hn. specialize (He u1 u2 Hu Hn).
    now rewrite app_nil_r in He.
Qed.

Lemma decl_search (s1 h : text) (q1 : char) (v : text) (q2 : char) (tl : text) :
  Pre (rev s1) -> Hd h ->
  is_quote q1 = true -> quote_free v = true -> v <> [] ->
  is_quote q2 = true ->
  (forall u1 u2, s1 = u1 ++ u2 -> u2 <> [] ->
     match_at P (rev u1) (u2 ++ h ++ q1 :: v ++ q2 :: tl) = None) ->
  search P (s1 ++ h ++ q1 :: v ++ q2 :: tl)
  = Some (decl_match (s1 ++ h ++ q1 :: v ++ q2 :: tl) s1 h v).
Proof.
  intros Hpre Hh Hq1 Hv Hne Hq2 He. unfold search.
  rewrite <- (found_at_decl _ s1 h q1 v q2 tl).
  apply search_from_intro.
  - apply P_iff. rewrite app_nil_r. split; [assumption|].
    exists h, q1, v, q2, tl. repeat split; auto.
  - intros u1 u2 Hu Hn. rewrite app_nil_r. now apply He.
Qed.

Lemma search_none (txt : text) :
  search P txt = None <->
  (forall s1 s2, txt = s1 ++ s2 -> match_at P (rev s1) s2 = None).
Proof.
  unfold search. rewrite search_from_none.
  split; intros H s1 s2 Hs; specialize (H s1 s2 Hs);
    now rewrite app_nil_r in *.
Qed.

Lemma sub1_decl (txt new_version : text) (m : Match) :
  search P txt = Some m ->
  sub1 P (_repl new_version) txt
  = firstn (group_start m 3) txt ++ new_version
    ++ skipn (group_end m 3) txt.
Proof.
  intros H. unfold sub1. rewrite H.
  apply search_decl in H
    as (s1 & h & q1 & v & q2 & tl & -> & _ & _ & _ & _ & _ & _ & -> & _).
  rewrite repl_decl. apply value_segment.
Qed.
End DeclPattern.

(** ** Texts cut at their quotes

    Whether a pattern matches at a position depends only on the segments
    between the first quotes of the text that follows ([qsplit]). *)

Lemma qsplit_nonnil (a : text) : qsplit a <> [].
Proof.
  destruct a as [|c r]; simpl; [discriminate|].
  destruct (is_quote c); [discriminate|]. destruct (qsplit r); discriminate.
Qed.

Lemma qsplit_app_quote (X : text) (q : char) (R : text) :
  is_quote q = true -> qsplit (X ++ q :: R) = qsplit X ++ qsplit R.
Proof.
  intros Hq. induction X as [|c X IH]; simpl.
  - now rewrite Hq.
  - destruct (is_quote c); [now rewrite IH|].
    rewrite IH. destruct (qsplit X) eqn:HX; [|reflexivity].
    now apply qsplit_nonnil in HX.
Qed.

Lemma qsplit_free (u : text) : quote_free u = true -> qsplit u = [u].
Proof.
  induction u as [|c u IH]; simpl; [reflexivity|].
  intros H. apply andb_true_iff in H as [Hc Hu].
  change (negb (is_quote c) = true) in Hc. apply negb_true_iff in Hc.
  rewrite Hc, (IH Hu). reflexivity.
Qed.

Lemma qsplit_free_quote (u : text) (q : char) (R : text) :
  quote_free u = true -> is_quote q = true ->
  qsplit (u ++ q :: R) = u :: qsplit R.
Proof.
  intros Hu Hq. now rewrite qsplit_app_quote, (qsplit_free u Hu).
Qed.

Lemma qsplit_inv (a : text) :
  forall u rest,
    qsplit a = u :: rest -> rest <> [] ->
    exists q r, a = u ++ q :: r /\ quote_free u = true /\
                is_quote q = true /\ qsplit r = rest.
Proof.
  induction a as [|c a IH]; simpl; intros u rest H Hne.
  - inversion H; subst. now contradiction Hne.
  - destruct (is_quote c) eqn:Hc.
    + inversion H; subst. exists c, a. auto.
    + destruct (qsplit a) as [|u' us] eqn:Ha.
      * inversion H; subst. now contradiction Hne.
      * inversion H; subst.
        destruct (IH u' rest eq_refl Hne) as (q & r & -> & Hu & Hq & Hr).
        exists q, r. repeat split; auto.
        simpl. change (negb (is_quote c) && quote_free u' = true).
        now rewrite Hc, Hu.
Qed.

Lemma qsplit_decl (X : text) (q1 : char) (v : text) (q2 : char) (tl : text) :
  is_quote q1 = true -> quote_free v = true -> is_quote q2 = true ->
  qsplit (X ++ q1 :: v ++ q2 :: tl) = qsplit X ++ v :: qsplit tl.
Proof.
  intros Hq1 Hv Hq2.
  now rewrite qsplit_app_quote, qsplit_free_quote.
Qed.

Lemma is_sep_quote_free (sep : char) (m : text) :
  is_quote sep = false -> is_sep sep m -> quote_free m = true.
Proof.
  intros Hs (w1 & w2 & -> & H1 & H2).
  rewrite quote_free_app, (blank_quote_free _ H1). simpl.
  change (negb (is_quote sep) && quote_free w2 = true).
  now rewrite Hs, (blank_quote_free _ H2).
Qed.

Lemma assign_hdr_quote_free (h : text) :
  is_assign_hdr h -> quote_free h = true.
Proof.
  intros (w0 & w1 & w2 & -> & H0 & H1 & H2).
  rewrite !quote_free_app, (blank_quote_free _ H0), (blank_quote_free _ H1).
  simpl. change (negb (is_quote 61) && quote_free w2 = true).
  now rewrite (blank_quote_free _ H2).
Qed.

Lemma not_matches (P : pattern) (b a : text) :
  match_at P b a = None <-> ~ matches P b a.
Proof.
  unfold matches. destruct (match_at P b a) as [st|].
  - split; [discriminate|]. intros H. exfalso. apply H. eauto.
  - split; [|reflexivity]. intros _ (st' & H). discriminate.
Qed.

Lemma assign_matches (b a : text) :
  matches assign_re b a <->
  at_bol b = true /\
  exists h v rest,
    qsplit a = h :: v :: rest /\ rest <> [] /\ is_assign_hdr h /\ v <> [].
Proof.
  unfold matches. split.
  - intros (st' & H). apply assign_match_iff in H
      as (Hb & h & q1 & v & q2 & tl & -> & Hh & Hq1 & Hv & Hne & Hq2 & _).
    split; [assumption|]. exists h, v, (qsplit tl).
    repeat split; auto; [|apply qsplit_nonnil].
    now rewrite !qsplit_free_quote by auto using assign_hdr_quote_free.
  - intros (Hb & h & v & rest & Hq & Hrest & Hh & Hne).
    apply qsplit_inv in Hq as (q1 & r & -> & _ & Hq1 & Hq); [|discriminate].
    apply qsplit_inv in Hq as (q2 & tl & -> & Hv & Hq2 & _); [|assumption].
    exists (decl_state b h q1 v q2 tl). apply assign_match_iff.
    split; [assumption|]. exists h, q1, v, q2, tl. repeat split; auto.
Qed.

Lemma dict_matches (b a : text) :
  matches dict_re b a <->
  exists m v rest,
    qsplit a = [] :: str "version" :: m :: v :: rest /\ rest <> [] /\
    is_sep 58 m /\ v <> [].
Proof.
  unfold matches. split.
  - intros (st' & H). apply dict_match_iff in H
      as (h & q1 & v & q2 & tl & ->
          & (k1 & k2 & w1 & w2 & -> & Hk1 & Hk2 & Hw1 & Hw2)
          & Hq1 & Hv & Hne & Hq2 & _).
    exists (w1 ++ 58 :: w2), v, (qsplit tl).
    assert (Hs : is_sep 58 (w1 ++ 58 :: w2)) by (exists w1, w2; auto).
    repeat split; auto; [|apply qsplit_nonnil].
    rewrite qsplit_decl by assumption.
    change (k1 :: str "version" ++ k2 :: w1 ++ 58 :: w2)
      with ([] ++ k1 :: str "version" ++ k2 :: w1 ++ 58 :: w2).
    rewrite !qsplit_free_quote by (auto; reflexivity).
    rewrite qsplit_free by now apply (is_sep_quote_free 58).
    reflexivity.
  - intros (m & v & rest & Hq & Hrest & (w1 & w2 & -> & Hw1 & Hw2) & Hne).
    apply qsplit_inv in Hq as (k1 & r1 & -> & _ & Hk1 & Hq); [|discriminate].
    apply qsplit_inv in Hq as (k2 & r2 & -> & _ & Hk2 & Hq); [|discriminate].
    apply qsplit_inv in Hq as (q1 & r3 & -> & _ & Hq1 & Hq); [|discriminate].
    apply qsplit_inv in Hq as (q2 & tl & -> & Hv & Hq2 & _); [|assumption].
    exists (decl_state b (k1 :: str "version" ++ k2 :: w1 ++ 58 :: w2)
                       q1 v q2 tl).
    apply dict_match_iff.
    exists (k1 :: str "version" ++ k2 :: w1 ++ 58 :: w2), q1, v, q2, tl.
    repeat split; auto.
    exists k1, k2, w1, w2. auto.
Qed.

(** ** Replacing the value keeps the declaration where it is *)

Lemma assign_swap (b X : text) (q1 : char) (v v' : text) (q2 : char) (tl : text) :
  is_quote q1 = true -> is_quote q2 = true ->
  quote_free v = true -> v <> [] -> quote_free v' = true -> v' <> [] ->
  matches assign_re b (X ++ q1 :: v ++ q2 :: tl) ->
  matches assign_re b (X ++ q1 :: v' ++ q2 :: tl).
Proof.
  intros Hq1 Hq2 Hv Hne Hv' Hne'. rewrite !assign_matches.
  rewrite !qsplit_decl by assumption.
  intros (Hb & h & v0 & rest & Hq & Hrest & Hh & Hv0). split; [assumption|].
  destruct (qsplit X) as [|x0 [|x1 xs]] eqn:HX.
  - now apply qsplit_nonnil in HX.
  - simpl in *. inversion Hq; subst. exists h, v', (qsplit tl). auto.
  - simpl in *. inversion Hq; subst. exists h, v0, (xs ++ v' :: qsplit tl).
    repeat split; auto. now destruct xs.
Qed.

Lemma dict_swap (b X : text) (q1 : char) (v v' : text) (q2 : char) (tl : text) :
  (3 <= length (qsplit X))%nat ->
  is_quote q1 = true -> is_quote q2 = true ->
  quote_free v = true -> v <> [] -> quote_free v' = true -> v' <> [] ->
  matches dict_re b (X ++ q1 :: v ++ q2 :: tl) ->
  matches dict_re b (X ++ q1 :: v' ++ q2 :: tl).
Proof.
  intros Hlen Hq1 Hq2 Hv Hne Hv' Hne'. rewrite !dict_matches.
  rewrite !qsplit_decl by assumption.
  intros (m & v0 & rest & Hq & Hrest & Hm & Hv0).
  destruct (qsplit X) as [|x0 [|x1 [|x2 [|x3 xs]]]] eqn:HX;
    simpl in Hlen; try lia.
  - simpl in *. inversion Hq; subst. exists m, v', (qsplit tl). auto.
  - simpl in *. inversion Hq; subst. exists m, v0, (xs ++ v' :: qsplit tl).
    repeat split; auto. now destruct xs.
Qed.

Lemma dict_hdr_segments (X h : text) :
  is_dict_hdr h -> (3 <= length (qsplit (X ++ h)))%nat.
Proof.
  intros (k1 & k2 & w1 & w2 & -> & Hk1 & Hk2 & Hw1 & Hw2).
  rewrite qsplit_app_quote by assumption.
  rewrite qsplit_free_quote by (auto; reflexivity).
  rewrite (qsplit_free (w1 ++ 58 :: w2))
    by (apply (is_sep_quote_free 58); [reflexivity|exists w1, w2; auto]).
  rewrite length_app. simpl.
  pose proof (qsplit_nonnil X). destruct (qsplit X); [congruence|simpl; lia].
Qed.

Section Rewritten.
Variables (P : pattern) (Pre : text -> Prop) (Hd : text -> Prop).
Hypothesis P_iff : forall b a st',
    match_at P b a = Some st' <-> Pre b /\ decl Hd b a st'.
Hypothesis P_swap : forall b X h q1 v v' q2 tl,
    Hd h -> is_quote q1 = true -> is_quote q2 = true ->
    quote_free v = true -> v <> [] -> quote_free v' = true -> v' <> [] ->
    matches P b (X ++ h ++ q1 :: v ++ q2 :: tl) ->
    matches P b (X ++ h ++ q1 :: v' ++ q2 :: tl).

(** After the value of the first declaration has been replaced by a
    non-empty text without quotes, the search finds that declaration
    again, now with the new value. *)
Lemma search_rewritten (txt new_version : text) (m : Match) :
  search P txt = Some m ->
  new_version <> [] -> quote_free new_version = true ->
  exists m',
    search P (sub1 P (_repl new_version) txt) = Some m' /\
    group m' 3 = new_version.
Proof.
  intros H Hne Hqf. unfold sub1. rewrite H.
  apply (search_decl P Pre Hd P_iff) in H
    as (s1 & h & q1 & v & q2 & tl & -> & Hpre & Hh & Hq1 & Hv & Hnv & Hq2
        & -> & Hearly).
  rewrite repl_decl. eexists. split.
  - apply (decl_search P Pre Hd P_iff); auto.
    intros u1 u2 Hu Hn. apply not_matches. intros Hm.
    specialize (Hearly u1 u2 Hu Hn). apply not_matches in Hearly.
    apply Hearly. revert Hm. apply P_swap; auto.
  - apply group3_decl.
Qed.
End Rewritten.

Lemma assign_search_rewritten (txt new_version : text) (m : Match) :
  search assign_re txt = Some m ->
  new_version <> [] -> quote_free new_version = true ->
  exists m',
    search assign_re (sub1 assign_re (_repl new_version) txt) = Some m' /\
    group m' 3 = new_version.
Proof.
  apply (search_rewritten assign_re (fun b => at_bol b = true) is_assign_hdr).
  - apply assign_match_iff.
  - intros b X h q1 v v' q2 tl _. rewrite !app_assoc. apply assign_swap.
Qed.

Lemma dict_search_rewritten (txt new_version : text) (m : Match) :
  search dict_re txt = Some m ->
  new_version <> [] -> quote_free new_version = true ->
  exists m',
    search dict_re (sub1 dict_re (_repl new_version) txt) = Some m' /\
    group m' 3 = new_version.
Proof.
  apply (search_rewritten dict_re (fun _ => True) is_dict_hdr).
  - intros b a st'. rewrite dict_match_iff. tauto.
  - intros b X h q1 v v' q2 tl Hh. rewrite !app_assoc. apply dict_swap.
    now apply dict_hdr_segments.
Qed.

Lemma at_bol_rev_app (x y : text) :
  y <> [] -> at_bol (rev (x ++ y)) = at_bol (rev y).
Proof.
  intros Hy. rewrite rev_app_distr.
  destruct (rev y) as [|c r] eqn:Hr; [|reflexivity].
  apply (f_equal (@rev char)) in Hr. rewrite rev_involutive in Hr.
  simpl in Hr. contradiction.
Qed.

Lemma at_bol_rev_false (y : text) :
  y <> [] -> (forall c, In c y -> c <> newline) -> at_bol (rev y) = false.
Proof.
  intros Hy Hall. destruct (rev y) as [|c r] eqn:Hr.
  - apply (f_equal (@rev char)) in Hr. rewrite rev_involutive in Hr.
    simpl in Hr. contradiction.
  - simpl. apply N.eqb_neq. apply Hall. apply in_rev. rewrite Hr. now left.
Qed.

Lemma has_newline_false (v : text) (c : char) :
  has_newline v = false -> In c v -> c <> newline.
Proof.
  unfold has_newline. intros H Hin ->.
  assert (existsb (N.eqb newline) v = true); [|congruence].
  apply existsb_exists. exists newline. now rewrite N.eqb_refl.
Qed.

Lemma quote_not_newline (q : char) : is_quote q = true -> q <> newline.
Proof. intros H ->. discriminate. Qed.

Lemma assign_bol_only (b b' a : text) :
  at_bol b = at_bol b' -> matches assign_re b' a -> matches assign_re b a.
Proof. rewrite !assign_matches. intros ->. auto. Qed.

Lemma assign_needs_bol (b a : text) :
  at_bol b = false -> match_at assign_re b a = None.
Proof.
  intros Hb. apply not_matches. rewrite assign_matches. intros [H _].
  congruence.
Qed.

(** If pattern 1 matches nowhere, it still matches nowhere after the value
    of a quoted text has been replaced by a non-empty text without quotes
    and newlines. *)
Lemma assign_none_rewritten (Y : text) (q1 : char) (v nv : text) (q2 : char)
  (tl : text) :
  is_quote q1 = true -> is_quote q2 = true ->
  quote_free v = true -> v <> [] ->
  quote_free nv = true -> nv <> [] -> has_newline nv = false ->
  search assign_re (Y ++ q1 :: v ++ q2 :: tl) = None ->
  search assign_re (Y ++ q1 :: nv ++ q2 :: tl) = None.
Proof.
  intros Hq1 Hq2 Hv Hne Hnv Hnne Hnl Hold.
  rewrite search_none in *. intros s1 s2 Heq.
  assert (Hin : forall l, (exists l2, nv = l ++ l2) ->
            at_bol (rev (Y ++ q1 :: l)) = false).
  { intros l (l2 & Hl). rewrite at_bol_rev_app by discriminate.
    apply at_bol_rev_false; [discriminate|].
    intros c [<-|Hc]; [now apply quote_not_newline|].
    apply (has_newline_false nv); [assumption|].
    rewrite Hl. apply in_or_app. now left. }
  apply app_eq_app in Heq as (l & [[-> ->]|[-> Hl]]).
  - apply not_matches. intros Hm.
    specialize (Hold s1 (l ++ q1 :: v ++ q2 :: tl)).
    rewrite <- app_assoc in Hold. specialize (Hold eq_refl).
    apply not_matches in Hold. apply Hold. revert Hm.
    now apply assign_swap.
  - destruct l as [|c l]; simpl in Hl.
    + subst s2. apply not_matches. intros Hm.
      specialize (Hold (Y ++ []) (q1 :: v ++ q2 :: tl)).
      rewrite <- app_assoc in Hold. specialize (Hold eq_refl).
      apply not_matches in Hold. apply Hold. revert Hm.
      now apply (assign_swap _ []).
    + inversion Hl; subst c; clear Hl.
      match goal with H : nv ++ q2 :: tl = l ++ s2 |- _ =>
        apply app_eq_app in H as (l2 & [[-> ->]|[-> Hl]]) end.
      * apply assign_needs_bol. apply Hin. eauto.
      * destruct l2 as [|c l3]; simpl in Hl.
        -- subst s2. apply assign_needs_bol. rewrite app_nil_r.
           apply Hin. exists []. now rewrite app_nil_r.
        -- inversion Hl; subst c tl; clear Hl.
           apply not_matches. intros Hm.
           specialize (Hold (Y ++ q1 :: v ++ q2 :: l3) s2).
           rewrite <- !app_assoc in Hold. simpl in Hold.
           rewrite <- !app_assoc in Hold. specialize (Hold eq_refl).
           apply not_matches in Hold. apply Hold. revert Hm.
           apply assign_bol_only.
           replace (Y ++ q1 :: v ++ q2 :: l3)
             with ((Y ++ q1 :: v) ++ q2 :: l3)
             by (now rewrite <- app_assoc).
           replace (Y ++ q1 :: nv ++ q2 :: l3)
             with ((Y ++ q1 :: nv) ++ q2 :: l3)
             by (now rewrite <- app_assoc).
           rewrite !at_bol_rev_app by discriminate. reflexivity.
Qed.

(** ** Runs of [update_util_version] *)

Lemma update_with_same (E : env) (re : pattern) (m : Match)
  (txt new_version : text) (w : world) :
  group m 3 = new_version ->
  update_with E re m txt new_version w
  = (inl false, extend w [EvPrint (already_msg new_version)]).
Proof.
  intros H. unfold update_with. rewrite H, text_eqb_refl. reflexivity.
Qed.

Lemma write_text_ok (E : env) (data : text) (w : world) :
  write_ok E (trace w) data = true ->
  write_text E data w
  = (inl tt, written w (translate_newlines E data) [EvWrite data]).
Proof.
  unfold write_ok, write_text, written.
  destruct (disk E (trace w) data); try discriminate.
  intros ->. reflexivity.
Qed.

(** A write that does not go through raises, and leaves the file as it
    was only if [open] was refused. *)
Lemma write_text_not_ok (E : env) (data : text) (w : world) :
  write_ok E (trace w) data = false ->
  exists e f,
    write_text E data w = (inr e, World f (trace w ++ [EvWrite data])) /\
    (e = OSError \/ e = UnicodeEncodeError) /\
    (disk E (trace w) data = OpenRefused -> e = OSError /\ f = util_py w) /\
    (disk E (trace w) data <> OpenRefused -> encodable data = false ->
     e = UnicodeEncodeError /\ f = Some []) /\
    (forall r, disk E (trace w) data = WriteFailed r ->
               encodable data = true -> e = OSError /\ f = r).
Proof.
  unfold write_ok, write_text.
  destruct (disk E (trace w) data) as [| |r] eqn:Hd; intros H.
  - rewrite H. simpl. exists UnicodeEncodeError, (Some []).
    repeat split; intros; auto; congruence.
  - exists OSError, (util_py w).
    repeat split; intros; auto; congruence.
  - destruct (encodable data); simpl.
    + exists OSError, r. repeat split; intros; auto; congruence.
    + exists UnicodeEncodeError, (Some []).
      repeat split; intros; auto; congruence.
Qed.

Lemma update_with_diff (E : env) (re : pattern) (m : Match)
  (txt new_version : text) (w : world) :
  group m 3 <> new_version ->
  write_ok E (trace w) (sub1 re (_repl new_version) txt) = true ->
  update_with E re m txt new_version w
  = (inl true,
     written w (translate_newlines E (sub1 re (_repl new_version) txt))
       [EvWrite (sub1 re (_repl new_version) txt);
        EvPrint (updated_msg E (group m 3) new_version)]).
Proof.
  intros H Hw. unfold update_with.
  apply text_eqb_neq in H. rewrite H.
  unfold bind. rewrite (write_text_ok E _ w Hw).
  unfold print, log, ret, written. simpl.
  now rewrite <- app_assoc.
Qed.

Lemma update_with_not_ok (E : env) (re : pattern) (m : Match)
  (txt new_version : text) (w : world) :
  group m 3 <> new_version ->
  write_ok E (trace w) (sub1 re (_repl new_version) txt) = false ->
  exists e f,
    update_with E re m txt new_version w
    = (inr e,
       World f (trace w ++ [EvWrite (sub1 re (_repl new_version) txt)])) /\
    (e = OSError \/ e = UnicodeEncodeError) /\
    (disk E (trace w) (sub1 re (_repl new_version) txt) = OpenRefused ->
     e = OSError /\ f = util_py w) /\
    (disk E (trace w) (sub1 re (_repl new_version) txt) <> OpenRefused ->
     encodable (sub1 re (_repl new_version) txt) = false ->
     e = UnicodeEncodeError /\ f = Some []) /\
    (forall r,
       disk E (trace w) (sub1 re (_repl new_version) txt) = WriteFailed r ->
       encodable (sub1 re (_repl new_version) txt) = true ->
       e = OSError /\ f = r).
Proof.
  intros H Hw. unfold update_with.
  apply text_eqb_neq in H. rewrite H.
  destruct (write_text_not_ok E _ w Hw) as (e & f & Hwt & He).
  exists e, f. split; [|exact He]. unfold bind. rewrite Hwt. reflexivity.
Qed.

Lemma update_chosen (E : env) (new_version content : text)
  (tr : list event) (m : Match) :
  chosen_match (universal_newlines content) = Some m ->
  update_util_version E new_version
    {| util_py := Some content; trace := tr |}
  = update_with E (chosen_re (universal_newlines content)) m
      (universal_newlines content) new_version
      {| util_py := Some content; trace := tr ++ [EvRead] |}.
Proof.
  unfold chosen_match, chosen_re, update_util_version, bind, read_text.
  simpl. destruct (search assign_re (universal_newlines content)) as [m1|].
  - intros H; inversion H; subst. reflexivity.
  - intros ->. reflexivity.
Qed.

Lemma sub1_chosen (txt new_version : text) (m : Match) :
  chosen_match txt = Some m ->
  sub1 (chosen_re txt) (_repl new_version) txt
  = firstn (group_start m 3) txt ++ new_version
    ++ skipn (group_end m 3) txt.
Proof.
  unfold chosen_match, chosen_re.
  destruct (search assign_re txt) as [m1|] eqn:H1.
  - intros H; inversion H; subst.
    eapply sub1_decl; [apply assign_match_iff|exact H1].
  - intros H2.
    apply (sub1_decl dict_re (fun _ => True) is_dict_hdr); [|exact H2].
    intros b a st'. rewrite dict_match_iff. tauto.
Qed.

(** The value of the chosen match lies inside the text. *)
Lemma chosen_span (txt : text) (m : Match) :
  chosen_match txt = Some m ->
  m_string m = txt /\
  (group_start m 3 <= group_end m 3)%nat /\
  (group_end m 3 <= length txt)%nat /\
  txt = firstn (group_start m 3) txt ++ group m 3
        ++ skipn (group_end m 3) txt.
Proof.
  assert (Hgen : forall P Pre Hd,
    (forall b a st', match_at P b a = Some st' <-> Pre b /\ decl Hd b a st') ->
    search P txt = Some m ->
    m_string m = txt /\
    (group_start m 3 <= group_end m 3)%nat /\
    (group_end m 3 <= length txt)%nat /\
    txt = firstn (group_start m 3) txt ++ group m 3
          ++ skipn (group_end m 3) txt).
  { intros P Pre Hd Hiff H.
    apply (search_decl P Pre Hd Hiff) in H
      as (s1 & h & q1 & v & q2 & tl & Ht & _ & _ & _ & _ & _ & _ & Hm & _).
    subst m. split; [reflexivity|]. subst txt.
    destruct (group3_span s1 h q1 v q2 tl) as [Hs He].
    rewrite group3_decl, <- value_segment, Hs, He.
    repeat split; try lia.
    rewrite !length_app. simpl. rewrite !length_app. simpl. lia. }
  unfold chosen_match.
  destruct (search assign_re txt) as [m1|] eqn:H1.
  - intros H; inversion H; subst.
    eapply Hgen; [apply assign_match_iff|exact H1].
  - intros H2. apply (Hgen dict_re (fun _ => True) is_dict_hdr); [|exact H2].
    intros b a st'. rewrite dict_match_iff. tauto.
Qed.

(** ** Runs of [main] *)

Lemma gate_pass (E : env) (args : Args) (f : option text) (tr : list event) :
  gate_open E args tr ->
  precondition_gate E args (World f tr)
  = (inl tt, World f (tr ++ gate_events args)).
Proof.
  unfold gate_open, precondition_gate, gate_events, git_is_clean, bind, ret,
    subprocess_run.
  destruct (allow_dirty args); simpl.
  - intros _. now rewrite app_nil_r.
  - intros [H|H]; [discriminate|]. rewrite H. reflexivity.
Qed.

Lemma gate_fail (E : env) (args : Args) (f : option text) (tr : list event) :
  allow_dirty args = false ->
  strip (snd (git E tr git_status)) <> [] ->
  precondition_gate E args (World f tr)
  = (inr (SystemExit 1),
     World f (tr ++ [EvRun git_status; EvErr dirty_msg])).
Proof.
  intros Ha Hs. apply text_eqb_neq in Hs.
  unfold precondition_gate, git_is_clean, bind, ret, subprocess_run,
    eprint, log, sys_exit, raise.
  rewrite Ha. simpl. rewrite Hs. simpl. now rewrite <- app_assoc.
Qed.

(** Once the command line is parsed the run is the body of [main]. *)
Lemma main_parsed (E : env) (args : Args) :
  main E (Parsed args)
  = (precondition_gate E args ;;
     changed <- rewrite_stage E args ;;
     try_except
       (commit_stage E args changed ;; tag_stage E args ;; push_stage E args)
       git_failed).
Proof. reflexivity. Qed.

Lemma main_help (E : env) (help : text) (w : world) :
  main E (Help help) w = (inr (SystemExit 0), extend w [EvPrint help]).
Proof. reflexivity. Qed.

Lemma main_usage (E : env) (message : text) (w : world) :
  main E (UsageError message) w
  = (inr (SystemExit 2), extend w [EvErr message]).
Proof. reflexivity. Qed.

Lemma main_after_gate (E : env) (args : Args) (w w1 : world) :
  precondition_gate E args w = (inl tt, w1) ->
  main E (Parsed args) w = after_gate E args w1.
Proof.
  intros H. rewrite main_parsed. unfold after_gate, bind at 1. now rewrite H.
Qed.

(** *** What a run adds to the trace *)

Section Appends.
Variable ok : event -> Prop.

Lemma appends_ret {A : Type} (a : A) : appends ok (ret a).
Proof. intros w. exists []. simpl. now rewrite app_nil_r. Qed.

Lemma appends_raise {A : Type} (e : exn) : appends ok (@raise A e).
Proof. intros w. exists []. simpl. now rewrite app_nil_r. Qed.

Lemma appends_log (e : event) : ok e -> appends ok (log e).
Proof. intros He w. exists [e]. simpl. auto. Qed.

Lemma appends_bind {A B : Type} (m : M A) (f : A -> M B) :
  appends ok m -> (forall a, appends ok (f a)) -> appends ok (bind m f).
Proof.
  intros Hm Hf w. unfold bind.
  destruct (Hm w) as (evs & Ht & Hok).
  destruct (m w) as [[a|e] w']; simpl in *.
  - destruct (Hf a w') as (evs' & Ht' & Hok').
    exists (evs ++ evs'). rewrite Ht', Ht, app_assoc.
    split; [reflexivity|]. now apply Forall_app.
  - eauto.
Qed.

Lemma appends_try {A : Type} (m : M A) (h : exn -> M A) :
  appends ok m -> (forall e, appends ok (h e)) ->
  appends ok (try_except m h).
Proof.
  intros Hm Hh w. unfold try_except.
  destruct (Hm w) as (evs & Ht & Hok).
  destruct (m w) as [[a|e] w']; simpl in *.
  - eauto.
  - destruct (Hh e w') as (evs' & Ht' & Hok').
    exists (evs ++ evs'). rewrite Ht', Ht, app_assoc.
    split; [reflexivity|]. now apply Forall_app.
Qed.

Lemma appends_run (E : env) (cmd : list text) (check : bool) :
  ok (EvRun cmd) -> appends ok (subprocess_run E cmd check).
Proof.
  intros He w. exists [EvRun cmd]. unfold subprocess_run.
  destruct (check && negb (fst (git E (trace w) cmd) =? 0)%Z); simpl; auto.
Qed.

Lemma appends_read : ok EvRead -> appends ok read_text.
Proof.
  intros He w. exists [EvRead]. unfold read_text.
  destruct (util_py w); simpl; auto.
Qed.

Lemma appends_write (E : env) (new_txt : text) :
  ok (EvWrite new_txt) -> appends ok (write_text E new_txt).
Proof.
  intros He w. exists [EvWrite new_txt]. unfold write_text.
  destruct (disk E (trace w) new_txt); destruct (encodable new_txt);
    simpl; auto.
Qed.
End Appends.

Lemma bind_from {A B : Type} (ok : event -> Prop) (m : M A) (f : A -> M B)
  (w : world) (pre : list event) :
  (exists evs, trace (snd (m w)) = pre ++ evs) ->
  (forall a, appends ok (f a)) ->
  exists evs, trace (snd (bind m f w)) = pre ++ evs.
Proof.
  intros (evs & Ht) Hf. unfold bind.
  destruct (m w) as [[a|e] w']; simpl in *; [|eauto].
  destruct (Hf a w') as (evs' & Ht' & _).
  exists (evs ++ evs'). now rewrite Ht', Ht, app_assoc.
Qed.

Lemma try_from {A : Type} (ok : event -> Prop) (m : M A) (h : exn -> M A)
  (w : world) (pre : list event) :
  (exists evs, trace (snd (m w)) = pre ++ evs) ->
  (forall e, appends ok (h e)) ->
  exists evs, trace (snd (try_except m h w)) = pre ++ evs.
Proof.
  intros (evs & Ht) Hh. unfold try_except.
  destruct (m w) as [[a|e] w']; simpl in *; [eauto|].
  destruct (Hh e w') as (evs' & Ht' & _).
  exists (evs ++ evs'). now rewrite Ht', Ht, app_assoc.
Qed.

Ltac appends_tac :=
  repeat first
    [ apply appends_ret | apply appends_raise
    | apply appends_log | apply appends_run
    | apply appends_read | apply appends_write
    | apply appends_bind; [|intros ?]
    | apply appends_try; [|intros ?] ];
  try solve [simpl; unfold script_command; simpl; tauto].

Lemma appends_update_with (ok : event -> Prop) (E : env) (re : pattern)
  (m : Match) (txt new_version : text) :
  (forall t, ok (EvWrite t)) -> (forall t, ok (EvPrint t)) ->
  appends ok (update_with E re m txt new_version).
Proof.
  intros Hw Hp. unfold update_with.
  destruct (text_eqb (group m 3) new_version); unfold print;
    appends_tac; auto.
Qed.

Lemma appends_update (ok : event -> Prop) (E : env) (new_version : text) :
  ok EvRead -> (forall t, ok (EvWrite t)) -> (forall t, ok (EvPrint t)) ->
  (forall t, ok (EvErr t)) ->
  appends ok (update_util_version E new_version).
Proof.
  intros Hr Hw Hp He. unfold update_util_version.
  apply appends_bind; [now apply appends_read|]. intros txt.
  destruct (search assign_re txt); [now apply appends_update_with|].
  destruct (search dict_re txt); [now apply appends_update_with|].
  unfold eprint. appends_tac; auto.
Qed.

Lemma appends_rewrite_stage (ok : event -> Prop) (E : env) (args : Args) :
  ok EvRead -> (forall t, ok (EvWrite t)) -> (forall t, ok (EvPrint t)) ->
  (forall t, ok (EvErr t)) -> (forall t e, ok (EvErrExn t e)) ->
  appends ok (rewrite_stage E args).
Proof.
  intros Hr Hw Hp He Hx. unfold rewrite_stage.
  apply appends_try; [now apply appends_update|].
  intros e. destruct e; unfold eprint_exn, sys_exit; appends_tac; auto.
Qed.

Lemma appends_git_failed (ok : event -> Prop) (e : exn) :
  (forall t x, ok (EvErrExn t x)) -> appends ok (git_failed e).
Proof.
  intros Hx. destruct e; unfold git_failed, eprint_exn, sys_exit;
    appends_tac; auto.
Qed.

Lemma appends_push_stage (E : env) (args : Args) :
  appends (later_event [git_push_head; git_push_tag args])
          (push_stage E args).
Proof.
  unfold push_stage, run, print. destruct (push args); appends_tac.
Qed.

Lemma later_event_script (E : env) (args : Args) (cmds : list (list text))
  (e : event) :
  (forall cmd, In cmd cmds -> script_command E args cmd) ->
  later_event cmds e -> script_event E args e.
Proof. intros H. destruct e; simpl; auto. Qed.

Lemma appends_impl {A : Type} (ok ok' : event -> Prop) (m : M A) :
  (forall e, ok e -> ok' e) -> appends ok m -> appends ok' m.
Proof.
  intros Himp Hm w. destruct (Hm w) as (evs & Ht & Hok).
  exists evs. split; [assumption|]. eapply Forall_impl; eauto.
Qed.

Lemma appends_git_stages (E : env) (args : Args) (changed : bool) :
  appends (script_event E args)
    (try_except
       (commit_stage E args changed ;; tag_stage E args ;; push_stage E args)
       git_failed).
Proof.
  apply appends_try; [|intros e; now apply appends_git_failed].
  apply appends_bind.
  { unfold commit_stage, run, print. destruct changed; appends_tac. }
  intros _. apply appends_bind.
  { unfold tag_stage, run, print. appends_tac. }
  intros _. apply (appends_impl (later_event [git_push_head; git_push_tag args])).
  - intros e. apply later_event_script. intros cmd [<-|[<-|[]]];
      unfold script_command; tauto.
  - apply appends_push_stage.
Qed.

Lemma appends_main (E : env) (args : Args) :
  appends (script_event E args) (main E (Parsed args)).
Proof.
  rewrite main_parsed. apply appends_bind.
  { unfold precondition_gate, git_is_clean, eprint, sys_exit.
    apply appends_bind.
    - destruct (allow_dirty args); simpl; appends_tac.
    - intros [|]; appends_tac. }
  intros _. apply appends_bind.
  { apply appends_rewrite_stage; simpl; auto. }
  intros changed. apply appends_git_stages.
Qed.

(** After the gate the run first reads the target file. *)
Lemma after_gate_reads (E : env) (args : Args) (w : world) :
  exists evs, trace (snd (after_gate E args w)) = trace w ++ EvRead :: evs.
Proof.
  assert (H : exists evs, trace (snd (after_gate E args w))
                          = (trace w ++ [EvRead]) ++ evs).
  { unfold after_gate.
    apply (bind_from (script_event E args));
      [|intros changed; apply appends_git_stages].
    unfold rewrite_stage. apply (try_from (fun _ => True)).
    - unfold update_util_version. apply (bind_from (fun _ => True)).
      + exists []. unfold read_text. rewrite app_nil_r.
        destruct (util_py w); reflexivity.
      + intros txt.
        destruct (search assign_re txt);
          [apply appends_update_with; auto|].
        destruct (search dict_re txt);
          [apply appends_update_with; auto|].
        unfold eprint. appends_tac; auto.
    - intros e. destruct e; unfold eprint_exn, sys_exit; appends_tac; auto. }
  destruct H as (evs & H). exists evs. rewrite H. now rewrite <- app_assoc.
Qed.

(** ** Further lemmas on runs *)

Lemma keeps_ret {A : Type} (a : A) : keeps (ret a).
Proof. intros w. reflexivity. Qed.

Lemma keeps_raise {A : Type} (e : exn) : keeps (@raise A e).
Proof. intros w. reflexivity. Qed.

Lemma keeps_log (e : event) : keeps (log e).
Proof. intros w. reflexivity. Qed.

Lemma keeps_run (E : env) (cmd : list text) (check : bool) :
  keeps (subprocess_run E cmd check).
Proof.
  intros w. unfold subprocess_run.
  destruct (check && negb (fst (git E (trace w) cmd) =? 0)%Z); reflexivity.
Qed.

Lemma keeps_bind {A B : Type} (m : M A) (f : A -> M B) :
  keeps m -> (forall a, keeps (f a)) -> keeps (bind m f).
Proof.
  intros Hm Hf w. unfold bind. specialize (Hm w).
  destruct (m w) as [[a|e] w']; simpl in *; [|assumption].
  now rewrite Hf.
Qed.

Lemma keeps_try {A : Type} (m : M A) (h : exn -> M A) :
  keeps m -> (forall e, keeps (h e)) -> keeps (try_except m h).
Proof.
  intros Hm Hh w. unfold try_except. specialize (Hm w).
  destruct (m w) as [[a|e] w']; simpl in *; [assumption|].
  now rewrite Hh.
Qed.

Ltac keeps_tac :=
  repeat first
    [ apply keeps_ret | apply keeps_raise | apply keeps_log
    | apply keeps_run
    | apply keeps_bind; [|intros ?]
    | apply keeps_try; [|intros ?] ].

Lemma keeps_git_failed (e : exn) : keeps (git_failed e).
Proof. destruct e; unfold git_failed, eprint_exn, sys_exit; keeps_tac. Qed.

Lemma keeps_push_stage (E : env) (args : Args) : keeps (push_stage E args).
Proof. unfold push_stage, run, print. destruct (push args); keeps_tac. Qed.

Lemma bind_assoc {A B C : Type} (m : M A) (f : A -> M B) (g : B -> M C)
  (w : world) :
  bind (bind m f) g w = bind m (fun a => bind (f a) g) w.
Proof.
  unfold bind. destruct (m w) as [[a|e] w']; [|reflexivity].
  destruct (f a w') as [[b|e] w'']; reflexivity.
Qed.

Lemma try_bind_ok {A B : Type} (m : M A) (f : A -> M B) (h : exn -> M B)
  (w w' : world) (a : A) :
  m w = (inl a, w') ->
  try_except (bind m f) h w = try_except (f a) h w'.
Proof. intros H. unfold try_except, bind. now rewrite H. Qed.

(** The tag stage and what follows it, from any world: the tag command is
    the first thing run, and after it come at most the two pushes. *)
Lemma tag_then_rest (E : env) (args : Args) (w : world) :
  exists evs,
    trace (snd (try_except (tag_stage E args ;; push_stage E args)
                           git_failed w))
    = trace w ++ EvRun (git_tag args) :: evs /\
    Forall (later_event [git_push_head; git_push_tag args]) evs /\
    util_py (snd (try_except (tag_stage E args ;; push_stage E args)
                             git_failed w)) = util_py w.
Proof.
  destruct (run E (git_tag args) w) as [[r|e] w'] eqn:Hrun.
  - assert (Hw' : w' = extend w [EvRun (git_tag args)]).
    { unfold run, subprocess_run in Hrun. simpl in Hrun.
      destruct (negb (fst (git E (trace w) (git_tag args)) =? 0)%Z);
        inversion Hrun; reflexivity. }
    assert (Hstep : (tag_stage E args) w
                    = (inl tt, extend w' [EvPrint (str "created tag "
                                                   ++ tag_name args)])).
    { unfold tag_stage, bind. rewrite Hrun. reflexivity. }
    rewrite (try_bind_ok _ _ _ _ _ _ Hstep).
    set (w2 := extend w' _).
    assert (Hap : appends (later_event [git_push_head; git_push_tag args])
                    (try_except (push_stage E args) git_failed)).
    { apply appends_try; [apply appends_push_stage|].
      intros e. apply appends_git_failed. simpl. auto. }
    destruct (Hap w2) as (evs & Ht & Hok).
    exists (EvPrint (str "created tag " ++ tag_name args) :: evs).
    repeat split.
    + rewrite Ht. unfold w2. subst w'. simpl. now rewrite <- !app_assoc.
    + constructor; [exact I|assumption].
    + rewrite (keeps_try _ _ (keeps_push_stage E args) keeps_git_failed).
      unfold w2. subst w'. reflexivity.
  - assert (He : e = CalledProcessError (git_tag args)
                       (fst (git E (trace w) (git_tag args)))
                 /\ w' = extend w [EvRun (git_tag args)]).
    { unfold run, subprocess_run in Hrun. simpl in Hrun.
      destruct (negb (fst (git E (trace w) (git_tag args)) =? 0)%Z);
        inversion Hrun; auto. }
    destruct He as [-> ->].
    exists [EvErrExn (str "git command failed:")
              (CalledProcessError (git_tag args)
                 (fst (git E (trace w) (git_tag args))))].
    unfold try_except, tag_stage, bind. rewrite Hrun. simpl.
    repeat split.
    + now rewrite <- app_assoc.
    + constructor; [exact I|constructor].
Qed.

Lemma run_result (E : env) (cmd : list text) (w : world) :
  run E cmd w
  = if (fst (git E (trace w) cmd) =? 0)%Z
    then (inl (git E (trace w) cmd), extend w [EvRun cmd])
    else (inr (CalledProcessError cmd (fst (git E (trace w) cmd))),
          extend w [EvRun cmd]).
Proof.
  unfold run, subprocess_run. simpl.
  destruct (fst (git E (trace w) cmd) =? 0)%Z; reflexivity.
Qed.

Lemma dict_iff_decl (b a : text) (st' : mstate) :
  match_at dict_re b a = Some st' <-> True /\ decl is_dict_hdr b a st'.
Proof. rewrite dict_match_iff. tauto. Qed.

Lemma assign_none_after_dict (txt new_version : text) (m : Match) :
  search assign_re txt = None ->
  search dict_re txt = Some m ->
  new_version <> [] -> quote_free new_version = true ->
  has_newline new_version = false ->
  search assign_re (sub1 dict_re (_repl new_version) txt) = None.
Proof.
  intros H1 H2 Hne Hqf Hnl. unfold sub1. rewrite H2.
  apply (search_decl dict_re (fun _ => True) is_dict_hdr dict_iff_decl) in H2
    as (s1 & h & q1 & v & q2 & tl & -> & _ & _ & Hq1 & Hv & Hnv & Hq2 & -> & _).
  rewrite repl_decl. rewrite app_assoc in H1 |- *.
  now apply (assign_none_rewritten (s1 ++ h) q1 v new_version q2 tl).
Qed.

Lemma update_already (E : env) (new_version content : text)
  (tr : list event) (m : Match) :
  chosen_match (universal_newlines content) = Some m ->
  group m 3 = new_version ->
  update_util_version E new_version (World (Some content) tr)
  = (inl false,
     extend (World (Some content) tr)
       [EvRead; EvPrint (already_msg new_version)]).
Proof.
  intros Hc Hg. rewrite (update_chosen _ _ _ _ _ Hc).
  rewrite update_with_same by assumption.
  unfold extend. simpl. now rewrite <- app_assoc.
Qed.

Lemma update_no_match (E : env) (new_version content : text)
  (tr : list event) :
  chosen_match (universal_newlines content) = None ->
  update_util_version E new_version (World (Some content) tr)
  = (inr (SystemExit 2),
     World (Some content) (tr ++ [EvRead; EvErr (not_found_msg E)])).
Proof.
  unfold chosen_match, update_util_version, bind, read_text. simpl.
  destruct (search assign_re (universal_newlines content)); [discriminate|].
  intros ->. unfold eprint, log, raise. simpl. now rewrite <- app_assoc.
Qed.

(** The rewrite where the value differs and the write goes through. *)
Lemma update_writes (E : env) (new_version content : text)
  (tr : list event) (m : Match) :
  chosen_match (universal_newlines content) = Some m ->
  group m 3 <> new_version ->
  write_ok E (tr ++ [EvRead])
    (sub1 (chosen_re (universal_newlines content)) (_repl new_version)
       (universal_newlines content)) = true ->
  update_util_version E new_version (World (Some content) tr)
  = (inl true,
     World (Some (translate_newlines E
                    (sub1 (chosen_re (universal_newlines content))
                       (_repl new_version) (universal_newlines content))))
       (tr ++ [EvRead;
               EvWrite (sub1 (chosen_re (universal_newlines content))
                          (_repl new_version) (universal_newlines content));
               EvPrint (updated_msg E (group m 3) new_version)])).
Proof.
  intros Hc Hne Hw. rewrite (update_chosen E new_version content tr m Hc).
  rewrite update_with_diff by assumption.
  unfold written. simpl. now rewrite <- app_assoc.
Qed.

(** The rewrite where the value differs and the write does not go through:
    an exception of the write is raised; the file is as it was if [open]
    was refused, empty if the text could not be encoded, and else what the
    failed write left of it. *)
Lemma update_not_written (E : env) (new_version content : text)
  (tr : list event) (m : Match) :
  chosen_match (universal_newlines content) = Some m ->
  group m 3 <> new_version ->
  write_ok E (tr ++ [EvRead])
    (sub1 (chosen_re (universal_newlines content)) (_repl new_version)
       (universal_newlines content)) = false ->
  exists e f,
    update_util_version E new_version (World (Some content) tr)
    = (inr e,
       World f
         (tr ++ [EvRead;
                 EvWrite (sub1 (chosen_re (universal_newlines content))
                            (_repl new_version)
                            (universal_newlines content))])) /\
    (e = OSError \/ e = UnicodeEncodeError) /\
    (disk E (tr ++ [EvRead])
       (sub1 (chosen_re (universal_newlines content)) (_repl new_version)
          (universal_newlines content)) = OpenRefused ->
     e = OSError /\ f = Some content) /\
    (disk E (tr ++ [EvRead])
       (sub1 (chosen_re (universal_newlines content)) (_repl new_version)
          (universal_newlines content)) <> OpenRefused ->
     encodable
       (sub1 (chosen_re (universal_newlines content)) (_repl new_version)
          (universal_newlines content)) = false ->
     e = UnicodeEncodeError /\ f = Some []) /\
    (forall r,
       disk E (tr ++ [EvRead])
         (sub1 (chosen_re (universal_newlines content)) (_repl new_version)
            (universal_newlines content)) = WriteFailed r ->
       encodable
         (sub1 (chosen_re (universal_newlines content)) (_repl new_version)
            (universal_newlines content)) = true ->
       e = OSError /\ f = r).
Proof.
  intros Hc Hne Hw. rewrite (update_chosen E new_version content tr m Hc).
  destruct (update_with_not_ok E (chosen_re (universal_newlines content)) m
              (universal_newlines content) new_version
              (World (Some content) (tr ++ [EvRead])) Hne Hw)
    as (e & f & Hu & He).
  exists e, f. simpl in Hu, He. rewrite Hu, <- app_assoc.
  split; [reflexivity|exact He].
Qed.

(** After the value has been replaced by a version that can be read back,
    the pattern in use finds that version. *)
Lemma chosen_rewritten (txt new_version : text) (m : Match) :
  chosen_match txt = Some m ->
  new_version <> [] -> quote_free new_version = true ->
  (search assign_re txt = None -> has_newline new_version = false) ->
  exists m',
    chosen_match (sub1 (chosen_re txt) (_repl new_version) txt) = Some m' /\
    group m' 3 = new_version.
Proof.
  unfold chosen_match, chosen_re. intros Hc Hne Hqf Hnl.
  destruct (search assign_re txt) as [m1|] eqn:H1.
  - destruct (assign_search_rewritten txt new_version m1 H1 Hne Hqf)
      as (m' & Hs & Hg).
    exists m'. now rewrite Hs.
  - destruct (dict_search_rewritten txt new_version m Hc Hne Hqf)
      as (m' & Hs & Hg).
    exists m'.
    now rewrite (assign_none_after_dict txt new_version m H1 Hc Hne Hqf
                   (Hnl eq_refl)).
Qed.

Lemma cr_free_rewritten (txt new_version : text) (m : Match) :
  chosen_match txt = Some m ->
  cr_free txt = true -> cr_free new_version = true ->
  cr_free (sub1 (chosen_re txt) (_repl new_version) txt) = true.
Proof.
  intros Hc Ht Hn. rewrite (sub1_chosen txt new_version m Hc).
  rewrite !cr_free_app, Hn, cr_free_firstn, cr_free_skipn by assumption.
  reflexivity.
Qed.

Lemma is_quote_iff (q : char) : is_quote q = true <-> q = sq \/ q = dq.
Proof.
  unfold is_quote. simpl. rewrite !orb_true_iff, !N.eqb_eq.
  intuition discriminate.
Qed.

(** * The claims *)

(** C1, as the code has it: with --annotated, the tag command that [main]
    runs names the tag [tag_name] and gives it the message [Release]
    followed by that same tag name.  The message therefore embeds the
    version string when --tag-name is absent or empty, the tag name then
    being the version; when --tag-name overrides it, the message embeds the
    override. *)
Theorem C1_tag_message_names_the_tag (E : env) (args : Args)
  (f : option text) (tn msg : text) :
  annotated args = true ->
  In (EvRun [str "git"; str "tag"; str "-a"; tn; str "-m"; msg])
     (trace (snd (main E (Parsed args) (initial f)))) ->
  tn = tag_name args /\
  msg = str "Release " ++ tag_name args /\
  contains msg (tag_name args) = true /\
  (arg_tag_name args = None \/ arg_tag_name args = Some [] ->
   contains msg (version args) = true).
Proof.
  intros Ha Hin.
  destruct (appends_main E args (initial f)) as (evs & Ht & Hok).
  simpl in Ht. rewrite Ht in Hin.
  rewrite Forall_forall in Hok. apply Hok in Hin.
  assert (Hcmd : [str "git"; str "tag"; str "-a"; tn; str "-m"; msg]
                 = git_tag args).
  { simpl in Hin. unfold script_command in Hin.
    destruct Hin as [H|[H|[H|[H|[H|H]]]]]; try exact H;
      unfold git_status, git_add, git_commit, git_push_head, git_push_tag in H;
      discriminate H. }
  unfold git_tag in Hcmd. rewrite Ha in Hcmd.
  injection Hcmd as -> ->.
  assert (Hc : contains (str "Release " ++ tag_name args) (tag_name args)
               = true).
  { rewrite <- (app_nil_r (tag_name args)) at 1. apply contains_app. }
  repeat split; auto.
  intros Hn.
  assert (Htn : tag_name args = version args)
    by (unfold tag_name; destruct Hn as [-> | ->]; reflexivity).
  rewrite Htn in Hc |- *. exact Hc.
Qed.

Lemma C1_witness :
  let args := {| version := str "1.2.3"; annotated := true; push := false;
                 allow_dirty := false; arg_tag_name := None |} in
  let f := Some (str "version = '1.2.2'") in
  annotated args = true /\
  In (EvRun [str "git"; str "tag"; str "-a"; str "1.2.3"; str "-m";
             str "Release 1.2.3"])
     (trace (snd (main env_ok (Parsed args) (initial f)))) /\
  contains (str "Release 1.2.3") (version args) = true.
Proof.
  intros args f.
  assert (Hin : In (EvRun [str "git"; str "tag"; str "-a"; str "1.2.3";
                           str "-m"; str "Release 1.2.3"])
                   (trace (snd (main env_ok (Parsed args) (initial f))))).
  { vm_compute. repeat first [left; reflexivity | right]. }
  split; [reflexivity|]. split; [exact Hin|].
  destruct (C1_tag_message_names_the_tag env_ok args f _ _ eq_refl Hin)
    as (_ & _ & _ & H).
  apply H. left. reflexivity.
Defined.

(** With --tag-name v2 and version 1.0.0 the annotated tag is created with
    the message [Release v2], which does not contain [1.0.0]. *)
Lemma C1_counterexample :
  let args := {| version := str "1.0.0"; annotated := true; push := false;
                 allow_dirty := false; arg_tag_name := Some (str "v2") |} in
  let f := Some (str "version = '0.9.0'") in
  In (EvRun [str "git"; str "tag"; str "-a"; str "v2"; str "-m";
             str "Release v2"])
     (trace (snd (main env_ok (Parsed args) (initial f)))) /\
  exit_code (fst (main env_ok (Parsed args) (initial f))) = 0%Z /\
  contains (str "Release v2") (version args) = false.
Proof.
  intros args f. split; [|split; vm_compute; reflexivity].
  vm_compute. repeat first [left; reflexivity | right].
Qed.

(** C2, as the code has it: pattern 1 matches at a position exactly when
    the position is at the start of a line and the text there is a header
    (white space, [version], white space, [=], white space), a quote, a
    non-empty value without quotes, and a quote; pattern 2 matches exactly
    when the text is a header (a quote, [version], a quote, white space,
    [:], white space), a quote, such a value, and a quote.  Every one of
    these quotes is a single or a double quote on its own account: the
    quote that opens the value and the one that closes it need not be the
    same character, and the match reports them as groups 2 and 4. *)
Theorem C2_value_quotes_are_independent (b a : text) :
  (matches assign_re b a <->
   at_bol b = true /\
   exists h q1 v q2 tl,
     a = h ++ q1 :: v ++ q2 :: tl /\ is_assign_hdr h /\
     is_quote q1 = true /\ quote_free v = true /\ v <> [] /\
     is_quote q2 = true) /\
  (matches dict_re b a <->
   exists h q1 v q2 tl,
     a = h ++ q1 :: v ++ q2 :: tl /\ is_dict_hdr h /\
     is_quote q1 = true /\ quote_free v = true /\ v <> [] /\
     is_quote q2 = true) /\
  (forall q, is_quote q = true <-> q = sq \/ q = dq) /\
  (forall txt m,
     search assign_re txt = Some m \/ search dict_re txt = Some m ->
     exists q1 q2,
       group m 2 = [q1] /\ group m 4 = [q2] /\
       is_quote q1 = true /\ is_quote q2 = true).
Proof.
  split; [|split; [|split]].
  - split.
    + intros (st' & H).
      apply assign_match_iff in H
        as (Hb & h & q1 & v & q2 & tl & Ha & Hh & Hq1 & Hv & Hne & Hq2 & _).
      split; [assumption|]. exists h, q1, v, q2, tl. auto 10.
    + intros (Hb & h & q1 & v & q2 & tl & Ha & Hh & Hq1 & Hv & Hne & Hq2).
      exists (decl_state b h q1 v q2 tl). apply assign_match_iff.
      split; [assumption|]. exists h, q1, v, q2, tl. auto 10.
  - split.
    + intros (st' & H).
      apply dict_match_iff in H
        as (h & q1 & v & q2 & tl & Ha & Hh & Hq1 & Hv & Hne & Hq2 & _).
      exists h, q1, v, q2, tl. auto 10.
    + intros (h & q1 & v & q2 & tl & Ha & Hh & Hq1 & Hv & Hne & Hq2).
      exists (decl_state b h q1 v q2 tl). apply dict_match_iff.
      exists h, q1, v, q2, tl. auto 10.
  - apply is_quote_iff.
  - intros txt m [H|H].
    + apply (search_decl assign_re _ _ assign_match_iff) in H
        as (s1 & h & q1 & v & q2 & tl & -> & _ & _ & Hq1 & _ & _ & Hq2 & -> & _).
      exists q1, q2. rewrite group2_decl, group4_decl. auto.
    + apply (search_decl dict_re _ _ dict_iff_decl) in H
        as (s1 & h & q1 & v & q2 & tl & -> & _ & _ & Hq1 & _ & _ & Hq2 & -> & _).
      exists q1, q2. rewrite group2_decl, group4_decl. auto.
Qed.

(** Pattern 1 matches a value opened by a single and closed by a double
    quote, and pattern 2 a value opened by a double and closed by a single
    quote. *)
Lemma C2_counterexample :
  option_map (fun m => (group m 2, group m 3, group m 4))
    (search assign_re (str "version = '1.2.3" ++ [dq]))
  = Some ([sq], str "1.2.3", [dq]) /\
  option_map (fun m => (group m 2, group m 3, group m 4))
    (search dict_re (str "'version': " ++ [dq] ++ str "1.2.3'"))
  = Some ([dq], str "1.2.3", [sq]) /\
  sq <> dq.
Proof.
  repeat split; try (vm_compute; reflexivity). discriminate.
Qed.

(** C3: when neither pattern matches anywhere in the text of the target
    file, [update_util_version] prints a diagnostic that names the file on
    standard error and raises [SystemExit(2)] without writing; a run of
    [main] that gets past the gate then exits with code 2 and leaves the
    content of the file as it was. *)
Theorem C3_no_pattern_exits_2 (E : env) (args : Args) (content : text) :
  search assign_re (universal_newlines content) = None ->
  search dict_re (universal_newlines content) = None ->
  gate_open E args [] ->
  (forall tr,
     update_util_version E (version args) (World (Some content) tr)
     = (inr (SystemExit 2),
        World (Some content) (tr ++ [EvRead; EvErr (not_found_msg E)]))) /\
  contains (not_found_msg E) (UTIL_PATH E) = true /\
  main E (Parsed args) (initial (Some content))
  = (inr (SystemExit 2),
     World (Some content)
       (gate_events args ++ [EvRead; EvErr (not_found_msg E)])) /\
  exit_code (fst (main E (Parsed args) (initial (Some content)))) = 2%Z.
Proof.
  intros H1 H2 Hg.
  assert (Hu : forall tr,
     update_util_version E (version args) (World (Some content) tr)
     = (inr (SystemExit 2),
        World (Some content) (tr ++ [EvRead; EvErr (not_found_msg E)]))).
  { intros tr. unfold update_util_version, bind, read_text. simpl.
    rewrite H1, H2. unfold eprint, log, raise. simpl.
    now rewrite <- app_assoc. }
  assert (Hm : main E (Parsed args) (initial (Some content))
               = (inr (SystemExit 2),
                  World (Some content)
                    (gate_events args ++ [EvRead; EvErr (not_found_msg E)]))).
  { unfold initial.
    rewrite (main_after_gate E args _ _ (gate_pass E args _ [] Hg)).
    unfold after_gate, bind, rewrite_stage, try_except.
    rewrite Hu. reflexivity. }
  repeat split; auto.
  - unfold not_found_msg. apply contains_app.
  - now rewrite Hm.
Qed.

Lemma C3_witness :
  let E := env_ok in
  let args := {| version := str "1.2.3"; annotated := false; push := false;
                 allow_dirty := false; arg_tag_name := None |} in
  let content := str "name = 'anki-connect'" in
  search assign_re (universal_newlines content) = None /\
  search dict_re (universal_newlines content) = None /\
  gate_open E args [] /\
  exit_code (fst (main E (Parsed args) (initial (Some content)))) = 2%Z.
Proof.
  intros E args content.
  assert (H1 : search assign_re (universal_newlines content) = None)
    by (vm_compute; reflexivity).
  assert (H2 : search dict_re (universal_newlines content) = None)
    by (vm_compute; reflexivity).
  assert (Hg : gate_open E args []) by (right; vm_compute; reflexivity).
  split; [exact H1|]. split; [exact H2|]. split; [exact Hg|].
  apply (C3_no_pattern_exits_2 E args content H1 H2 Hg).
Defined.

(** C4: without --allow-dirty, when the status query reports changes (its
    output is not blank), [main] exits with code 1 having only run the
    status query and printed the diagnostic: the target file is neither
    read nor written and no other git command is issued. *)
Theorem C4_dirty_tree_aborts (E : env) (args : Args) (f : option text) :
  allow_dirty args = false ->
  strip (snd (git E [] git_status)) <> [] ->
  main E (Parsed args) (initial f)
  = (inr (SystemExit 1), World f [EvRun git_status; EvErr dirty_msg]) /\
  exit_code (fst (main E (Parsed args) (initial f))) = 1%Z.
Proof.
  intros Ha Hs.
  assert (Hm : main E (Parsed args) (initial f)
               = (inr (SystemExit 1),
                  World f [EvRun git_status; EvErr dirty_msg])).
  { rewrite main_parsed. unfold bind at 1, initial.
    now rewrite (gate_fail E args f [] Ha Hs). }
  split; [exact Hm|]. now rewrite Hm.
Qed.

Lemma C4_witness :
  let args := {| version := str "1.2.3"; annotated := false; push := true;
                 allow_dirty := false; arg_tag_name := None |} in
  let f := Some (str "version = '1.2.2'") in
  allow_dirty args = false /\
  strip (snd (git env_dirty [] git_status)) <> [] /\
  exit_code (fst (main env_dirty (Parsed args) (initial f))) = 1%Z.
Proof.
  intros args f.
  assert (Hs : strip (snd (git env_dirty [] git_status)) <> [])
    by (vm_compute; discriminate).
  split; [reflexivity|]. split; [exact Hs|].
  apply (C4_dirty_tree_aborts env_dirty args f eq_refl Hs).
Defined.

(** C5: when pattern 1 matches somewhere in the text, the rewrite works
    with the first match of pattern 1, whether or not pattern 2 matches too
    and wherever it does; the match of pattern 2 is used only when
    pattern 1 matches nowhere. *)
Theorem C5_assign_has_priority (E : env) (new_version content : text)
  (tr : list event) (m1 m2 : Match) :
  search assign_re (universal_newlines content) = Some m1 ->
  search dict_re (universal_newlines content) = Some m2 ->
  chosen_match (universal_newlines content) = Some m1 /\
  update_util_version E new_version (World (Some content) tr)
  = update_with E assign_re m1 (universal_newlines content) new_version
      (World (Some content) (tr ++ [EvRead])) /\
  (forall content' m,
     search assign_re (universal_newlines content') = None ->
     search dict_re (universal_newlines content') = Some m ->
     update_util_version E new_version (World (Some content') tr)
     = update_with E dict_re m (universal_newlines content') new_version
         (World (Some content') (tr ++ [EvRead]))).
Proof.
  intros H1 H2. unfold chosen_match. rewrite H1. repeat split.
  - unfold update_util_version, bind, read_text. simpl. now rewrite H1.
  - intros content' m Ha Hd.
    unfold update_util_version, bind, read_text. simpl. now rewrite Ha, Hd.
Qed.

Lemma C5_witness :
  let content : text :=
    str "{'version': '1'}" ++ [newline] ++ str "version = '2'" in
  exists m1 m2,
    search assign_re (universal_newlines content) = Some m1 /\
    search dict_re (universal_newlines content) = Some m2 /\
    (m_start m2 < m_start m1)%nat /\
    util_py (snd (update_util_version env_ok (str "3")
                    (World (Some content) [])))
    = Some (str "{'version': '1'}" ++ [newline] ++ str "version = '3'").
Proof.
  intros content.
  destruct (search assign_re (universal_newlines content)) as [m1|] eqn:H1;
    [|discriminate].
  destruct (search dict_re (universal_newlines content)) as [m2|] eqn:H2;
    [|discriminate].
  exists m1, m2.
  destruct (C5_assign_has_priority env_ok (str "3") content [] m1 m2 H1 H2)
    as (_ & Hu & _).
  split; [reflexivity|]. split; [reflexivity|]. split.
  - vm_compute in H1, H2. inversion H1; inversion H2. simpl. lia.
  - rewrite Hu. vm_compute in H1. inversion H1. vm_compute. reflexivity.
Defined.

(** C6, as the code has it: the file is read and written as text.  When a
    pattern matches and the value it holds differs from the new version,
    and the write goes through, the text written is the text read with the
    value of the first match of the chosen pattern replaced by the new
    version, everything before and after the value being the same text; the
    file then holds that text with every line end turned into the line
    separator of the platform.  Where the file already had the line ends of
    the platform, every character outside the value is as it was. *)
Theorem C6_only_the_value_changes (E : env) (new_version content : text)
  (tr : list event) (m : Match) :
  let txt := universal_newlines content in
  let pre := firstn (group_start m 3) txt in
  let post := skipn (group_end m 3) txt in
  write_ok E (tr ++ [EvRead]) (pre ++ new_version ++ post) = true ->
  chosen_match txt = Some m ->
  group m 3 <> new_version ->
  (group_start m 3 <= group_end m 3 <= length txt)%nat /\
  txt = pre ++ group m 3 ++ post /\
  update_util_version E new_version (World (Some content) tr)
  = (inl true,
     World (Some (translate_newlines E pre
                  ++ translate_newlines E new_version
                  ++ translate_newlines E post))
       (tr ++ [EvRead; EvWrite (pre ++ new_version ++ post);
               EvPrint (updated_msg E (group m 3) new_version)])) /\
  (native E content ->
   content = translate_newlines E pre ++ translate_newlines E (group m 3)
             ++ translate_newlines E post).
Proof.
  intros txt pre post Hw Hc Hne.
  destruct (chosen_span txt m Hc) as (_ & H1 & H2 & H3).
  fold pre post in H3.
  repeat split; auto.
  - rewrite (update_chosen E new_version content tr m Hc). fold txt.
    rewrite update_with_diff;
      [|exact Hne|rewrite (sub1_chosen txt new_version m Hc); exact Hw].
    rewrite (sub1_chosen txt new_version m Hc). fold pre post.
    rewrite !translate_newlines_app.
    unfold written. simpl. now rewrite <- app_assoc.
  - intros Hn. unfold native in Hn. fold txt in Hn.
    rewrite <- !translate_newlines_app, <- H3. now symmetry.
Qed.

Lemma C6_witness :
  let content : text := str "version = '0.9.0'" ++ [newline]
                        ++ str "info = {'version': '0.9.0'}" in
  let txt := universal_newlines content in
  exists m,
    write_ok env_ok [EvRead]
      (firstn (group_start m 3) txt ++ str "1.0.0"
       ++ skipn (group_end m 3) txt) = true /\
    chosen_match txt = Some m /\
    group m 3 <> str "1.0.0" /\
    util_py (snd (update_util_version env_ok (str "1.0.0")
                    (World (Some content) [])))
    = Some (str "version = '1.0.0'" ++ [newline]
            ++ str "info = {'version': '0.9.0'}").
Proof.
  intros content txt.
  destruct (chosen_match txt) as [m|] eqn:Hc; [|discriminate].
  exists m.
  assert (Hg : group m 3 <> str "1.0.0").
  { vm_compute in Hc. inversion Hc. vm_compute. discriminate. }
  assert (Hw : write_ok env_ok ([] ++ [EvRead])
                 (firstn (group_start m 3) txt ++ str "1.0.0"
                  ++ skipn (group_end m 3) txt) = true).
  { vm_compute in Hc. inversion Hc. vm_compute. reflexivity. }
  destruct (C6_only_the_value_changes env_ok (str "1.0.0") content [] m
              Hw Hc Hg) as (_ & _ & Hu & _).
  split; [exact Hw|]. split; [reflexivity|]. split; [exact Hg|].
  rewrite Hu. vm_compute in Hc. inversion Hc.
  vm_compute. reflexivity.
Defined.

(** A file with Windows line ends, rewritten on a POSIX system: the value
    is replaced, and the carriage return after the declaration, which is
    no part of the value, is gone from the file. *)
Lemma C6_counterexample :
  let content : text := str "version = '1'" ++ [13; 10] ++ str "x = 0" in
  let r := update_util_version env_ok (str "2") (World (Some content) []) in
  fst r = inl true /\
  util_py (snd r) = Some (str "version = '2'" ++ [10] ++ str "x = 0") /\
  skipn 12 content = [sq; 13; 10] ++ str "x = 0" /\
  (forall new, util_py (snd r) = Some new ->
               skipn 12 new = [sq; 10] ++ str "x = 0" /\
               skipn 12 new <> skipn 12 content).
Proof.
  intros content r.
  split; [vm_compute; reflexivity|].
  split; [vm_compute; reflexivity|].
  split; [vm_compute; reflexivity|].
  intros new H. vm_compute in H. inversion H; subst new.
  split; [vm_compute; reflexivity|].
  vm_compute. discriminate.
Qed.

(** C7: when the value of the chosen match already equals the requested
    version, [update_util_version] writes nothing, reports that the version
    is already set and returns [False]; [main] then runs no [git add] and no
    [git commit], and the next command it runs is the tag command, [git tag]
    with the tag name (and, when annotated, [-a], [-m] and the message),
    naming no commit, so that the tag is put on the current head; it is
    followed at most by the two pushes. *)
Theorem C7_same_version_is_noop (E : env) (args : Args) (content : text)
  (m : Match) :
  chosen_match (universal_newlines content) = Some m ->
  group m 3 = version args ->
  gate_open E args [] ->
  (forall tr,
     update_util_version E (version args) (World (Some content) tr)
     = (inl false,
        World (Some content)
          (tr ++ [EvRead; EvPrint (already_msg (version args))]))) /\
  git_tag args
  = (if annotated args
     then [str "git"; str "tag"; str "-a"; tag_name args; str "-m";
           str "Release " ++ tag_name args]
     else [str "git"; str "tag"; tag_name args]) /\
  exists evs,
    trace (snd (main E (Parsed args) (initial (Some content))))
    = gate_events args
      ++ [EvRead; EvPrint (already_msg (version args));
          EvPrint (str "no util.py change to commit");
          EvRun (if annotated args
                 then [str "git"; str "tag"; str "-a"; tag_name args;
                       str "-m"; str "Release " ++ tag_name args]
                 else [str "git"; str "tag"; tag_name args])]
      ++ evs /\
    Forall (later_event [[str "git"; str "push"; str "origin"; str "HEAD"];
                         [str "git"; str "push"; str "origin";
                          tag_name args]]) evs /\
    util_py (snd (main E (Parsed args) (initial (Some content))))
    = Some content.
Proof.
  intros Hc Hg Hopen.
  assert (Hu : forall tr,
     update_util_version E (version args) (World (Some content) tr)
     = (inl false,
        World (Some content)
          (tr ++ [EvRead; EvPrint (already_msg (version args))]))).
  { intros tr. rewrite (update_chosen _ _ _ _ _ Hc).
    rewrite update_with_same by assumption.
    unfold extend. simpl. now rewrite <- app_assoc. }
  split; [exact Hu|]. split; [reflexivity|].
  change (if annotated args
          then [str "git"; str "tag"; str "-a"; tag_name args; str "-m";
                str "Release " ++ tag_name args]
          else [str "git"; str "tag"; tag_name args])
    with (git_tag args).
  change [[str "git"; str "push"; str "origin"; str "HEAD"];
          [str "git"; str "push"; str "origin"; tag_name args]]
    with [git_push_head; git_push_tag args].
  set (w3 := World (Some content)
               (gate_events args
                ++ [EvRead; EvPrint (already_msg (version args));
                    EvPrint (str "no util.py change to commit")])).
  assert (Hmain : main E (Parsed args) (initial (Some content))
                  = try_except (tag_stage E args ;; push_stage E args)
                      git_failed w3).
  { unfold initial.
    rewrite (main_after_gate E args _ _ (gate_pass E args _ [] Hopen)).
    simpl app.
    unfold after_gate, bind at 1, rewrite_stage, try_except at 1.
    rewrite Hu.
    apply (try_bind_ok (commit_stage E args false)
             (fun _ => tag_stage E args ;; push_stage E args)
             git_failed _ w3 tt).
    unfold commit_stage, print, log, w3. simpl. now rewrite <- app_assoc. }
  rewrite Hmain.
  destruct (tag_then_rest E args w3) as (evs & Ht & Hok & Hf).
  exists evs. repeat split; auto.
  rewrite Ht. unfold w3. simpl. now rewrite <- app_assoc.
Qed.

Lemma C7_witness :
  let args := {| version := str "2.0.0"; annotated := false; push := false;
                 allow_dirty := false;
                 arg_tag_name := Some (str "v2.0.0") |} in
  let content : text := [dq] ++ str "version" ++ [dq] ++ str ": '2.0.0'" in
  exists m,
    chosen_match (universal_newlines content) = Some m /\
    group m 3 = version args /\
    gate_open env_ok args [] /\
    update_util_version env_ok (version args) (World (Some content) [])
    = (inl false,
       World (Some content) [EvRead; EvPrint (already_msg (version args))]).
Proof.
  intros args content.
  destruct (chosen_match (universal_newlines content)) as [m|] eqn:Hc;
    [|discriminate].
  exists m.
  assert (Hg : group m 3 = version args).
  { vm_compute in Hc. inversion Hc. vm_compute. reflexivity. }
  assert (Hopen : gate_open env_ok args [])
    by (right; vm_compute; reflexivity).
  split; [reflexivity|]. split; [exact Hg|]. split; [exact Hopen|].
  apply (C7_same_version_is_noop env_ok args content m Hc Hg Hopen).
Defined.

(** C8: a run with --push that gets to the push stage pushes [HEAD] and
    then the tag, as two commands, both to [origin].  If the first push
    fails the run exits with code 1 at once; if the first succeeds and the
    second fails the run exits with code 1 right after the failed push,
    having printed the error and run nothing else; if both succeed the
    run reports the push. *)
Theorem C8_push_head_then_tag (E : env) (args : Args) (w0 w1 w2 w3 : world)
  (changed : bool) :
  push args = true ->
  precondition_gate E args w0 = (inl tt, w1) ->
  rewrite_stage E args w1 = (inl changed, w2) ->
  (commit_stage E args changed ;; tag_stage E args) w2 = (inl tt, w3) ->
  let rc1 := fst (git E (trace w3) git_push_head) in
  let rc2 := fst (git E (trace w3 ++ [EvRun git_push_head])
                    (git_push_tag args)) in
  git_push_head = [str "git"; str "push"; str "origin"; str "HEAD"] /\
  git_push_tag args = [str "git"; str "push"; str "origin"; tag_name args] /\
  (rc1 <> 0%Z ->
   main E (Parsed args) w0
   = (inr (SystemExit 1),
      extend w3 [EvRun git_push_head;
                 EvErrExn (str "git command failed:")
                   (CalledProcessError git_push_head rc1)])) /\
  (rc1 = 0%Z -> rc2 <> 0%Z ->
   main E (Parsed args) w0
   = (inr (SystemExit 1),
      extend w3 [EvRun git_push_head; EvRun (git_push_tag args);
                 EvErrExn (str "git command failed:")
                   (CalledProcessError (git_push_tag args) rc2)]) /\
   exit_code (fst (main E (Parsed args) w0)) = 1%Z) /\
  (rc1 = 0%Z -> rc2 = 0%Z ->
   main E (Parsed args) w0
   = (inl tt,
      extend w3 [EvRun git_push_head; EvRun (git_push_tag args);
                 EvPrint (str "pushed HEAD and tag to origin")])).
Proof.
  intros Hp Hgate Hrw Hct rc1 rc2.
  assert (Hmain : main E (Parsed args) w0
                  = try_except (push_stage E args) git_failed w3).
  { rewrite (main_after_gate E args _ _ Hgate).
    unfold after_gate, bind at 1. rewrite Hrw.
    transitivity
      (try_except
         (bind (commit_stage E args changed ;; tag_stage E args)
               (fun _ => push_stage E args)) git_failed w2).
    - unfold try_except. now rewrite bind_assoc.
    - apply (try_bind_ok _ (fun _ => push_stage E args) git_failed w2 w3 tt).
      exact Hct. }
  assert (Hpush : push_stage E args w3
    = if (rc1 =? 0)%Z then
        if (rc2 =? 0)%Z then
          (inl tt,
           extend w3 [EvRun git_push_head; EvRun (git_push_tag args);
                      EvPrint (str "pushed HEAD and tag to origin")])
        else
          (inr (CalledProcessError (git_push_tag args) rc2),
           extend w3 [EvRun git_push_head; EvRun (git_push_tag args)])
      else
        (inr (CalledProcessError git_push_head rc1),
         extend w3 [EvRun git_push_head])).
  { unfold push_stage. rewrite Hp. unfold bind at 1. rewrite run_result.
    fold rc1. destruct (rc1 =? 0)%Z; [|reflexivity].
    unfold bind at 1. rewrite run_result. simpl trace. fold rc2.
    destruct (rc2 =? 0)%Z; unfold extend; simpl.
    - unfold print, log. simpl. now rewrite <- !app_assoc.
    - now rewrite <- !app_assoc. }
  split; [reflexivity|]. split; [reflexivity|].
  rewrite Hmain. unfold try_except. rewrite Hpush.
  repeat split.
  - intros H1. apply Z.eqb_neq in H1. rewrite H1.
    unfold git_failed, eprint_exn, sys_exit, raise, log, bind, extend. simpl.
    now rewrite <- app_assoc.
  - apply Z.eqb_eq in H. apply Z.eqb_neq in H0. rewrite H, H0.
    unfold git_failed, eprint_exn, sys_exit, raise, log, bind, extend. simpl.
    now rewrite <- app_assoc.
  - apply Z.eqb_eq in H. apply Z.eqb_neq in H0. now rewrite H, H0.
  - intros H1 H2. apply Z.eqb_eq in H1, H2. now rewrite H1, H2.
Qed.

Lemma C8_witness :
  let args := {| version := str "1.0.0"; annotated := false; push := true;
                 allow_dirty := false; arg_tag_name := None |} in
  let E := env_failing (git_push_tag args) in
  let w0 := initial (Some (str "version = '0.9.0'")) in
  let w1 := snd (precondition_gate E args w0) in
  let w2 := snd (rewrite_stage E args w1) in
  let w3 := snd ((commit_stage E args true ;; tag_stage E args) w2) in
  push args = true /\
  precondition_gate E args w0 = (inl tt, w1) /\
  rewrite_stage E args w1 = (inl true, w2) /\
  (commit_stage E args true ;; tag_stage E args) w2 = (inl tt, w3) /\
  fst (git E (trace w3) git_push_head) = 0%Z /\
  fst (git E (trace w3 ++ [EvRun git_push_head]) (git_push_tag args)) <> 0%Z /\
  exit_code (fst (main E (Parsed args) w0)) = 1%Z.
Proof.
  intros args E w0 w1 w2 w3.
  assert (H1 : precondition_gate E args w0 = (inl tt, w1))
    by (vm_compute; reflexivity).
  assert (H2 : rewrite_stage E args w1 = (inl true, w2))
    by (vm_compute; reflexivity).
  assert (H3 : (commit_stage E args true ;; tag_stage E args) w2 = (inl tt, w3))
    by (vm_compute; reflexivity).
  assert (H4 : fst (git E (trace w3) git_push_head) = 0%Z)
    by (vm_compute; reflexivity).
  assert (H5 : fst (git E (trace w3 ++ [EvRun git_push_head])
                      (git_push_tag args)) <> 0%Z)
    by (vm_compute; discriminate).
  split; [reflexivity|]. split; [exact H1|]. split; [exact H2|].
  split; [exact H3|]. split; [exact H4|]. split; [exact H5|].
  destruct (C8_push_head_then_tag E args w0 w1 w2 w3 true eq_refl H1 H2 H3)
    as (_ & _ & _ & Hfail & _).
  exact (proj2 (Hfail H4 H5)).
Defined.

(** C9, as the code has it: when the rewrite with a version has gone
    through, and that version is not empty, contains no quote, no carriage
    return and (where pattern 2 is the one in use) no newline, then a second
    rewrite with the same version finds that version in the file, reports
    that it is already set, writes nothing and returns [False]; and on
    [False] the commit stage only reports that there is nothing to
    commit. *)
Theorem C9_second_rewrite_is_noop (E : env) (new_version content : text)
  (tr : list event) (changed : bool) (w1 : world) :
  new_version <> [] ->
  quote_free new_version = true ->
  cr_free new_version = true ->
  (search assign_re (universal_newlines content) = None ->
   has_newline new_version = false) ->
  update_util_version E new_version (World (Some content) tr)
  = (inl changed, w1) ->
  update_util_version E new_version w1
  = (inl false, extend w1 [EvRead; EvPrint (already_msg new_version)]) /\
  (forall args w,
     commit_stage E args false w
     = (inl tt, extend w [EvPrint (str "no util.py change to commit")])).
Proof.
  intros Hne Hqf Hcr Hnl H. split; [|reflexivity].
  destruct (chosen_match (universal_newlines content)) as [m|] eqn:Hc.
  - destruct (text_eqb (group m 3) new_version) eqn:Heq.
    + apply text_eqb_eq in Heq.
      rewrite (update_already E _ _ _ m Hc Heq) in H.
      inversion H; subst changed w1; clear H.
      now apply (update_already E _ content _ m).
    + apply text_eqb_neq in Heq.
      destruct (write_ok E (tr ++ [EvRead])
                  (sub1 (chosen_re (universal_newlines content))
                     (_repl new_version) (universal_newlines content)))
        eqn:Hw.
      * rewrite (update_writes E _ _ _ m Hc Heq Hw) in H.
        inversion H; subst changed w1; clear H.
        destruct (chosen_rewritten _ new_version m Hc Hne Hqf Hnl)
          as (m' & Hc' & Hg).
        apply (update_already E _ _ _ m'); [|assumption].
        rewrite read_back; [exact Hc'|].
        apply (cr_free_rewritten _ _ m Hc); [|assumption].
        apply universal_newlines_cr_free.
      * destruct (update_not_written E _ _ _ m Hc Heq Hw)
          as (e & f & Hu & _).
        rewrite Hu in H. discriminate.
  - rewrite (update_no_match E _ _ _ Hc) in H. discriminate.
Qed.

Lemma C9_witness :
  let content : text := str "config = {'version': '0.9.0'}" in
  let nv : text := str "1.0.0" in
  let w1 := snd (update_util_version env_ok nv (World (Some content) [])) in
  nv <> [] /\
  quote_free nv = true /\
  cr_free nv = true /\
  (search assign_re (universal_newlines content) = None ->
   has_newline nv = false) /\
  update_util_version env_ok nv (World (Some content) []) = (inl true, w1) /\
  update_util_version env_ok nv w1
  = (inl false, extend w1 [EvRead; EvPrint (already_msg nv)]).
Proof.
  intros content nv w1.
  assert (H1 : nv <> []) by discriminate.
  assert (H2 : quote_free nv = true) by reflexivity.
  assert (Hcr : cr_free nv = true) by reflexivity.
  assert (H3 : search assign_re (universal_newlines content) = None ->
               has_newline nv = false)
    by (intros _; reflexivity).
  assert (H4 : update_util_version env_ok nv (World (Some content) [])
               = (inl true, w1)) by (vm_compute; reflexivity).
  split; [exact H1|]. split; [exact H2|]. split; [exact Hcr|].
  split; [exact H3|]. split; [exact H4|].
  apply (C9_second_rewrite_is_noop env_ok nv content [] true w1
           H1 H2 Hcr H3 H4).
Defined.

(** With a version that contains a quote the second rewrite is not a no-op:
    it finds the value cut short at that quote, writes the file again and
    returns [True].  The same happens with a version that contains a
    carriage return, which is read back as a newline. *)
Lemma C9_counterexample :
  let content : text := str "version = '1'" in
  let nv : text := str "2'3" in
  let r1 := update_util_version env_ok nv (World (Some content) []) in
  let r2 := update_util_version env_ok nv (snd r1) in
  let nv' : text := str "1" ++ [13] ++ str "2" in
  let r1' := update_util_version env_ok nv' (World (Some content) []) in
  let r2' := update_util_version env_ok nv' (snd r1') in
  fst r1 = inl true /\
  util_py (snd r1) = Some (str "version = '2'3'") /\
  fst r2 = inl true /\
  util_py (snd r2) = Some (str "version = '2'3'3'") /\
  fst r2 <> inl false /\
  fst r1' = inl true /\
  util_py (snd r1') = Some (str "version = '1" ++ [13] ++ str "2'") /\
  fst r2' = inl true /\
  fst r2' <> inl false.
Proof.
  intros content nv r1 r2 nv' r1' r2'.
  repeat split; try (vm_compute; reflexivity);
    vm_compute; discriminate.
Qed.

(** C10: [git_is_clean] looks at the standard output of the status query
    only, never at its return code: it answers [True] exactly when that
    output is blank.  So when the query fails with an empty output, the tree
    counts as clean, the gate lets the run through, and [main] goes on to
    read the target file. *)
Theorem C10_failed_status_counts_as_clean (E : env) (args : Args)
  (f : option text) (rc : Z) :
  git E [] git_status = (rc, []) ->
  rc <> 0%Z ->
  allow_dirty args = false ->
  git_is_clean E (initial f) = (inl true, World f [EvRun git_status]) /\
  precondition_gate E args (initial f) = (inl tt, World f [EvRun git_status]) /\
  main E (Parsed args) (initial f) = after_gate E args (World f [EvRun git_status]) /\
  (exists evs, trace (snd (main E (Parsed args) (initial f)))
               = [EvRun git_status; EvRead] ++ evs) /\
  (forall E' w,
     fst (git_is_clean E' w)
     = inl (text_eqb (strip (snd (git E' (trace w) git_status))) [])).
Proof.
  intros Hg Hrc Ha.
  assert (Hopen : gate_open E args []) by (right; now rewrite Hg).
  assert (Hgate := gate_pass E args f [] Hopen).
  unfold gate_events in Hgate. rewrite Ha in Hgate. simpl in Hgate.
  assert (Hmain := main_after_gate E args _ _ Hgate).
  repeat split; auto.
  - unfold git_is_clean, bind, subprocess_run, ret, initial. simpl.
    now rewrite Hg.
  - unfold initial. rewrite Hmain.
    apply (after_gate_reads E args (World f [EvRun git_status])).
Qed.

Lemma C10_witness :
  let args := {| version := str "1.2.3"; annotated := false; push := false;
                 allow_dirty := false; arg_tag_name := None |} in
  let f := Some (str "version = '1.2.2'") in
  git env_status_fails [] git_status = (128%Z, []) /\
  128%Z <> 0%Z /\
  allow_dirty args = false /\
  precondition_gate env_status_fails args (initial f)
  = (inl tt, World f [EvRun git_status]).
Proof.
  intros args f.
  split; [reflexivity|]. split; [discriminate|]. split; [reflexivity|].
  apply (C10_failed_status_counts_as_clean env_status_fails args f 128%Z
           eq_refl ltac:(discriminate) eq_refl).
Defined.

(** * Further properties of the script *)

(** ** White space *)

Lemma lstrip_nil_iff (s : text) : lstrip s = [] <-> blank s = true.
Proof.
  induction s as [|c s IH]; simpl; [tauto|].
  change (blank (c :: s)) with (isspace c && blank s).
  destruct (isspace c); simpl; [exact IH|].
  split; discriminate.
Qed.

Lemma lstrip_head (s : text) (c : char) (r : text) :
  lstrip s = c :: r -> isspace c = false.
Proof.
  induction s as [|x s IH]; simpl; [discriminate|].
  destruct (isspace x) eqn:Hx; [exact IH|].
  intros H; inversion H; subst. exact Hx.
Qed.

Lemma blank_rev (s : text) : blank (rev s) = blank s.
Proof.
  unfold blank, all_in.
  destruct (forallb (fun c => cset_mem c CATEGORY_SPACE) s) eqn:H.
  - rewrite forallb_forall in *. intros c Hc. apply H. now apply in_rev.
  - destruct (forallb (fun c => cset_mem c CATEGORY_SPACE) (rev s)) eqn:H';
      [|reflexivity].
    rewrite <- H. symmetry. rewrite forallb_forall in *.
    intros c Hc. apply H'. now apply in_rev in Hc.
Qed.

Lemma strip_nil_iff (s : text) : strip s = [] <-> blank s = true.
Proof.
  unfold strip. split.
  - intros H. apply (f_equal (@rev char)) in H.
    rewrite rev_involutive in H. simpl in H.
    apply lstrip_nil_iff in H. rewrite blank_rev in H.
    destruct (lstrip s) as [|c r] eqn:Hs; [now apply lstrip_nil_iff|].
    apply lstrip_head in Hs. simpl in H.
    change (isspace c && blank r = true) in H. now rewrite Hs in H.
  - intros H. apply lstrip_nil_iff in H. now rewrite H.
Qed.

(** X1: [git_is_clean] runs the status query once, touches nothing else,
    and answers [True] exactly when every character of the query's output is
    white space. *)
Theorem X1_git_is_clean_iff_blank (E : env) (w : world) :
  git_is_clean E w
  = (inl (blank (snd (git E (trace w) git_status))),
     extend w [EvRun git_status]).
Proof.
  unfold git_is_clean, bind, subprocess_run, ret. simpl.
  unfold extend. do 2 f_equal.
  destruct (blank (snd (git E (trace w) git_status))) eqn:Hb.
  - apply strip_nil_iff in Hb. rewrite Hb. reflexivity.
  - apply text_eqb_neq. intros Hs. apply strip_nil_iff in Hs. congruence.
Qed.

(** ** Which commands a run issues *)

Lemma stage_event_incl (cmds cmds' : list (list text)) (e : event) :
  incl cmds cmds' -> stage_event cmds e -> stage_event cmds' e.
Proof. intros H. destruct e; simpl; auto. Qed.

Lemma later_stage_event (cmds : list (list text)) (e : event) :
  later_event cmds e -> stage_event cmds e.
Proof. destruct e; simpl; auto; contradiction. Qed.

Lemma appends_gate (E : env) (args : Args) :
  appends (stage_event (if allow_dirty args then [] else [git_status]))
          (precondition_gate E args).
Proof.
  unfold precondition_gate, git_is_clean, eprint, sys_exit.
  apply appends_bind.
  - destruct (allow_dirty args); simpl; appends_tac.
  - intros [|]; appends_tac.
Qed.

Lemma appends_commit_stage (E : env) (args : Args) (changed : bool) :
  appends (later_event [git_add E; git_commit args])
          (commit_stage E args changed).
Proof. unfold commit_stage, run, print. destruct changed; appends_tac. Qed.

Lemma appends_tag_stage (E : env) (args : Args) :
  appends (later_event [git_tag args]) (tag_stage E args).
Proof. unfold tag_stage, run, print. appends_tac. Qed.

Lemma appends_push_stage_cmds (E : env) (args : Args) :
  appends (later_event (if push args then [git_push_head; git_push_tag args]
                        else []))
          (push_stage E args).
Proof.
  unfold push_stage, run, print. destruct (push args); appends_tac.
Qed.

Lemma later_event_incl (cmds cmds' : list (list text)) (e : event) :
  incl cmds cmds' -> later_event cmds e -> later_event cmds' e.
Proof. intros H. destruct e; simpl; auto. Qed.

(** The stages after the rewrite neither read nor write the target file,
    and run only their own commands. *)
Lemma appends_git_stages_later (E : env) (args : Args) (changed : bool) :
  appends
    (later_event
       ([git_add E; git_commit args; git_tag args]
        ++ (if push args then [git_push_head; git_push_tag args] else [])))
    (try_except
       (commit_stage E args changed ;; tag_stage E args ;; push_stage E args)
       git_failed).
Proof.
  apply appends_try; [|intros e; apply appends_git_failed; simpl; auto].
  apply appends_bind.
  { eapply appends_impl; [|apply appends_commit_stage].
    intros e. apply later_event_incl.
    intros c [<-|[<-|[]]]; simpl; auto. }
  intros _. apply appends_bind.
  { eapply appends_impl; [|apply appends_tag_stage].
    intros e. apply later_event_incl.
    intros c [<-|[]]; simpl; auto. }
  intros _.
  eapply appends_impl; [|apply appends_push_stage_cmds].
  intros e. apply later_event_incl.
  intros c Hc. simpl. auto.
Qed.

Lemma appends_main_cmds (E : env) (args : Args) :
  appends (stage_event (main_cmds E args)) (main E (Parsed args)).
Proof.
  rewrite main_parsed. apply appends_bind.
  { eapply appends_impl; [|apply appends_gate].
    intros e. apply stage_event_incl. unfold main_cmds.
    apply incl_appl, incl_refl. }
  intros _. apply appends_bind.
  { apply appends_rewrite_stage; simpl; auto. }
  intros changed.
  eapply appends_impl; [|apply appends_git_stages_later].
  intros e He. apply later_stage_event in He. revert He.
  apply stage_event_incl. unfold main_cmds. apply incl_appr, incl_refl.
Qed.

Lemma main_command_in (E : env) (args : Args) (f : option text)
  (cmd : list text) :
  In (EvRun cmd) (trace (snd (main E (Parsed args) (initial f)))) ->
  In cmd (main_cmds E args).
Proof.
  intros Hin.
  destruct (appends_main_cmds E args (initial f)) as (evs & Ht & Hok).
  simpl in Ht. rewrite Ht in Hin.
  rewrite Forall_forall in Hok. apply (Hok _ Hin).
Qed.

(** X2: with --allow-dirty the status query is never run, whatever the
    state of the tree: the run starts by reading the target file. *)
Theorem X2_allow_dirty_skips_status (E : env) (args : Args) (f : option text) :
  allow_dirty args = true ->
  ~ In (EvRun git_status) (trace (snd (main E (Parsed args) (initial f)))) /\
  exists evs, trace (snd (main E (Parsed args) (initial f))) = EvRead :: evs.
Proof.
  intros Ha. split.
  - intros Hin. apply main_command_in in Hin.
    unfold main_cmds in Hin. rewrite Ha in Hin. simpl in Hin.
    unfold git_status, git_add, git_commit, git_tag, git_push_head,
      git_push_tag in Hin.
    destruct (push args), (annotated args); simpl in Hin;
      repeat (destruct Hin as [Hin|Hin]; [discriminate Hin|]);
      contradiction.
  - assert (Hopen : gate_open E args []) by (now left).
    unfold initial.
    rewrite (main_after_gate E args _ _ (gate_pass E args f [] Hopen)).
    unfold gate_events. rewrite Ha. simpl.
    apply (after_gate_reads E args (World f [])).
Qed.

Lemma X2_witness :
  let args := {| version := str "1.2.3"; annotated := false; push := false;
                 allow_dirty := true; arg_tag_name := None |} in
  let f := Some (str "version = '1.2.2'") in
  allow_dirty args = true /\
  ~ In (EvRun git_status) (trace (snd (main env_dirty (Parsed args) (initial f)))).
Proof.
  intros args f. split; [reflexivity|].
  apply (X2_allow_dirty_skips_status env_dirty args f eq_refl).
Defined.

(** X3: without --push no push command is ever run. *)
Theorem X3_no_push_unless_asked (E : env) (args : Args) (f : option text) :
  push args = false ->
  ~ In (EvRun git_push_head) (trace (snd (main E (Parsed args) (initial f)))) /\
  ~ In (EvRun (git_push_tag args)) (trace (snd (main E (Parsed args) (initial f)))).
Proof.
  intros Hp. split; intros Hin; apply main_command_in in Hin;
    unfold main_cmds in Hin; rewrite Hp in Hin;
    unfold git_status, git_add, git_commit, git_tag, git_push_head,
      git_push_tag in Hin;
    destruct (allow_dirty args), (annotated args); simpl in Hin;
    repeat (destruct Hin as [Hin|Hin]; [discriminate Hin|]);
    contradiction.
Qed.

Lemma X3_witness :
  let args := {| version := str "1.2.3"; annotated := true; push := false;
                 allow_dirty := false; arg_tag_name := None |} in
  let f := Some (str "version = '1.2.2'") in
  push args = false /\
  ~ In (EvRun git_push_head) (trace (snd (main env_ok (Parsed args) (initial f)))).
Proof.
  intros args f. split; [reflexivity|].
  apply (X3_no_push_unless_asked env_ok args f eq_refl).
Defined.

(** X4: without --annotated every tag command of the run is the bare
    [git tag] with the tag name and no message; the tag name is the
    --tag-name value when one is given and not empty, and the version
    otherwise. *)
Theorem X4_lightweight_tag_has_no_message (E : env) (args : Args)
  (f : option text) (rest : list text) :
  annotated args = false ->
  In (EvRun (str "git" :: str "tag" :: rest))
     (trace (snd (main E (Parsed args) (initial f)))) ->
  rest = [tag_name args] /\
  tag_name args = match arg_tag_name args with
                  | Some (c :: t) => c :: t
                  | _ => version args
                  end.
Proof.
  intros Ha Hin. split; [|reflexivity].
  apply main_command_in in Hin. unfold main_cmds in Hin.
  unfold git_status, git_add, git_commit, git_tag, git_push_head,
    git_push_tag in Hin.
  rewrite Ha in Hin.
  destruct (allow_dirty args), (push args); simpl in Hin;
    repeat (destruct Hin as [Hin|Hin];
            [first [discriminate Hin | now inversion Hin]|]);
    contradiction.
Qed.

Lemma X4_witness :
  let args := {| version := str "2.0.0"; annotated := false; push := false;
                 allow_dirty := false;
                 arg_tag_name := Some (str "v2.0.0") |} in
  let f := Some (str "version = '2.0.0'") in
  annotated args = false /\
  In (EvRun (str "git" :: str "tag" :: [str "v2.0.0"]))
     (trace (snd (main env_ok (Parsed args) (initial f)))) /\
  [str "v2.0.0"] = [tag_name args].
Proof.
  intros args f.
  assert (Hin : In (EvRun (str "git" :: str "tag" :: [str "v2.0.0"]))
                   (trace (snd (main env_ok (Parsed args) (initial f))))).
  { vm_compute. repeat first [left; reflexivity | right]. }
  split; [reflexivity|]. split; [exact Hin|].
  apply (X4_lightweight_tag_has_no_message env_ok args f _ eq_refl Hin).
Defined.

(** ** Failures of the rewrite stage *)

Lemma rewrite_stage_changed (E : env) (args : Args) (content : text)
  (tr : list event) (m : Match) :
  let txt := universal_newlines content in
  let new_txt := firstn (group_start m 3) txt ++ version args
                 ++ skipn (group_end m 3) txt in
  chosen_match txt = Some m ->
  group m 3 <> version args ->
  write_ok E (tr ++ [EvRead]) new_txt = true ->
  rewrite_stage E args (World (Some content) tr)
  = (inl true,
     World (Some (translate_newlines E new_txt))
       (tr ++ [EvRead; EvWrite new_txt;
               EvPrint (updated_msg E (group m 3) (version args))])).
Proof.
  intros txt new_txt Hc Hne Hw. unfold rewrite_stage, try_except.
  unfold new_txt in *. rewrite <- (sub1_chosen txt _ m Hc) in *.
  now rewrite (update_writes E _ content tr m Hc Hne Hw).
Qed.

Lemma rewrite_stage_not_written (E : env) (args : Args) (content : text)
  (tr : list event) (m : Match) :
  let txt := universal_newlines content in
  let new_txt := firstn (group_start m 3) txt ++ version args
                 ++ skipn (group_end m 3) txt in
  chosen_match txt = Some m ->
  group m 3 <> version args ->
  write_ok E (tr ++ [EvRead]) new_txt = false ->
  exists e f,
    rewrite_stage E args (World (Some content) tr)
    = (inr (SystemExit 1),
       World f
         (tr ++ [EvRead; EvWrite new_txt;
                 EvErrExn (str "failed to update util.py:") e])) /\
    (e = OSError \/ e = UnicodeEncodeError) /\
    (disk E (tr ++ [EvRead]) new_txt = OpenRefused ->
     e = OSError /\ f = Some content) /\
    (disk E (tr ++ [EvRead]) new_txt <> OpenRefused ->
     encodable new_txt = false -> e = UnicodeEncodeError /\ f = Some []) /\
    (forall r, disk E (tr ++ [EvRead]) new_txt = WriteFailed r ->
               encodable new_txt = true -> e = OSError /\ f = r).
Proof.
  intros txt new_txt Hc Hne Hw.
  unfold new_txt in *. rewrite <- (sub1_chosen txt _ m Hc) in *.
  destruct (update_not_written E _ content tr m Hc Hne Hw)
    as (e & f & Hu & He & Hrest).
  exists e, f. split; [|split; [exact He|exact Hrest]].
  unfold rewrite_stage, try_except. rewrite Hu.
  destruct He as [-> | ->];
    unfold eprint_exn, sys_exit, raise, log, bind; simpl;
    now rewrite <- app_assoc.
Qed.

(** X5: when plugin/util.py cannot be read, a run that gets past the gate
    prints [failed to update util.py:] with the error and exits with code 1;
    it runs no git command after the gate. *)
Theorem X5_unreadable_file_exits_1 (E : env) (args : Args) :
  gate_open E args [] ->
  main E (Parsed args) (initial None)
  = (inr (SystemExit 1),
     World None
       (gate_events args
        ++ [EvRead; EvErrExn (str "failed to update util.py:") OSError])) /\
  exit_code (fst (main E (Parsed args) (initial None))) = 1%Z.
Proof.
  intros Hopen.
  assert (Hm : main E (Parsed args) (initial None)
    = (inr (SystemExit 1),
       World None
         (gate_events args
          ++ [EvRead; EvErrExn (str "failed to update util.py:") OSError]))).
  { unfold initial.
    rewrite (main_after_gate E args _ _ (gate_pass E args None [] Hopen)).
    unfold after_gate, bind, rewrite_stage, try_except, update_util_version,
      bind, read_text, eprint_exn, sys_exit, raise, log.
    simpl. now rewrite <- app_assoc. }
  split; [exact Hm|]. now rewrite Hm.
Qed.

Lemma X5_witness :
  let args := {| version := str "1.2.3"; annotated := false; push := true;
                 allow_dirty := true; arg_tag_name := None |} in
  gate_open env_ok args [] /\
  exit_code (fst (main env_ok (Parsed args) (initial None))) = 1%Z.
Proof.
  intros args.
  assert (Hopen : gate_open env_ok args []) by (left; reflexivity).
  split; [exact Hopen|].
  apply (X5_unreadable_file_exits_1 env_ok args Hopen).
Defined.

(** X6: when a pattern matches with a different value and the write of
    plugin/util.py does not go through, the run prints [failed to update
    util.py:] with the error and exits with code 1 after the failed write;
    no git command follows.  The file keeps its content only if it could
    not be opened: once opened it has been truncated, so it is left empty
    when the new text cannot be encoded, and else holds what the failed
    write left of it. *)
Theorem X6_write_failure_exits_1 (E : env) (args : Args) (content : text)
  (m : Match) :
  let txt := universal_newlines content in
  let new_txt := firstn (group_start m 3) txt ++ version args
                 ++ skipn (group_end m 3) txt in
  gate_open E args [] ->
  chosen_match txt = Some m ->
  group m 3 <> version args ->
  write_ok E (gate_events args ++ [EvRead]) new_txt = false ->
  exists e f,
    main E (Parsed args) (initial (Some content))
    = (inr (SystemExit 1),
       World f
         (gate_events args
          ++ [EvRead; EvWrite new_txt;
              EvErrExn (str "failed to update util.py:") e])) /\
    exit_code (fst (main E (Parsed args) (initial (Some content)))) = 1%Z /\
    (e = OSError \/ e = UnicodeEncodeError) /\
    (disk E (gate_events args ++ [EvRead]) new_txt = OpenRefused ->
     e = OSError /\ f = Some content) /\
    (disk E (gate_events args ++ [EvRead]) new_txt <> OpenRefused ->
     encodable new_txt = false -> e = UnicodeEncodeError /\ f = Some []) /\
    (forall r, disk E (gate_events args ++ [EvRead]) new_txt = WriteFailed r ->
               encodable new_txt = true -> e = OSError /\ f = r).
Proof.
  intros txt new_txt Hopen Hc Hne Hw.
  destruct (rewrite_stage_not_written E args content (gate_events args) m
              Hc Hne Hw) as (e & f & Hr & He & Hrest).
  exists e, f.
  assert (Hm : main E (Parsed args) (initial (Some content))
    = (inr (SystemExit 1),
       World f
         (gate_events args
          ++ [EvRead; EvWrite new_txt;
              EvErrExn (str "failed to update util.py:") e]))).
  { unfold initial.
    rewrite (main_after_gate E args _ _ (gate_pass E args _ [] Hopen)).
    simpl app. unfold after_gate, bind at 1. now rewrite Hr. }
  split; [exact Hm|]. split; [now rewrite Hm|].
  split; [exact He|exact Hrest].
Qed.

Lemma X6_witness :
  let args := {| version := str "1.0.0"; annotated := false; push := false;
                 allow_dirty := false; arg_tag_name := None |} in
  let content : text := str "version = '0.9.0'" in
  let txt := universal_newlines content in
  exists m,
    gate_open env_disk_full args [] /\
    chosen_match txt = Some m /\
    group m 3 <> version args /\
    write_ok env_disk_full (gate_events args ++ [EvRead])
      (firstn (group_start m 3) txt ++ version args
       ++ skipn (group_end m 3) txt) = false /\
    exit_code (fst (main env_disk_full (Parsed args)
                      (initial (Some content)))) = 1%Z /\
    util_py (snd (main env_disk_full (Parsed args) (initial (Some content))))
    = Some [] /\
    util_py (snd (main env_readonly (Parsed args) (initial (Some content))))
    = Some content.
Proof.
  intros args content txt.
  destruct (chosen_match txt) as [m|] eqn:Hc; [|discriminate].
  exists m.
  assert (Hopen : gate_open env_disk_full args [])
    by (right; vm_compute; reflexivity).
  assert (Hg : group m 3 <> version args).
  { vm_compute in Hc. inversion Hc. vm_compute. discriminate. }
  assert (Hw : write_ok env_disk_full (gate_events args ++ [EvRead])
                 (firstn (group_start m 3) txt ++ version args
                  ++ skipn (group_end m 3) txt) = false) by reflexivity.
  split; [exact Hopen|]. split; [reflexivity|]. split; [exact Hg|].
  split; [exact Hw|].
  destruct (X6_write_failure_exits_1 env_disk_full args content m
              Hopen Hc Hg Hw) as (e & f & _ & Hx & _).
  split; [exact Hx|]. split; vm_compute; reflexivity.
Defined.

(** ** The git stages *)

Lemma main_after_rewrite (E : env) (args : Args) (f : option text)
  (changed : bool) (w2 : world) :
  gate_open E args [] ->
  rewrite_stage E args (World f (gate_events args)) = (inl changed, w2) ->
  main E (Parsed args) (initial f)
  = try_except
      (commit_stage E args changed ;; tag_stage E args ;; push_stage E args)
      git_failed w2.
Proof.
  intros Hopen Hrw. unfold initial.
  rewrite (main_after_gate E args _ _ (gate_pass E args f [] Hopen)).
  simpl app. unfold after_gate, bind at 1. now rewrite Hrw.
Qed.

Lemma git_failed_called (cmd : list text) (rc : Z) (w : world) :
  git_failed (CalledProcessError cmd rc) w
  = (inr (SystemExit 1),
     extend w [EvErrExn (str "git command failed:")
                 (CalledProcessError cmd rc)]).
Proof. reflexivity. Qed.

Lemma extend_extend (w : world) (evs evs' : list event) :
  extend (extend w evs) evs' = extend w (evs ++ evs').
Proof. unfold extend. simpl. now rewrite <- app_assoc. Qed.

(** X7: when the rewrite changed the file, the run stages exactly
    plugin/util.py and then commits with the message [Bump version to]
    followed by the version.  If [git add] fails the commit is not
    attempted, and if the commit fails no tag is created; either way the
    run exits with code 1 and the file stays rewritten. *)
Theorem X7_commit_failure_keeps_rewrite (E : env) (args : Args)
  (content : text) (m : Match) :
  let txt := universal_newlines content in
  let new_txt := firstn (group_start m 3) txt ++ version args
                 ++ skipn (group_end m 3) txt in
  gate_open E args [] ->
  chosen_match txt = Some m ->
  group m 3 <> version args ->
  write_ok E (gate_events args ++ [EvRead]) new_txt = true ->
  let w2 := World (Some (translate_newlines E new_txt))
              (gate_events args
               ++ [EvRead; EvWrite new_txt;
                   EvPrint (updated_msg E (group m 3) (version args))]) in
  let rc_add := fst (git E (trace w2) (git_add E)) in
  let rc_commit := fst (git E (trace w2 ++ [EvRun (git_add E)])
                          (git_commit args)) in
  git_add E = [str "git"; str "add"; UTIL_PATH E] /\
  git_commit args
  = [str "git"; str "commit"; str "-m";
     str "Bump version to " ++ version args] /\
  (rc_add <> 0%Z ->
   main E (Parsed args) (initial (Some content))
   = (inr (SystemExit 1),
      extend w2 [EvRun (git_add E);
                 EvErrExn (str "git command failed:")
                   (CalledProcessError (git_add E) rc_add)])) /\
  (rc_add = 0%Z -> rc_commit <> 0%Z ->
   main E (Parsed args) (initial (Some content))
   = (inr (SystemExit 1),
      extend w2 [EvRun (git_add E); EvRun (git_commit args);
                 EvErrExn (str "git command failed:")
                   (CalledProcessError (git_commit args) rc_commit)])).
Proof.
  intros txt new_txt Hopen Hc Hne Hw w2 rc_add rc_commit.
  split; [reflexivity|]. split; [reflexivity|].
  assert (Hmain := main_after_rewrite E args (Some content) true w2 Hopen
                     (rewrite_stage_changed E args content _ m Hc Hne Hw)).
  rewrite Hmain. unfold try_except, commit_stage.
  split.
  - intros H. apply Z.eqb_neq in H.
    unfold bind at 1. unfold bind at 1. rewrite run_result. fold rc_add.
    rewrite H.
    rewrite git_failed_called, extend_extend. reflexivity.
  - intros H H'. apply Z.eqb_eq in H. apply Z.eqb_neq in H'.
    unfold bind at 1. unfold bind at 1. rewrite run_result. fold rc_add.
    rewrite H.
    unfold bind at 1. rewrite run_result.
    change (fst (git E (trace (extend w2 [EvRun (git_add E)]))
                   (git_commit args))) with rc_commit.
    rewrite H'. rewrite git_failed_called, !extend_extend. reflexivity.
Qed.

Lemma X7_witness :
  let args := {| version := str "1.0.0"; annotated := false; push := true;
                 allow_dirty := false; arg_tag_name := None |} in
  let E := env_failing (git_commit args) in
  let content : text := str "version = '0.9.0'" in
  let txt := universal_newlines content in
  exists m,
    gate_open E args [] /\
    chosen_match txt = Some m /\
    group m 3 <> version args /\
    write_ok E (gate_events args ++ [EvRead])
      (firstn (group_start m 3) txt ++ version args
       ++ skipn (group_end m 3) txt) = true /\
    util_py (snd (main E (Parsed args) (initial (Some content))))
    = Some (str "version = '1.0.0'") /\
    exit_code (fst (main E (Parsed args) (initial (Some content)))) = 1%Z.
Proof.
  intros args E content txt.
  destruct (chosen_match txt) as [m|] eqn:Hc; [|discriminate].
  exists m.
  assert (Hopen : gate_open E args []) by (right; vm_compute; reflexivity).
  assert (Hg : group m 3 <> version args).
  { vm_compute in Hc. inversion Hc. vm_compute. discriminate. }
  assert (Hw : write_ok E (gate_events args ++ [EvRead])
                 (firstn (group_start m 3) txt ++ version args
                  ++ skipn (group_end m 3) txt) = true).
  { vm_compute in Hc. inversion Hc. vm_compute. reflexivity. }
  destruct (X7_commit_failure_keeps_rewrite E args content m Hopen Hc Hg Hw)
    as (_ & _ & _ & Hfail).
  split; [exact Hopen|]. split; [reflexivity|]. split; [exact Hg|].
  split; [exact Hw|].
  rewrite Hfail.
  - vm_compute in Hc. inversion Hc. split; vm_compute; reflexivity.
  - vm_compute in Hc. inversion Hc. vm_compute. reflexivity.
  - vm_compute in Hc. inversion Hc. vm_compute. discriminate.
Defined.

(** X8: if the tag command fails, the run prints the error and exits with
    code 1 right away; with --push too, nothing is pushed. *)
Theorem X8_tag_failure_stops_run (E : env) (args : Args) (w0 w1 w2 w3 : world)
  (changed : bool) :
  precondition_gate E args w0 = (inl tt, w1) ->
  rewrite_stage E args w1 = (inl changed, w2) ->
  commit_stage E args changed w2 = (inl tt, w3) ->
  fst (git E (trace w3) (git_tag args)) <> 0%Z ->
  main E (Parsed args) w0
  = (inr (SystemExit 1),
     extend w3 [EvRun (git_tag args);
                EvErrExn (str "git command failed:")
                  (CalledProcessError (git_tag args)
                     (fst (git E (trace w3) (git_tag args))))]) /\
  exit_code (fst (main E (Parsed args) w0)) = 1%Z.
Proof.
  intros Hgate Hrw Hcommit Hrc.
  assert (Hm : main E (Parsed args) w0
    = (inr (SystemExit 1),
       extend w3 [EvRun (git_tag args);
                  EvErrExn (str "git command failed:")
                    (CalledProcessError (git_tag args)
                       (fst (git E (trace w3) (git_tag args))))])).
  { rewrite (main_after_gate E args _ _ Hgate).
    unfold after_gate, bind at 1. rewrite Hrw.
    rewrite (try_bind_ok (commit_stage E args changed)
               (fun _ => tag_stage E args ;; push_stage E args)
               git_failed w2 w3 tt Hcommit).
    unfold try_except, tag_stage. unfold bind at 1. unfold bind at 1.
    rewrite run_result. apply Z.eqb_neq in Hrc. rewrite Hrc.
    rewrite git_failed_called, extend_extend. reflexivity. }
  split; [exact Hm|]. now rewrite Hm.
Qed.

Lemma X8_witness :
  let args := {| version := str "1.0.0"; annotated := true; push := true;
                 allow_dirty := false; arg_tag_name := None |} in
  let E := env_failing (git_tag args) in
  let w0 := initial (Some (str "version = '1.0.0'")) in
  let w1 := snd (precondition_gate E args w0) in
  let w2 := snd (rewrite_stage E args w1) in
  let w3 := snd (commit_stage E args false w2) in
  precondition_gate E args w0 = (inl tt, w1) /\
  rewrite_stage E args w1 = (inl false, w2) /\
  commit_stage E args false w2 = (inl tt, w3) /\
  fst (git E (trace w3) (git_tag args)) <> 0%Z /\
  exit_code (fst (main E (Parsed args) w0)) = 1%Z.
Proof.
  intros args E w0 w1 w2 w3.
  assert (H1 : precondition_gate E args w0 = (inl tt, w1))
    by (vm_compute; reflexivity).
  assert (H2 : rewrite_stage E args w1 = (inl false, w2))
    by (vm_compute; reflexivity).
  assert (H3 : commit_stage E args false w2 = (inl tt, w3))
    by (vm_compute; reflexivity).
  assert (H4 : fst (git E (trace w3) (git_tag args)) <> 0%Z)
    by (vm_compute; discriminate).
  split; [exact H1|]. split; [exact H2|]. split; [exact H3|].
  split; [exact H4|].
  apply (X8_tag_failure_stops_run E args w0 w1 w2 w3 false H1 H2 H3 H4).
Defined.

(** X9: when the tree is clean (or the check waived), a pattern matches
    with a different value, the write goes through and every git command
    succeeds, the run rewrites the value, stages and commits the file, tags,
    pushes [HEAD] and the tag if --push is given, in this order, and exits
    with code 0. *)
Theorem X9_successful_run (E : env) (args : Args) (content : text)
  (m : Match) :
  let txt := universal_newlines content in
  let new_txt := firstn (group_start m 3) txt ++ version args
                 ++ skipn (group_end m 3) txt in
  git_always_ok E ->
  gate_open E args [] ->
  chosen_match txt = Some m ->
  group m 3 <> version args ->
  write_ok E (gate_events args ++ [EvRead]) new_txt = true ->
  main E (Parsed args) (initial (Some content))
  = (inl tt,
     World (Some (translate_newlines E new_txt))
       (gate_events args
        ++ [EvRead; EvWrite new_txt;
            EvPrint (updated_msg E (group m 3) (version args));
            EvRun (git_add E); EvRun (git_commit args);
            EvPrint (str "committed util.py change");
            EvRun (git_tag args);
            EvPrint (str "created tag " ++ tag_name args)]
        ++ (if push args
            then [EvRun git_push_head; EvRun (git_push_tag args);
                  EvPrint (str "pushed HEAD and tag to origin")]
            else []))) /\
  exit_code (fst (main E (Parsed args) (initial (Some content)))) = 0%Z /\
  git_add E = [str "git"; str "add"; UTIL_PATH E] /\
  git_commit args
  = [str "git"; str "commit"; str "-m";
     str "Bump version to " ++ version args] /\
  git_tag args
  = (if annotated args
     then [str "git"; str "tag"; str "-a"; tag_name args; str "-m";
           str "Release " ++ tag_name args]
     else [str "git"; str "tag"; tag_name args]) /\
  git_push_head = [str "git"; str "push"; str "origin"; str "HEAD"] /\
  git_push_tag args = [str "git"; str "push"; str "origin"; tag_name args].
Proof.
  intros txt new_txt Hok Hopen Hc Hne Hw.
  assert (Hrun : forall cmd w,
            run E cmd w = (inl (git E (trace w) cmd), extend w [EvRun cmd])).
  { intros cmd w. rewrite run_result, Hok. reflexivity. }
  assert (Hm : main E (Parsed args) (initial (Some content))
  = (inl tt,
     World (Some (translate_newlines E new_txt))
       (gate_events args
        ++ [EvRead; EvWrite new_txt;
            EvPrint (updated_msg E (group m 3) (version args));
            EvRun (git_add E); EvRun (git_commit args);
            EvPrint (str "committed util.py change");
            EvRun (git_tag args);
            EvPrint (str "created tag " ++ tag_name args)]
        ++ (if push args
            then [EvRun git_push_head; EvRun (git_push_tag args);
                  EvPrint (str "pushed HEAD and tag to origin")]
            else [])))).
  { rewrite (main_after_rewrite E args (Some content) true _ Hopen
               (rewrite_stage_changed E args content _ m Hc Hne Hw)).
    fold txt. fold new_txt.
    unfold try_except, commit_stage, tag_stage, push_stage, bind.
    unfold print, log, ret.
    destruct (push args);
      repeat (rewrite Hrun; unfold extend; simpl);
      rewrite <- !app_assoc; reflexivity. }
  split; [exact Hm|]. split; [now rewrite Hm|].
  repeat split; reflexivity.
Qed.

Lemma X9_witness :
  let args := {| version := str "1.0.0"; annotated := false; push := false;
                 allow_dirty := false; arg_tag_name := None |} in
  let content : text := str "version = " ++ [dq] ++ str "0.9.0" ++ [dq] in
  let txt := universal_newlines content in
  exists m,
    git_always_ok env_ok /\
    gate_open env_ok args [] /\
    chosen_match txt = Some m /\
    group m 3 <> version args /\
    write_ok env_ok (gate_events args ++ [EvRead])
      (firstn (group_start m 3) txt ++ version args
       ++ skipn (group_end m 3) txt) = true /\
    util_py (snd (main env_ok (Parsed args) (initial (Some content))))
    = Some (str "version = " ++ [dq] ++ str "1.0.0" ++ [dq]) /\
    exit_code (fst (main env_ok (Parsed args) (initial (Some content))))
    = 0%Z.
Proof.
  intros args content txt.
  destruct (chosen_match txt) as [m|] eqn:Hc; [|discriminate].
  exists m.
  assert (Hok : git_always_ok env_ok) by (intros tr cmd; reflexivity).
  assert (Hopen : gate_open env_ok args [])
    by (right; vm_compute; reflexivity).
  assert (Hg : group m 3 <> version args).
  { vm_compute in Hc. inversion Hc. vm_compute. discriminate. }
  assert (Hw : write_ok env_ok (gate_events args ++ [EvRead])
                 (firstn (group_start m 3) txt ++ version args
                  ++ skipn (group_end m 3) txt) = true).
  { vm_compute in Hc. inversion Hc. vm_compute. reflexivity. }
  destruct (X9_successful_run env_ok args content m Hok Hopen Hc Hg Hw)
    as (Hm & He & _).
  split; [exact Hok|]. split; [exact Hopen|]. split; [reflexivity|].
  split; [exact Hg|]. split; [exact Hw|]. split; [|exact He].
  rewrite Hm. vm_compute in Hc. inversion Hc. vm_compute. reflexivity.
Defined.

(** ** How a run ends *)

Lemma bind_inl_inv {A B : Type} (m : M A) (f : A -> M B) (w w' : world)
  (b : B) :
  bind m f w = (inl b, w') ->
  exists a w1, m w = (inl a, w1) /\ f a w1 = (inl b, w').
Proof.
  unfold bind. destruct (m w) as [[a|e] w1]; [eauto|discriminate].
Qed.

Lemma raises_only_bind {A B : Type} (P : exn -> Prop) (m : M A)
  (f : A -> M B) :
  raises_only P m -> (forall a, raises_only P (f a)) ->
  raises_only P (bind m f).
Proof.
  intros Hm Hf w e w'. unfold bind.
  destruct (m w) as [[a|e1] w1] eqn:Hmw.
  - apply Hf.
  - intros H; inversion H; subst. eapply Hm; eassumption.
Qed.

Lemma raises_only_log (P : exn -> Prop) (e : event) : raises_only P (log e).
Proof. intros w x w' H. discriminate. Qed.

Lemma raises_only_ret {A : Type} (P : exn -> Prop) (a : A) :
  raises_only P (ret a).
Proof. intros w x w' H. discriminate. Qed.

Lemma raises_only_run (E : env) (cmd : list text) :
  raises_only (fun e => exists c rc, e = CalledProcessError c rc) (run E cmd).
Proof.
  intros w e w'. rewrite run_result.
  destruct (fst (git E (trace w) cmd) =? 0)%Z; intros H; inversion H; eauto.
Qed.

(** The git stages raise nothing but [CalledProcessError]. *)
Lemma raises_only_git_stages (E : env) (args : Args) (changed : bool) :
  raises_only (fun e => exists c rc, e = CalledProcessError c rc)
    (commit_stage E args changed ;; tag_stage E args ;; push_stage E args).
Proof.
  unfold commit_stage, tag_stage, push_stage, print.
  destruct changed, (push args);
    repeat first
      [ apply raises_only_bind; [|intros ?]
      | apply raises_only_run | apply raises_only_log
      | apply raises_only_ret ].
Qed.

(** So with the handler of lines 118-120 they return or exit with code 1. *)
Lemma git_stages_result (E : env) (args : Args) (changed : bool) (w : world) :
  fst (try_except
         (commit_stage E args changed ;; tag_stage E args ;; push_stage E args)
         git_failed w) = inl tt \/
  fst (try_except
         (commit_stage E args changed ;; tag_stage E args ;; push_stage E args)
         git_failed w) = inr (SystemExit 1).
Proof.
  unfold try_except.
  destruct ((commit_stage E args changed ;; tag_stage E args ;;
             push_stage E args) w) as [[[]|e] w'] eqn:Hb.
  - now left.
  - right. destruct (raises_only_git_stages E args changed w e w' Hb)
      as (c & rc & ->). reflexivity.
Qed.

Lemma keeps_gate (E : env) (args : Args) : keeps (precondition_gate E args).
Proof.
  unfold precondition_gate, git_is_clean, eprint, sys_exit.
  apply keeps_bind.
  - destruct (allow_dirty args); simpl; keeps_tac.
  - intros [|]; keeps_tac.
Qed.

Lemma keeps_git_stages (E : env) (args : Args) (changed : bool) :
  keeps (try_except
           (commit_stage E args changed ;; tag_stage E args ;;
            push_stage E args) git_failed).
Proof.
  apply keeps_try; [|apply keeps_git_failed].
  unfold commit_stage, tag_stage, run, print.
  destruct changed; keeps_tac; apply keeps_push_stage.
Qed.

(** What the rewrite stage can end with, and what it leaves in the file. *)
Lemma rewrite_stage_cases (E : env) (args : Args) (f : option text)
  (tr : list event) :
  let r := rewrite_stage E args (World f tr) in
  (exists content,
     f = Some content /\ chosen_match (universal_newlines content) = None /\
     fst r = inr (SystemExit 2) /\ util_py (snd r) = f) \/
  ((forall content,
      f = Some content -> chosen_match (universal_newlines content) <> None) /\
   ((f = None /\ fst r = inr (SystemExit 1) /\ util_py (snd r) = f) \/
    (fst r = inl false /\ util_py (snd r) = f) \/
    (exists content m,
       f = Some content /\
       chosen_match (universal_newlines content) = Some m /\
       group m 3 <> version args /\
       write_ok E (tr ++ [EvRead])
         (firstn (group_start m 3) (universal_newlines content)
          ++ version args
          ++ skipn (group_end m 3) (universal_newlines content)) = true /\
       fst r = inl true /\
       util_py (snd r)
       = Some (translate_newlines E
                 (firstn (group_start m 3) (universal_newlines content)
                  ++ version args
                  ++ skipn (group_end m 3) (universal_newlines content)))) \/
    (exists content m,
       f = Some content /\
       chosen_match (universal_newlines content) = Some m /\
       group m 3 <> version args /\
       write_ok E (tr ++ [EvRead])
         (firstn (group_start m 3) (universal_newlines content)
          ++ version args
          ++ skipn (group_end m 3) (universal_newlines content)) = false /\
       fst r = inr (SystemExit 1) /\
       (disk E (tr ++ [EvRead])
          (firstn (group_start m 3) (universal_newlines content)
           ++ version args
           ++ skipn (group_end m 3) (universal_newlines content))
        = OpenRefused ->
        util_py (snd r) = f) /\
       (disk E (tr ++ [EvRead])
          (firstn (group_start m 3) (universal_newlines content)
           ++ version args
           ++ skipn (group_end m 3) (universal_newlines content))
        <> OpenRefused ->
        encodable
          (firstn (group_start m 3) (universal_newlines content)
           ++ version args
           ++ skipn (group_end m 3) (universal_newlines content)) = false ->
        util_py (snd r) = Some []) /\
       (forall remains,
          disk E (tr ++ [EvRead])
            (firstn (group_start m 3) (universal_newlines content)
             ++ version args
             ++ skipn (group_end m 3) (universal_newlines content))
          = WriteFailed remains ->
          encodable
            (firstn (group_start m 3) (universal_newlines content)
             ++ version args
             ++ skipn (group_end m 3) (universal_newlines content)) = true ->
          util_py (snd r) = remains)))).
Proof.
  intros r. destruct f as [content|].
  - destruct (chosen_match (universal_newlines content)) as [m|] eqn:Hc.
    + right. split; [intros t Ht; inversion Ht; subst; congruence|].
      subst r.
      destruct (text_eqb (group m 3) (version args)) eqn:Heq.
      * apply text_eqb_eq in Heq. unfold rewrite_stage, try_except.
        rewrite (update_already E _ content tr m Hc Heq).
        right; left. split; reflexivity.
      * apply text_eqb_neq in Heq.
        destruct (write_ok E (tr ++ [EvRead])
                    (firstn (group_start m 3) (universal_newlines content)
                     ++ version args
                     ++ skipn (group_end m 3) (universal_newlines content)))
          eqn:Hw.
        -- rewrite (rewrite_stage_changed E args content tr m Hc Heq Hw).
           right; right; left. exists content, m. repeat split; auto.
        -- destruct (rewrite_stage_not_written E args content tr m Hc Heq Hw)
             as (e & f & Hr & He & H1 & H2 & H3).
           rewrite Hr. right; right; right. exists content, m. simpl.
           split; [reflexivity|]. split; [exact Hc|]. split; [exact Heq|].
           split; [exact Hw|]. split; [reflexivity|].
           split; [|split].
           ++ intros Hd. now destruct (H1 Hd) as [_ ->].
           ++ intros Hd Hen. now destruct (H2 Hd Hen) as [_ ->].
           ++ intros rem Hd Hen. now destruct (H3 rem Hd Hen) as [_ ->].
    + left. exists content. subst r.
      split; [reflexivity|]. split; [exact Hc|].
      unfold rewrite_stage, try_except.
      rewrite (update_no_match E _ content tr Hc). split; reflexivity.
  - right. split; [intros t Ht; discriminate|]. left.
    split; [reflexivity|]. split; reflexivity.
Qed.

Lemma gate_cases (E : env) (args : Args) (f : option text) :
  (gate_open E args [] /\
   precondition_gate E args (initial f)
   = (inl tt, World f (gate_events args))) \/
  (~ gate_open E args [] /\
   precondition_gate E args (initial f)
   = (inr (SystemExit 1), World f [EvRun git_status; EvErr dirty_msg])).
Proof.
  destruct (allow_dirty args) eqn:Ha.
  - left. assert (Hopen : gate_open E args []) by (now left).
    split; [assumption|]. apply (gate_pass E args f [] Hopen).
  - destruct (strip (snd (git E [] git_status))) as [|c r] eqn:Hs.
    + left. assert (Hopen : gate_open E args []) by (now right).
      split; [assumption|]. apply (gate_pass E args f [] Hopen).
    + right. split.
      * intros [H|H]; congruence.
      * apply (gate_fail E args f [] Ha). congruence.
Qed.

Lemma main_gate_raises (E : env) (args : Args) (w w1 : world) (e : exn) :
  precondition_gate E args w = (inr e, w1) ->
  main E (Parsed args) w = (inr e, w1).
Proof. intros H. rewrite main_parsed. unfold bind at 1. now rewrite H. Qed.

(** Once the command line is parsed, a run ends normally, with
    [SystemExit(1)], or with [SystemExit(2)]; the last exactly when the gate
    is open, the file readable, and no pattern found. *)
Lemma main_cases (E : env) (args : Args) (f : option text) :
  (gate_open E args [] /\
   (exists content,
      f = Some content /\ chosen_match (universal_newlines content) = None) /\
   fst (main E (Parsed args) (initial f)) = inr (SystemExit 2)) \/
  (~ (gate_open E args [] /\
      exists content,
        f = Some content /\
        chosen_match (universal_newlines content) = None) /\
   (fst (main E (Parsed args) (initial f)) = inl tt \/
    fst (main E (Parsed args) (initial f)) = inr (SystemExit 1))).
Proof.
  destruct (gate_cases E args f) as [[Hopen Hg]|[Hclosed Hg]].
  - rewrite (main_after_gate E args _ _ Hg). unfold after_gate, bind.
    pose proof (rewrite_stage_cases E args f (gate_events args)) as Hcases.
    simpl in Hcases.
    destruct (rewrite_stage E args (World f (gate_events args)))
      as [[b|e] w2] eqn:Hrw; simpl in Hcases.
    + right. split.
      * intros (_ & content & Hf & Hc).
        destruct Hcases as [(t & _ & _ & H & _)|[Hsome _]];
          [discriminate|]. now apply (Hsome content Hf).
      * apply git_stages_result.
    + destruct Hcases as [(t & Hf & Hc & H & _)|[Hsome Hc]].
      * left. inversion H; subst. simpl. eauto.
      * right. split.
        -- intros (_ & content & Hf & Hc'). now apply (Hsome content Hf).
        -- destruct Hc
             as [(_ & H & _)
                |[[H _]
                 |[(t & m & _ & _ & _ & _ & H & _)
                  |(t & m & _ & _ & _ & _ & H & _)]]];
             inversion H; subst; simpl; auto.
  - right. split; [tauto|].
    rewrite (main_gate_raises E args _ _ _ Hg). simpl. auto.
Qed.

(** X10: a run ends with exit code 0, 1 or 2.  It ends with 2 exactly when
    the command line is not accepted, or when, the command line parsed, the
    run got past the gate, could read the target file, and found neither
    pattern in it.  A request for help ends with 0. *)
Theorem X10_exit_code_2_iff_usage_or_no_pattern (E : env) (c : cmdline)
  (f : option text) :
  let code := exit_code (fst (main E c (initial f))) in
  (code = 0%Z \/ code = 1%Z \/ code = 2%Z) /\
  (code = 2%Z <->
   (exists message, c = UsageError message) \/
   (exists args,
      c = Parsed args /\ gate_open E args [] /\
      exists content,
        f = Some content /\
        chosen_match (universal_newlines content) = None)) /\
  ((exists help, c = Help help) -> code = 0%Z).
Proof.
  intros code. subst code. destruct c as [args|help|message].
  - destruct (main_cases E args f) as [(Hopen & Hno & H)|(Hnot & [H|H])];
      rewrite H; simpl.
    + split; [auto|]. split; [|intros (h & Hh); discriminate].
      split; [|reflexivity]. intros _. right. exists args. auto.
    + split; [auto|]. split; [|intros (h & Hh); discriminate].
      split; [discriminate|].
      intros [(msg & Hm)|(a & Ha & Hopen & Hno)]; [discriminate|].
      inversion Ha; subst a. now elim Hnot.
    + split; [auto|]. split; [|intros (h & Hh); discriminate].
      split; [discriminate|].
      intros [(msg & Hm)|(a & Ha & Hopen & Hno)]; [discriminate|].
      inversion Ha; subst a. now elim Hnot.
  - rewrite main_help. simpl. split; [auto|]. split; [|reflexivity].
    split; [discriminate|].
    intros [(msg & Hm)|(a & Ha & _)]; discriminate.
  - rewrite main_usage. simpl. split; [auto|].
    split; [|intros (h & Hh); discriminate].
    split; [|reflexivity]. intros _. left. eauto.
Qed.

(** X11: a run leaves plugin/util.py exactly as it found it, or holding the
    text with the value of the chosen match replaced by the version, line
    ends as the platform writes them, or as a write that failed after the
    file was opened left it (empty when the new text cannot be encoded).
    The file is touched only when the command line parsed and a pattern
    matched with a different value, and failures of the later stages do
    not undo the change. *)
Theorem X11_file_unchanged_or_rewritten (E : env) (c : cmdline)
  (f : option text) :
  util_py (snd (main E c (initial f))) = f \/
  exists args content m,
    c = Parsed args /\ f = Some content /\
    chosen_match (universal_newlines content) = Some m /\
    group m 3 <> version args /\
    let new_txt := firstn (group_start m 3) (universal_newlines content)
                   ++ version args
                   ++ skipn (group_end m 3) (universal_newlines content) in
    (write_ok E (gate_events args ++ [EvRead]) new_txt = true /\
     util_py (snd (main E c (initial f)))
     = Some (translate_newlines E new_txt)) \/
    (disk E (gate_events args ++ [EvRead]) new_txt <> OpenRefused /\
     encodable new_txt = false /\
     util_py (snd (main E c (initial f))) = Some []) \/
    (exists remains,
       disk E (gate_events args ++ [EvRead]) new_txt = WriteFailed remains /\
       encodable new_txt = true /\
       util_py (snd (main E c (initial f))) = remains).
Proof.
  destruct c as [args|help|message]; [|now left|now left].
  destruct (gate_cases E args f) as [[Hopen Hg]|[Hclosed Hg]].
  - assert (Hfile : util_py (snd (main E (Parsed args) (initial f)))
                    = util_py (snd (rewrite_stage E args
                                      (World f (gate_events args))))).
    { rewrite (main_after_gate E args _ _ Hg).
      unfold after_gate. unfold bind at 1.
      destruct (rewrite_stage E args (World f (gate_events args)))
        as [[b|e] w2]; [apply keeps_git_stages|reflexivity]. }
    rewrite Hfile.
    destruct (rewrite_stage_cases E args f (gate_events args))
      as [(t & _ & _ & _ & H)
         |[_ [(_ & _ & H)
             |[[_ H]
              |[(t & m & Hf & Hc & Hne & Hw & _ & H)
               |(t & m & Hf & Hc & Hne & Hw & _ & H1 & H2 & H3)]]]]];
      try (now left).
    + right. exists args, t, m. repeat split; auto.
    + remember (firstn (group_start m 3) (universal_newlines t)
                ++ version args
                ++ skipn (group_end m 3) (universal_newlines t)) as new_txt.
      unfold write_ok in Hw.
      destruct (disk E (gate_events args ++ [EvRead]) new_txt)
        as [| |rem] eqn:Hd.
      * right. exists args, t, m.
        split; [reflexivity|]. split; [exact Hf|]. split; [exact Hc|].
        split; [exact Hne|]. rewrite <- Heqnew_txt. simpl.
        right; left. rewrite Hd.
        split; [discriminate|]. split; [exact Hw|].
        apply H2; [discriminate|exact Hw].
      * left. now apply H1.
      * right. exists args, t, m.
        split; [reflexivity|]. split; [exact Hf|]. split; [exact Hc|].
        split; [exact Hne|]. rewrite <- Heqnew_txt. simpl. rewrite Hd.
        destruct (encodable new_txt) eqn:Hen.
        -- right; right. exists rem. split; [reflexivity|].
           split; [reflexivity|]. now apply H3.
        -- right; left. split; [discriminate|]. split; [reflexivity|].
           apply H2; [discriminate|reflexivity].
  - left. rewrite (main_gate_raises E args _ _ _ Hg). reflexivity.
Qed.

(** X12: a run that exits with code 0 either only printed the help it was
    asked for, or has run the tag command, [git tag] with the tag name
    (annotated: with [-a], [-m] and the message), got return code 0 from it
    and reported the tag; after it come the two pushes, both with return
    code 0, if --push was given, and nothing otherwise. *)
Theorem X12_exit_0_means_help_or_tagged (E : env) (c : cmdline)
  (f : option text) :
  exit_code (fst (main E c (initial f))) = 0%Z ->
  (exists help,
     c = Help help /\
     main E c (initial f) = (inr (SystemExit 0), World f [EvPrint help])) \/
  exists args tr,
    c = Parsed args /\
    git_tag args
    = (if annotated args
       then [str "git"; str "tag"; str "-a"; tag_name args; str "-m";
             str "Release " ++ tag_name args]
       else [str "git"; str "tag"; tag_name args]) /\
    git_push_head = [str "git"; str "push"; str "origin"; str "HEAD"] /\
    git_push_tag args
    = [str "git"; str "push"; str "origin"; tag_name args] /\
    fst (git E tr (git_tag args)) = 0%Z /\
    trace (snd (main E c (initial f)))
    = tr ++ [EvRun (git_tag args);
             EvPrint (str "created tag " ++ tag_name args)]
         ++ (if push args
             then [EvRun git_push_head; EvRun (git_push_tag args);
                   EvPrint (str "pushed HEAD and tag to origin")]
             else []) /\
    (push args = true ->
     fst (git E (tr ++ [EvRun (git_tag args);
                        EvPrint (str "created tag " ++ tag_name args)])
            git_push_head) = 0%Z /\
     fst (git E (tr ++ [EvRun (git_tag args);
                        EvPrint (str "created tag " ++ tag_name args);
                        EvRun git_push_head])
            (git_push_tag args)) = 0%Z).
Proof.
  intros Hcode. destruct c as [args|help|message].
  2:{ left. exists help. split; reflexivity. }
  2:{ rewrite main_usage in Hcode. discriminate. }
  right.
  assert (Hok : fst (main E (Parsed args) (initial f)) = inl tt).
  { destruct (main_cases E args f) as [(_ & _ & H)|(_ & [H|H])];
      rewrite H in Hcode; try discriminate. exact H. }
  destruct (main E (Parsed args) (initial f)) as [r wf] eqn:Hmain.
  simpl in Hok. subst r. simpl.
  rewrite main_parsed in Hmain.
  apply bind_inl_inv in Hmain as (u1 & w1 & _ & Hmain).
  apply bind_inl_inv in Hmain as (changed & w2 & _ & Hmain).
  unfold try_except in Hmain.
  destruct ((commit_stage E args changed ;; tag_stage E args ;;
             push_stage E args) w2) as [[u|e] w5] eqn:Hbody.
  2:{ destruct (raises_only_git_stages E args changed w2 e w5 Hbody)
        as (cmd & rc & ->). discriminate. }
  inversion Hmain; subst; clear Hmain.
  apply bind_inl_inv in Hbody as (u3 & w3 & _ & Hbody).
  apply bind_inl_inv in Hbody as (u4 & w4 & Htag & Hpush).
  exists args, (trace w3).
  split; [reflexivity|]. split; [reflexivity|].
  split; [reflexivity|]. split; [reflexivity|].
  unfold tag_stage in Htag. unfold bind at 1 in Htag.
  rewrite run_result in Htag.
  destruct (fst (git E (trace w3) (git_tag args)) =? 0)%Z eqn:Hrc;
    [|discriminate].
  split; [now apply Z.eqb_eq|].
  unfold print, log in Htag. simpl in Htag. inversion Htag; subst; clear Htag.
  unfold push_stage in Hpush. destruct (push args).
  - unfold bind at 1 in Hpush. rewrite run_result in Hpush.
    simpl trace in Hpush. rewrite <- app_assoc in Hpush. simpl app in Hpush.
    destruct (fst (git E _ git_push_head) =? 0)%Z eqn:Hrc1; [|discriminate].
    unfold bind at 1 in Hpush. rewrite run_result in Hpush.
    simpl trace in Hpush. rewrite <- !app_assoc in Hpush.
    simpl app in Hpush.
    destruct (fst (git E _ (git_push_tag args)) =? 0)%Z eqn:Hrc2;
      [|discriminate].
    unfold print, log in Hpush. simpl in Hpush.
    inversion Hpush; subst; clear Hpush. simpl.
    split; [rewrite <- !app_assoc; reflexivity|].
    intros _. split; now apply Z.eqb_eq.
  - unfold ret in Hpush. inversion Hpush; subst. simpl.
    split; [rewrite <- !app_assoc; reflexivity|discriminate].
Qed.

Lemma X12_witness :
  let args := {| version := str "2.0.0"; annotated := false; push := false;
                 allow_dirty := false;
                 arg_tag_name := Some (str "v2.0.0") |} in
  let f := Some ([dq] ++ str "version" ++ [dq] ++ str ": '2.0.0'") in
  exit_code (fst (main env_ok (Parsed args) (initial f))) = 0%Z /\
  exists tr,
    trace (snd (main env_ok (Parsed args) (initial f)))
    = tr ++ [EvRun [str "git"; str "tag"; str "v2.0.0"];
             EvPrint (str "created tag v2.0.0")].
Proof.
  intros args f.
  assert (H : exit_code (fst (main env_ok (Parsed args) (initial f))) = 0%Z)
    by (vm_compute; reflexivity).
  split; [exact H|].
  destruct (X12_exit_0_means_help_or_tagged env_ok (Parsed args) f H)
    as [(help & Hc & _)|(a & tr & Hc & _ & _ & _ & _ & Ht & _)];
    [discriminate|].
  inversion Hc; subst a.
  exists tr. rewrite Ht. simpl. reflexivity.
Defined.

(** ** The match and the rewritten text *)

Section RewrittenExact.
Variables (P : pattern) (Pre : text -> Prop) (Hd : text -> Prop).
Hypothesis P_iff : forall b a st',
    match_at P b a = Some st' <-> Pre b /\ decl Hd b a st'.
Hypothesis P_swap : forall b X h q1 v v' q2 tl,
    Hd h -> is_quote q1 = true -> is_quote q2 = true ->
    quote_free v = true -> v <> [] -> quote_free v' = true -> v' <> [] ->
    matches P b (X ++ h ++ q1 :: v ++ q2 :: tl) ->
    matches P b (X ++ h ++ q1 :: v' ++ q2 :: tl).

Lemma search_rewritten_exact (txt new_version : text) (m : Match) :
  search P txt = Some m ->
  new_version <> [] -> quote_free new_version = true ->
  exists s1 h q1 v q2 tl,
    txt = s1 ++ h ++ q1 :: v ++ q2 :: tl /\
    is_quote q1 = true /\ is_quote q2 = true /\
    quote_free v = true /\ v <> [] /\
    m = decl_match txt s1 h v /\
    search P (s1 ++ h ++ q1 :: new_version ++ q2 :: tl)
    = Some (decl_match (s1 ++ h ++ q1 :: new_version ++ q2 :: tl)
              s1 h new_version).
Proof.
  intros H Hne Hqf.
  apply (search_decl P Pre Hd P_iff) in H
    as (s1 & h & q1 & v & q2 & tl & -> & Hpre & Hh & Hq1 & Hv & Hnv & Hq2
        & -> & Hearly).
  exists s1, h, q1, v, q2, tl. repeat split; auto.
  apply (decl_search P Pre Hd P_iff); auto.
  intros u1 u2 Hu Hn. apply not_matches. intros Hm.
  specialize (Hearly u1 u2 Hu Hn). apply not_matches in Hearly.
  apply Hearly. revert Hm. apply P_swap; auto.
Qed.
End RewrittenExact.

Lemma assign_swap_hdr (b X h : text) (q1 : char) (v v' : text) (q2 : char)
  (tl : text) :
  is_assign_hdr h -> is_quote q1 = true -> is_quote q2 = true ->
  quote_free v = true -> v <> [] -> quote_free v' = true -> v' <> [] ->
  matches assign_re b (X ++ h ++ q1 :: v ++ q2 :: tl) ->
  matches assign_re b (X ++ h ++ q1 :: v' ++ q2 :: tl).
Proof. intros _. rewrite !app_assoc. apply assign_swap. Qed.

Lemma dict_swap_hdr (b X h : text) (q1 : char) (v v' : text) (q2 : char)
  (tl : text) :
  is_dict_hdr h -> is_quote q1 = true -> is_quote q2 = true ->
  quote_free v = true -> v <> [] -> quote_free v' = true -> v' <> [] ->
  matches dict_re b (X ++ h ++ q1 :: v ++ q2 :: tl) ->
  matches dict_re b (X ++ h ++ q1 :: v' ++ q2 :: tl).
Proof.
  intros Hh. rewrite !app_assoc. apply dict_swap.
  now apply dict_hdr_segments.
Qed.

(** The chosen match before and after the value has been replaced by a
    version that can be read back. *)
Lemma chosen_rewritten_exact (txt new_version : text) (m : Match) :
  chosen_match txt = Some m ->
  well_formed_for txt new_version ->
  exists s1 h q1 v q2 tl,
    txt = s1 ++ h ++ q1 :: v ++ q2 :: tl /\
    m = decl_match txt s1 h v /\
    sub1 (chosen_re txt) (_repl new_version) txt
    = s1 ++ h ++ q1 :: new_version ++ q2 :: tl /\
    chosen_match (s1 ++ h ++ q1 :: new_version ++ q2 :: tl)
    = Some (decl_match (s1 ++ h ++ q1 :: new_version ++ q2 :: tl)
              s1 h new_version) /\
    chosen_re (s1 ++ h ++ q1 :: new_version ++ q2 :: tl) = chosen_re txt.
Proof.
  intros Hc (Hne & Hqf & Hnl). unfold chosen_match, chosen_re in *.
  destruct (search assign_re txt) as [m1|] eqn:H1.
  - inversion Hc; subst m1; clear Hc.
    destruct (search_rewritten_exact assign_re _ _ assign_match_iff
                assign_swap_hdr txt new_version m H1 Hne Hqf)
      as (s1 & h & q1 & v & q2 & tl & Ht & Hq1 & Hq2 & Hv & Hnv & Hm & Hs).
    exists s1, h, q1, v, q2, tl. rewrite Hs.
    repeat split; auto.
    unfold sub1. rewrite H1. subst m txt. apply repl_decl.
  - destruct (search_rewritten_exact dict_re _ _ dict_iff_decl
                dict_swap_hdr txt new_version m Hc Hne Hqf)
      as (s1 & h & q1 & v & q2 & tl & Ht & Hq1 & Hq2 & Hv & Hnv & Hm & Hs).
    exists s1, h, q1, v, q2, tl.
    assert (Hnone : search assign_re (s1 ++ h ++ q1 :: new_version ++ q2 :: tl)
                    = None).
    { rewrite app_assoc. apply (assign_none_rewritten _ q1 v); auto.
      rewrite <- app_assoc. now rewrite <- Ht. }
    rewrite Hnone, Hs. repeat split; auto.
    unfold sub1. rewrite Hc. subst m txt. apply repl_decl.
Qed.

(** X13: the match the rewrite works with lies inside the text, its four
    groups follow one another and make up the whole match, and its value
    (group 3) is never empty and never contains a quote. *)
Theorem X13_match_anatomy (txt : text) (m : Match) :
  chosen_match txt = Some m ->
  (m_start m <= m_end m <= length txt)%nat /\
  slice txt (m_start m) (m_end m)
  = group m 1 ++ group m 2 ++ group m 3 ++ group m 4 /\
  group m 3 <> [] /\
  quote_free (group m 3) = true.
Proof.
  intros Hc.
  assert (Hgen : forall P Pre Hd,
    (forall b a st', match_at P b a = Some st' <-> Pre b /\ decl Hd b a st') ->
    search P txt = Some m ->
    (m_start m <= m_end m <= length txt)%nat /\
    slice txt (m_start m) (m_end m)
    = group m 1 ++ group m 2 ++ group m 3 ++ group m 4 /\
    group m 3 <> [] /\
    quote_free (group m 3) = true).
  { intros P Pre Hd Hiff H.
    apply (search_decl P Pre Hd Hiff) in H
      as (s1 & h & q1 & v & q2 & tl & Ht & _ & _ & _ & Hv & Hnv & _ & Hm & _).
    subst m txt.
    rewrite group1_decl, group2_decl, group3_decl, group4_decl.
    repeat split; auto.
    - simpl. lia.
    - simpl. rewrite !length_app. simpl. rewrite !length_app. simpl. lia.
    - replace (s1 ++ h ++ q1 :: v ++ q2 :: tl)
        with (s1 ++ (h ++ [q1] ++ v ++ [q2]) ++ tl)
        by (now rewrite <- !app_assoc).
      apply slice_mid; simpl; rewrite ?length_app; simpl;
        rewrite ?length_app; simpl; lia. }
  unfold chosen_match in Hc.
  destruct (search assign_re txt) as [m1|] eqn:H1.
  - inversion Hc; subst.
    eapply Hgen; [apply assign_match_iff|exact H1].
  - apply (Hgen dict_re _ _ dict_iff_decl Hc).
Qed.

Lemma X13_witness :
  let txt : text := str "# util" ++ [newline] ++ str "version = '0.9.0'" in
  exists m,
    chosen_match txt = Some m /\
    slice txt (m_start m) (m_end m) = str "version = '0.9.0'".
Proof.
  intros txt.
  destruct (chosen_match txt) as [m|] eqn:Hc; [|discriminate].
  exists m. split; [reflexivity|].
  destruct (X13_match_anatomy txt m Hc) as (_ & Hs & _).
  rewrite Hs. vm_compute in Hc. inversion Hc. vm_compute. reflexivity.
Defined.

(** X14: the match the rewrite works with is the leftmost one of its
    pattern: the pattern matches at no earlier position of the text; and a
    match of pattern 1 starts at the start of the text or right after a
    newline. *)
Theorem X14_first_match_is_leftmost (txt : text) (m : Match) :
  chosen_match txt = Some m ->
  (forall p, (p < m_start m)%nat ->
     match_at (chosen_re txt) (rev (firstn p txt)) (skipn p txt) = None) /\
  (search assign_re txt <> None ->
   at_bol (rev (firstn (m_start m) txt)) = true).
Proof.
  intros Hc.
  assert (Hs : search (chosen_re txt) txt = Some m).
  { unfold chosen_match, chosen_re in *.
    destruct (search assign_re txt) eqn:H1; [congruence|assumption]. }
  unfold search in Hs.
  apply search_from_some in Hs as (s1 & s2 & st & Ht & Hm & Hearly & Hfound).
  rewrite app_nil_r in Hm.
  assert (Hstart : m_start m = length s1).
  { subst m. simpl. now rewrite app_nil_r, length_rev. }
  split.
  - intros p Hp. rewrite Hstart in Hp.
    specialize (Hearly (firstn p s1) (skipn p s1)).
    rewrite app_nil_r in Hearly. subst txt.
    rewrite firstn_app, skipn_app.
    replace (p - length s1)%nat with 0%nat by lia.
    rewrite firstn_O, app_nil_r, skipn_O.
    apply Hearly.
    + symmetry. apply firstn_skipn.
    + intros Hnil. apply (f_equal (@length char)) in Hnil.
      rewrite length_skipn in Hnil. simpl in Hnil. lia.
  - intros Ha. rewrite Hstart. subst txt.
    rewrite firstn_app, Nat.sub_diag, firstn_all, firstn_O, app_nil_r.
    unfold chosen_re in Hm.
    destruct (search assign_re (s1 ++ s2)); [|congruence].
    now apply assign_match_iff in Hm as [Hb _].
Qed.

Lemma X14_witness :
  let txt : text := str "xversion = '1'" ++ [newline] ++ str "version = '2'" in
  exists m,
    chosen_match txt = Some m /\
    m_start m = 15%nat /\
    match_at (chosen_re txt) (rev (firstn 1 txt)) (skipn 1 txt) = None.
Proof.
  intros txt.
  destruct (chosen_match txt) as [m|] eqn:Hc; [|discriminate].
  exists m. split; [reflexivity|].
  assert (Hst : m_start m = 15%nat).
  { vm_compute in Hc. inversion Hc. reflexivity. }
  split; [exact Hst|].
  apply (proj1 (X14_first_match_is_leftmost txt m Hc)). rewrite Hst. lia.
Defined.

(** X15: after the value of the chosen match has been replaced by a version
    that is not empty, has no quote and (where pattern 2 is in use) no
    newline, the same pattern finds the declaration again at the same
    place, with the same header and quotes, and its value is the new
    version. *)
Theorem X15_rewritten_value_reads_back (txt new_version : text) (m : Match) :
  chosen_match txt = Some m ->
  well_formed_for txt new_version ->
  let new_txt := firstn (group_start m 3) txt ++ new_version
                 ++ skipn (group_end m 3) txt in
  exists m',
    chosen_match new_txt = Some m' /\
    chosen_re new_txt = chosen_re txt /\
    group m' 3 = new_version /\
    m_start m' = m_start m /\
    group_start m' 3 = group_start m 3 /\
    group m' 1 = group m 1 /\ group m' 2 = group m 2 /\
    group m' 4 = group m 4.
Proof.
  intros Hc Hwf new_txt. subst new_txt.
  rewrite <- (sub1_chosen txt new_version m Hc).
  destruct (chosen_rewritten_exact txt new_version m Hc Hwf)
    as (s1 & h & q1 & v & q2 & tl & Ht & Hm & Hsub & Hc' & Hre).
  rewrite Hsub. eexists. split; [exact Hc'|]. split; [exact Hre|].
  subst m txt.
  rewrite !group1_decl, !group2_decl, !group3_decl, !group4_decl.
  destruct (group3_span s1 h q1 v q2 tl) as [-> _].
  destruct (group3_span s1 h q1 new_version q2 tl) as [-> _].
  repeat split; reflexivity.
Qed.

Lemma X15_witness :
  let txt : text := str "info = {'version': '0.9.0', 'name': 'x'}" in
  let nv : text := str "1.0.0" in
  exists m,
    chosen_match txt = Some m /\
    well_formed_for txt nv /\
    option_map (fun m' => group m' 3)
      (chosen_match (str "info = {'version': '1.0.0', 'name': 'x'}"))
    = Some nv.
Proof.
  intros txt nv.
  destruct (chosen_match txt) as [m|] eqn:Hc; [|discriminate].
  exists m.
  assert (Hwf : well_formed_for txt nv).
  { split; [discriminate|]. split; [reflexivity|]. intros _. reflexivity. }
  split; [reflexivity|]. split; [exact Hwf|].
  destruct (X15_rewritten_value_reads_back txt nv m Hc Hwf)
    as (m' & Hc' & _ & Hg & _).
  vm_compute in Hc. inversion Hc as [Hm]. rewrite <- Hm in Hc'.
  vm_compute in Hc'. vm_compute. reflexivity.
Defined.

(** X16: on a file whose line ends are the platform's own, rewriting to a
    version that can be read back (and has no carriage return) and then
    rewriting to the old value gives back the original file: both runs
    write, if the disk takes the two writes, and the second leaves the
    content exactly as it was before the first. *)
Theorem X16_rewrite_round_trip (E : env) (content new_version : text)
  (tr : list event) (m : Match) :
  let txt := universal_newlines content in
  let new_txt := firstn (group_start m 3) txt ++ new_version
                 ++ skipn (group_end m 3) txt in
  let tr1 := tr ++ [EvRead; EvWrite new_txt;
                    EvPrint (updated_msg E (group m 3) new_version)] in
  native E content ->
  chosen_match txt = Some m ->
  group m 3 <> new_version ->
  well_formed_for txt new_version ->
  cr_free new_version = true ->
  write_ok E (tr ++ [EvRead]) new_txt = true ->
  write_ok E (tr1 ++ [EvRead]) txt = true ->
  let r1 := update_util_version E new_version (World (Some content) tr) in
  let r2 := update_util_version E (group m 3) (snd r1) in
  fst r1 = inl true /\ fst r2 = inl true /\
  util_py (snd r1) = Some (translate_newlines E new_txt) /\
  util_py (snd r2) = Some content.
Proof.
  intros txt new_txt tr1 Hnat Hc Hne Hwf Hcr Hw1 Hw2 r1 r2.
  destruct (chosen_rewritten_exact txt new_version m Hc Hwf)
    as (s1 & h & q1 & v & q2 & tl & Ht & Hm & Hsub & Hc' & Hre).
  assert (Hg : group m 3 = v) by (subst m; rewrite Ht; apply group3_decl).
  assert (Hnew : sub1 (chosen_re txt) (_repl new_version) txt = new_txt)
    by apply (sub1_chosen txt new_version m Hc).
  assert (H1 : r1 = (inl true,
                     World (Some (translate_newlines E new_txt)) tr1)).
  { subst r1. rewrite <- Hnew in Hw1.
    rewrite (update_writes E _ content tr m Hc Hne Hw1).
    fold txt. rewrite Hnew. reflexivity. }
  assert (Hread : universal_newlines (translate_newlines E new_txt)
                  = new_txt).
  { apply read_back. rewrite <- Hnew.
    apply (cr_free_rewritten txt new_version m Hc); [|assumption].
    apply universal_newlines_cr_free. }
  assert (Hnew' : new_txt = s1 ++ h ++ q1 :: new_version ++ q2 :: tl)
    by (rewrite <- Hnew; exact Hsub).
  assert (Hg' : group (decl_match new_txt s1 h new_version) 3 <> group m 3).
  { rewrite Hnew', group3_decl. congruence. }
  assert (Hc2 : chosen_match
                  (universal_newlines (translate_newlines E new_txt))
                = Some (decl_match new_txt s1 h new_version)).
  { rewrite Hread, Hnew'. exact Hc'. }
  assert (Hback : sub1 (chosen_re new_txt) (_repl (group m 3)) new_txt
                  = txt).
  { rewrite Hnew', Hre. unfold sub1.
    assert (Hs : search (chosen_re txt)
                   (s1 ++ h ++ q1 :: new_version ++ q2 :: tl)
                 = Some (decl_match
                           (s1 ++ h ++ q1 :: new_version ++ q2 :: tl)
                           s1 h new_version)).
    { rewrite <- Hre. unfold chosen_match, chosen_re in *.
      destruct (search assign_re
                  (s1 ++ h ++ q1 :: new_version ++ q2 :: tl)) eqn:Ha;
        [congruence|assumption]. }
    rewrite Hs, repl_decl, Hg. now symmetry. }
  assert (H2 : r2 = (inl true,
                     World (Some (translate_newlines E txt))
                       (tr1 ++ [EvRead; EvWrite txt;
                                EvPrint (updated_msg E new_version
                                           (group m 3))]))).
  { subst r2. rewrite H1. simpl snd.
    rewrite (update_writes E _ _ tr1 _ Hc2 Hg');
      rewrite Hread, Hback; [|exact Hw2].
    rewrite Hnew' at 1. rewrite group3_decl. reflexivity. }
  rewrite H1, H2. simpl. repeat split; try reflexivity.
  f_equal. exact Hnat.
Qed.

Lemma X16_witness :
  let content : text :=
    str "version = '0.9.0'  # keep" ++ [13; 10] ++ str "x = 1" ++ [13; 10] in
  let txt := universal_newlines content in
  let nv : text := str "1.0.0" in
  exists m,
    native env_nt content /\
    chosen_match txt = Some m /\
    group m 3 <> nv /\
    well_formed_for txt nv /\
    cr_free nv = true /\
    util_py (snd (update_util_version env_nt nv (World (Some content) [])))
    = Some (str "version = '1.0.0'  # keep" ++ [13; 10] ++ str "x = 1"
            ++ [13; 10]) /\
    util_py (snd (update_util_version env_nt (group m 3)
                    (snd (update_util_version env_nt nv
                            (World (Some content) [])))))
    = Some content.
Proof.
  intros content txt nv.
  destruct (chosen_match txt) as [m|] eqn:Hc; [|discriminate].
  exists m.
  assert (Hnat : native env_nt content) by (vm_compute; reflexivity).
  assert (Hg : group m 3 <> nv).
  { vm_compute in Hc. inversion Hc. vm_compute. discriminate. }
  assert (Hwf : well_formed_for txt nv).
  { split; [discriminate|]. split; [reflexivity|]. intros _. reflexivity. }
  assert (Hcr : cr_free nv = true) by reflexivity.
  assert (Hw1 : write_ok env_nt ([] ++ [EvRead])
                  (firstn (group_start m 3) txt ++ nv
                   ++ skipn (group_end m 3) txt) = true).
  { vm_compute in Hc. inversion Hc. vm_compute. reflexivity. }
  assert (Hw2 : write_ok env_nt
                  (([] ++ [EvRead;
                           EvWrite (firstn (group_start m 3) txt ++ nv
                                    ++ skipn (group_end m 3) txt);
                           EvPrint (updated_msg env_nt (group m 3) nv)])
                   ++ [EvRead]) txt = true) by (vm_compute; reflexivity).
  destruct (X16_rewrite_round_trip env_nt content nv [] m
              Hnat Hc Hg Hwf Hcr Hw1 Hw2) as (_ & _ & H1 & H2).
  split; [exact Hnat|]. split; [reflexivity|]. split; [exact Hg|].
  split; [exact Hwf|]. split; [exact Hcr|]. split; [|exact H2].
  rewrite H1. vm_compute in Hc. inversion Hc. vm_compute. reflexivity.
Defined.
